(** * The research-tree orchestrator of deep-research-web-ui

    A shallow embedding of [deepResearch] and its helpers (the file
    [lib/deep-research.ts] of the repository), together with the
    properties its specification states about node addressing, query
    settling, deduplication, recursion, error isolation and the
    adjustment of the shared concurrency limiter.

    Conventions of the embedding.
    - JavaScript strings are [string], in UTF-8 (well-formed strings
      only); an optional field [f?: T] is an [option T]; arrays are lists.
    - The numbers [breadth], [maxDepth], [currentDepth] and array indices
      are integers ([Z]); the user interface only ever passes integers.
    - Anything can be thrown ([thrown]): [null] and [undefined], of which
      no property can be read, or a value of which only the optional
      [message] is observed.
    - The collaborators that are not part of the orchestrator (the model
      streams behind [generateSearchQueries] and [processSearchResult],
      the web search, the localisation function [t]) are the fields of an
      environment [Env]; streams are finite.
    - [onProgress] is an event sink: it records the step and returns.
      The three lines before the outer [try] ([useNuxtApp], [t],
      [usePLimit]) do not throw.
    - The branches of a [Promise.all] run interleaved. A run of a call is
      an [execution] of its [trace]; JavaScript only switches between
      branches at an [await], so every run of the source is among the
      executions considered here. A [Promise.all] settles as soon as one
      of its branches rejects; the other branches are not cancelled and
      run on while the caller continues. *)

From Stdlib Require Import ZArith Ascii String List Lia Permutation.
From stdpp Require Import base decidable option numbers list strings pretty gmap.

Local Open Scope string_scope.
Local Open Scope list_scope.
Local Open Scope Z_scope.

(** ** Node identifiers *)

(** [function childNodeId(parentNodeId: string, currentIndex: number)]:
    the template literal [`${parentNodeId}-${currentIndex}`]. The index is
    rendered in decimal, with a leading minus sign when negative. *)
Definition childNodeId (parentNodeId : string) (currentIndex : Z) : string :=
  parentNodeId +:+ "-" +:+ pretty currentIndex.

(** Modelled from the spec: [parentOf] is not a function of the source; the
    specification defines the parent of a NodeId as "the prefix before the
    last [-]". There is no parent when the id has no [-]. *)
Fixpoint parentOf (id : string) : option string :=
  match id with
  | EmptyString => None
  | String c rest =>
      match parentOf rest with
      | Some p => Some (String c p)
      | None => if Ascii.eqb c "-" then Some EmptyString else None
      end
  end.

(** [hasDash s]: the character [-] occurs in [s]. *)
Fixpoint hasDash (s : string) : bool :=
  match s with
  | EmptyString => false
  | String c rest => Ascii.eqb c "-" || hasDash rest
  end.

(** ** Data model *)

(** [{ url: string, learning: string, title?: string }] *)
Record Learning := mkLearning {
  url : string;
  learning : string;
  title : option string;
}.

(** [WebSearchResult], as the search collaborator returns it. *)
Record WebSearchResult := mkWebSearchResult {
  wsUrl : string;
  wsTitle : option string;
  wsContent : string;
}.

(** [PartialSearchQuery]: a [SearchQuery] whose fields may still be absent. *)
Record PartialSearchQuery := mkPartialSearchQuery {
  pq_query : option string;
  pq_researchGoal : option string;
}.

(** [PartialSearchQuery & { nodeId: string }], the element type of the
    local [searchQueries]. *)
Record NodeQuery := mkNodeQuery {
  query : option string;
  researchGoal : option string;
  nodeId : string;
}.

(** [PartialProcessedSearchResult] *)
Record PartialProcessedSearchResult := mkPartialProcessed {
  pr_learnings : option (list Learning);
  pr_followUpQuestions : option (list string);
}.

(** [ProcessedSearchResult] *)
Record ProcessedSearchResult := mkProcessed {
  learnings : list Learning;
  followUpQuestions : list string;
}.

(** [ResearchResult = { learnings }] *)
Record ResearchResult := mkResult {
  resultLearnings : list Learning;
}.

(** The part of [DeepResearchNode] that [deepResearch] reads: its fields
    [id], [label] and [researchGoal]. *)
Record DeepResearchNode := mkNode {
  rn_id : string;
  rn_label : string;
  rn_researchGoal : option string;
}.

(** The two values that have no properties. *)
Inductive nullish := js_null | js_undefined.

(** A thrown value: [null] or [undefined], or any other value, of which
    only the [message] is observed ([undefined] for a value that has
    none). *)
Inductive thrown :=
  | Nullish (v : nullish)
  | mkThrown (message : option string).

(** [e?.message] *)
Definition message (e : thrown) : option string :=
  match e with
  | Nullish _ => None
  | mkThrown m => m
  end.

(** [ResearchStep], the tagged union handed to [onProgress]. *)
Inductive ResearchStep :=
  | generating_query (result : NodeQuery) (nodeId : string) (parentNodeId : string)
  | generating_query_reasoning (delta : string) (nodeId : string)
  | generated_query (query : option string) (result : NodeQuery) (nodeId : string)
  | searching (query : string) (nodeId : string)
  | search_complete (results : list WebSearchResult) (nodeId : string)
  | processing_serach_result (query : string)
      (result : PartialProcessedSearchResult) (nodeId : string)
  | processing_serach_result_reasoning (delta : string) (nodeId : string)
  | node_complete (result : option ProcessedSearchResult) (nodeId : string)
  | error (message : option string) (nodeId : string)
  | complete (learnings : list Learning).

#[global] Instance Learning_eq_dec : EqDecision Learning.
Proof. solve_decision. Defined.
#[global] Instance WebSearchResult_eq_dec : EqDecision WebSearchResult.
Proof. solve_decision. Defined.
#[global] Instance NodeQuery_eq_dec : EqDecision NodeQuery.
Proof. solve_decision. Defined.
#[global] Instance PartialProcessed_eq_dec : EqDecision PartialProcessedSearchResult.
Proof. solve_decision. Defined.
#[global] Instance Processed_eq_dec : EqDecision ProcessedSearchResult.
Proof. solve_decision. Defined.
#[global] Instance ResearchStep_eq_dec : EqDecision ResearchStep.
Proof. solve_decision. Defined.

(** ** Deduplication (the "Conclude results" block) *)

(** One iteration of the inner loop: [if (!urlMap.has(learning.url))
    { urlMap.set(learning.url, true); finalLearnings.push(learning) }].
    The state is the pair of [urlMap] and [finalLearnings]. *)
Definition dedupStep (st : gmap string bool * list Learning) (l : Learning)
  : gmap string bool * list Learning :=
  match st.1 !! url l with
  | Some _ => st
  | None => (<[url l := true]> st.1, st.2 ++ [l])
  end.

(** The two nested [for ... of] loops over [results] and
    [result.learnings]. *)
Definition dedupLoop (results : list ResearchResult)
  (st : gmap string bool * list Learning) : gmap string bool * list Learning :=
  fold_left (fun st r => fold_left dedupStep (resultLearnings r) st) results st.

(** [finalLearnings] after the loops, from an empty [urlMap]. *)
Definition dedupe (results : list ResearchResult) : list Learning :=
  (dedupLoop results (∅, [])).2.

(** The learnings in the order the loops meet them. *)
Definition encountered (results : list ResearchResult) : list Learning :=
  concat (map resultLearnings results).

(** The specification's wording, as a function: keep the first occurrence
    of each [url], at its place, and drop the later ones. *)
Fixpoint firstOccurrences (ls : list Learning) : list Learning :=
  match ls with
  | [] => []
  | l :: rest => l :: filter (fun l' => url l' ≠ url l) (firstOccurrences rest)
  end.

(** ** Query settling (the body of the [chunk.type === 'object'] case) *)

(** [chunk.value.queries.filter((q) => q.query !== 'undefined')
      .map((q, i) => ({ ...q, nodeId: childNodeId(nodeId, i) }))] *)
Definition settleQueries (nodeId : string) (queries : list PartialSearchQuery)
  : list NodeQuery :=
  imap (fun i q =>
          mkNodeQuery (pq_query q) (pq_researchGoal q)
                      (childNodeId nodeId (Z.of_nat i)))
       (filter (fun q => pq_query q ≠ Some "undefined") queries).

(** Forgetting the [nodeId] that [settleQueries] added. *)
Definition withoutNodeId (q : NodeQuery) : PartialSearchQuery :=
  mkPartialSearchQuery (query q) (researchGoal q).

(** ** Effects: progress events, limiter operations, exceptions *)

(** What a run does that an observer can see: a call of [onProgress], the
    admission of a unit of work by the shared limiter and its release, and
    the two adjustments [globalLimit.concurrency++] and
    [globalLimit.concurrency--]. [Admit] and [Release] carry the node id of
    the query their unit works on. *)
Inductive action :=
  | Progress (s : ResearchStep)
  | Admit (unit : string)
  | Release (unit : string)
  | CapInc
  | CapDec.

#[global] Instance action_eq_dec : EqDecision action.
Proof. solve_decision. Defined.

(** The actions of a run, with their causal order: [Then] is sequencing,
    [Both] the two sides of a [Promise.all], which may interleave.
    [Rejects t] is a side of a [Promise.all] whose promise rejects when
    [t] has settled. *)
Inductive trace :=
  | Done
  | Act (a : action)
  | Then (t1 t2 : trace)
  | Both (t1 t2 : trace)
  | Rejects (t : trace).

(** How an asynchronous computation settles. [OutOfFuel] is the artefact of
    the fuel of [deepResearchFuel]; [deepResearch_returns] shows that
    [deepResearch] never yields it. *)
Inductive outcome (A : Type) :=
  | Returned (a : A)
  | Threw (e : thrown)
  | OutOfFuel.
Arguments Returned {A} a.
Arguments Threw {A} e.
Arguments OutOfFuel {A}.

(** A computation: the trace of what it did and how it settled. *)
Definition Run (A : Type) : Type := trace * outcome A.

#[global] Instance Run_ret : MRet Run := fun A a => (Done, Returned a).

#[global] Instance Run_bind : MBind Run := fun A B k m =>
  match m with
  | (t, Returned a) => (Then t (k a).1, (k a).2)
  | (t, Threw e) => (t, Threw e)
  | (t, OutOfFuel) => (t, OutOfFuel)
  end.

Definition throw {A} (e : thrown) : Run A := (Done, Threw e).

Definition act (a : action) : Run unit := (Act a, Returned tt).

(** [onProgress(step)] *)
Definition onProgress (s : ResearchStep) : Run unit := act (Progress s).

(** [try { body } catch (e) { handler(e) }] *)
Definition tryCatch {A} (body : Run A) (handler : thrown -> Run A) : Run A :=
  match body with
  | (t, Threw e) => (Then t (handler e).1, (handler e).2)
  | settled => settled
  end.

(** [try { body } finally { fin }], for a [fin] that cannot throw. *)
Definition tryFinally {A} (body : Run A) (fin : trace) : Run A :=
  (Then body.1 fin, body.2).

(** [for (const x of xs) { f(x) }] *)
Fixpoint forEach {A} (xs : list A) (f : A -> Run unit) : Run unit :=
  match xs with
  | [] => mret tt
  | x :: rest => f x ;; forEach rest f
  end.

(** [globalLimit(async () => body)]: the unit is admitted, runs, and is
    released however it settles. *)
Definition globalLimit {A} (unit : string) (body : Run A) : Run A :=
  (Then (Act (Admit unit)) (Then body.1 (Act (Release unit))), body.2).

(** The values of the settled promises when all returned. Otherwise the
    rejection of one that threw: the first in array order here, the first
    in time in JavaScript. A branch of [deepResearch] only ever rejects
    with the [TypeError] of its [catch] block ([researchBranch_threw]), so
    the choice can only show in the wording of that error's message. *)
Fixpoint allReturned {A} (os : list (outcome A)) : outcome (list A) :=
  match os with
  | [] => Returned []
  | Returned a :: rest =>
      match allReturned rest with
      | Returned l => Returned (a :: l)
      | Threw e => Threw e
      | OutOfFuel => OutOfFuel
      end
  | Threw e :: _ => Threw e
  | OutOfFuel :: _ => OutOfFuel
  end.

(** The trace of a unit as a side of a [Promise.all]. *)
Definition unitTrace {A} (u : Run A) : trace :=
  match u.2 with
  | Threw _ => Rejects u.1
  | _ => u.1
  end.

(** [await Promise.all(units)]: the units run side by side; the result
    lists their values in array order. *)
Definition promiseAll {A} (units : list (Run A)) : Run (list A) :=
  (foldr Both Done (map unitTrace units), allReturned (map snd units)).

(** ** Streams of [parseStreamingJson] *)

(** The events the orchestrator tells apart by [chunk.type]. *)
Inductive chunk (V : Type) :=
  | chunk_object (value : V)
  | chunk_reasoning (delta : string)
  | chunk_error (message : string)
  | chunk_bad_end.
Arguments chunk_object {V} value.
Arguments chunk_reasoning {V} delta.
Arguments chunk_error {V} message.
Arguments chunk_bad_end {V}.

(** A finite stream: its chunks, and the error that obtaining or iterating
    it throws after them, if any. *)
Record stream (V : Type) := mkStream {
  chunks : list (chunk V);
  failure : option thrown;
}.
Arguments mkStream {V} chunks failure.
Arguments chunks {V} s.
Arguments failure {V} s.

(** The partial value of [searchQueriesTypeSchema]. *)
Record QueriesValue := mkQueriesValue {
  queries : option (list PartialSearchQuery);
}.

(** JavaScript truthiness of an optional string. *)
Definition truthy (s : option string) : option string :=
  match s with
  | Some EmptyString => None
  | other => other
  end.




(** ** The environment *)

(** Arguments of [generateSearchQueries]. *)
Record QueriesRequest := mkQueriesRequest {
  qr_query : string;
  qr_learnings : option (list string);
  qr_numQueries : Z;
  qr_language : string;
  qr_searchLanguage : option string;
}.

(** Arguments of [processSearchResult]. *)
Record ProcessRequest := mkProcessRequest {
  sr_query : string;
  sr_results : list WebSearchResult;
  sr_numFollowUpQuestions : Z;
  sr_language : string;
}.

Record Env := mkEnv {
  (** [t('language', {}, { locale })] *)
  t_language : string -> string;
  (** [t('invalidStructuredOutput')] *)
  t_invalidStructuredOutput : string;
  (** The message of the [TypeError] that the engine throws when the
      property [message] of [null] or of [undefined] is read. *)
  typeErrorMessage : nullish -> string;
  (** [parseStreamingJson(generateSearchQueries(request).fullStream, ...)] *)
  generateSearchQueries : QueriesRequest -> stream QueriesValue;
  (** [useWebSearch()(query, { maxResults: 5, lang })]: the results, or the
      error the call throws. *)
  useWebSearch : string -> string -> list WebSearchResult + thrown;
  (** [parseStreamingJson(processSearchResult(request).fullStream, ...)] *)
  processSearchResult : ProcessRequest -> stream PartialProcessedSearchResult;
}.

(** ** [deepResearch] *)

(** The parameter object of [deepResearch]. [p_nodeId] is [None] when the
    caller leaves the default. *)
Record Params := mkParams {
  p_query : string;
  p_breadth : Z;
  p_maxDepth : Z;
  p_languageCode : string;
  p_searchLanguageCode : option string;
  p_learnings : option (list Learning);
  p_currentDepth : Z;
  p_nodeId : option string;
  p_retryNode : option DeepResearchNode;
}.

(** [retryNode && retryNode.id !== '0']: the node to retry, when the
    condition holds. *)
Definition nonRootRetry (p : Params) : option DeepResearchNode :=
  match p_retryNode p with
  | Some r => if decide (rn_id r ≠ "0") then Some r else None
  | None => None
  end.

(** The value of the variable [nodeId] once the first [if] has run: the
    retried node's id, or else the argument with its default ['0']. *)
Definition effectiveNodeId (p : Params) : string :=
  match nonRootRetry p with
  | Some r => rn_id r
  | None => default "0" (p_nodeId p)
  end.

(** [Math.ceil(breadth / 2)] on an integer. *)
Definition nextBreadthOf (breadth : Z) : Z := (breadth + 1) / 2.

(** What [String.prototype.trim] removes: the code points of WhiteSpace
    and LineTerminator of ECMAScript. In UTF-8 they take one byte (U+0009
    to U+000D, U+0020), two (U+00A0) or three (U+1680, U+2000 to U+200A,
    U+2028, U+2029, U+202F, U+205F, U+3000, U+FEFF). *)
Definition isSpace (c : ascii) : bool :=
  let n := nat_of_ascii c in
  ((9 <=? n) && (n <=? 13))%nat || (n =? 32)%nat.

Definition isSpace2 (c1 c2 : ascii) : bool :=
  ((nat_of_ascii c1 =? 194) && (nat_of_ascii c2 =? 160))%nat.

Definition isSpace3 (c1 c2 c3 : ascii) : bool :=
  let n1 := nat_of_ascii c1 in
  let n2 := nat_of_ascii c2 in
  let n3 := nat_of_ascii c3 in
  ((n1 =? 225) && (n2 =? 154) && (n3 =? 128)
   || (n1 =? 226) && (n2 =? 128)
      && ((128 <=? n3) && (n3 <=? 138)
          || (n3 =? 168) || (n3 =? 169) || (n3 =? 175))
   || (n1 =? 226) && (n2 =? 129) && (n3 =? 159)
   || (n1 =? 227) && (n2 =? 128) && (n3 =? 128)
   || (n1 =? 239) && (n2 =? 187) && (n3 =? 191))%nat.

Fixpoint trimStart (s : string) : string :=
  match s with
  | EmptyString => EmptyString
  | String c1 r1 =>
      if isSpace c1 then trimStart r1
      else match r1 with
           | EmptyString => s
           | String c2 r2 =>
               if isSpace2 c1 c2 then trimStart r2
               else match r2 with
                    | EmptyString => s
                    | String c3 r3 =>
                        if isSpace3 c1 c2 c3 then trimStart r3 else s
                    end
           end
  end.

(** Nothing but whitespace. *)
Definition blank (s : string) : bool :=
  match trimStart s with
  | EmptyString => true
  | String _ _ => false
  end.

Fixpoint trimEnd (s : string) : string :=
  match s with
  | EmptyString => EmptyString
  | String c rest => if blank s then EmptyString else String c (trimEnd rest)
  end.

Definition trim (s : string) : string := trimEnd (trimStart s).

Definition newline : string := String (ascii_of_nat 10) EmptyString.

(** [`${x}`] for an optional string. *)
Definition render (s : option string) : string := default "undefined" s.

(** The template literal of [nextQuery], trimmed. *)
Definition nextQueryOf (goal : option string) (followUps : list string) : string :=
  trim (newline +:+ "              Previous research goal: " +:+ render goal
        +:+ newline +:+ "              Follow-up research directions: "
        +:+ String.concat "" (map (fun q => newline +:+ q) followUps)
        +:+ newline +:+ "            ").

(** [results.find((r) => r.url === learning.url)?.title] put into the
    learning. *)
Definition assignTitle (results : list WebSearchResult) (l : Learning) : Learning :=
  mkLearning (url l) (learning l)
    (match List.find (fun r => String.eqb (wsUrl r) (url l)) results with
     | Some r => wsTitle r
     | None => None
     end).

(** [nextDepth <= maxDepth && searchResult.followUpQuestions?.length] *)
Definition shouldRecurse (nextDepth maxDepth : Z)
  (searchResult : PartialProcessedSearchResult) : bool :=
  (nextDepth <=? maxDepth) &&
  match pr_followUpQuestions searchResult with
  | Some (_ :: _) => true
  | _ => false
  end.

Section Orchestrator.

Context (E : Env).

(** [language] and [searchLanguage] at the head of [deepResearch]. *)
Definition languageOf (p : Params) : string := t_language E (p_languageCode p).

Definition searchLanguageOf (p : Params) : option string :=
  match truthy (p_searchLanguageCode p) with
  | Some code => Some (t_language E code)
  | None => None
  end.

(** The [for await] loop over the query stream. [searchQueries] is the
    variable of that name; [break] ends the loop without reading on. *)
Fixpoint consumeQueries (nodeId0 : string) (cs : list (chunk QueriesValue))
  (fail : option thrown) (searchQueries : list NodeQuery) : Run (list NodeQuery) :=
  match cs with
  | [] => match fail with
          | Some e => throw e
          | None => mret searchQueries
          end
  | chunk_object v :: rest =>
      match queries v with
      | Some qs =>
          let searchQueries' := settleQueries nodeId0 qs in
          forEach searchQueries'
            (fun q => onProgress (generating_query q (nodeId q) nodeId0)) ;;
          consumeQueries nodeId0 rest fail searchQueries'
      | None => consumeQueries nodeId0 rest fail searchQueries
      end
  | chunk_reasoning delta :: rest =>
      onProgress (generating_query_reasoning delta nodeId0) ;;
      consumeQueries nodeId0 rest fail searchQueries
  | chunk_error msg :: _ =>
      onProgress (error (Some msg) nodeId0) ;;
      mret searchQueries
  | chunk_bad_end :: _ =>
      onProgress (error (Some (t_invalidStructuredOutput E)) nodeId0) ;;
      mret searchQueries
  end.

(** The first [if]/[else] of the [try] block: where the child queries
    come from. *)
Definition querySource (p : Params) : Run (list NodeQuery) :=
  match nonRootRetry p with
  | Some r =>
      mret [ mkNodeQuery (Some (rn_label r)) (rn_researchGoal r) (rn_id r) ]
  | None =>
      let nodeId0 := default "0" (p_nodeId p) in
      let st := generateSearchQueries E
                  (mkQueriesRequest (p_query p)
                     (map learning <$> p_learnings p)
                     (p_breadth p) (languageOf p) (searchLanguageOf p)) in
      searchQueries ← consumeQueries nodeId0 (chunks st) (failure st) [];
      onProgress (node_complete None nodeId0) ;;
      forEach searchQueries
        (fun q => onProgress (generated_query (query q) q (nodeId q))) ;;
      mret searchQueries
  end.

(** The [for await] loop over the processing stream. *)
Fixpoint consumeProcessed (q nodeId0 : string)
  (cs : list (chunk PartialProcessedSearchResult)) (fail : option thrown)
  (searchResult : PartialProcessedSearchResult)
  : Run PartialProcessedSearchResult :=
  match cs with
  | [] => match fail with
          | Some e => throw e
          | None => mret searchResult
          end
  | chunk_object v :: rest =>
      onProgress (processing_serach_result q v nodeId0) ;;
      consumeProcessed q nodeId0 rest fail v
  | chunk_reasoning delta :: rest =>
      onProgress (processing_serach_result_reasoning delta nodeId0) ;;
      consumeProcessed q nodeId0 rest fail searchResult
  | chunk_error msg :: _ =>
      onProgress (error (Some msg) nodeId0) ;;
      mret searchResult
  | chunk_bad_end :: _ =>
      onProgress (error (Some (t_invalidStructuredOutput E)) nodeId0) ;;
      mret searchResult
  end.

(** [await useWebSearch()(...)] *)
Definition search (q lang : string) : Run (list WebSearchResult) :=
  match useWebSearch E q lang with
  | inl results => mret results
  | inr e => throw e
  end.

(** From the search to the end of the processing loop, with the titles
    assigned: the value of [searchResult] at the recursion decision. A
    [processing_serach_result] step carries the snapshot as it was when
    reported, before the titles are assigned. *)
Definition processed (p : Params) (q : string) (sq : NodeQuery)
  : Run PartialProcessedSearchResult :=
  results ← search q (p_languageCode p);
  onProgress (search_complete results (nodeId sq)) ;;
  let st := processSearchResult E
              (mkProcessRequest q results (nextBreadthOf (p_breadth p))
                 (languageOf p)) in
  searchResult ← consumeProcessed q (nodeId sq) (chunks st) (failure st)
                   (mkPartialProcessed None None);
  mret (mkPartialProcessed (map (assignTitle results) <$> pr_learnings searchResult)
                           (pr_followUpQuestions searchResult)).

(** [allLearnings = [...(learnings ?? []), ...(searchResult.learnings ?? [])]] *)
Definition allLearningsOf (p : Params) (searchResult : PartialProcessedSearchResult)
  : list Learning :=
  default [] (p_learnings p) ++ default [] (pr_learnings searchResult).

(** The argument object of the recursive call. *)
Definition deeperParams (p : Params) (sq : NodeQuery)
  (searchResult : PartialProcessedSearchResult) : Params :=
  mkParams
    (nextQueryOf (researchGoal sq) (default [] (pr_followUpQuestions searchResult)))
    (nextBreadthOf (p_breadth p))
    (p_maxDepth p)
    (p_languageCode p)
    None
    (Some (allLearningsOf p searchResult))
    (p_currentDepth p + 1)
    (Some (nodeId sq))
    None.

(** The body of the inner [try] block. [rec] is the recursive call. *)
Definition branchBody (rec : Params -> Run ResearchResult) (p : Params)
  (q : string) (sq : NodeQuery) : Run ResearchResult :=
  searchResult ← processed p q sq;
  onProgress (node_complete
                (Some (mkProcessed (default [] (pr_learnings searchResult))
                         (default [] (pr_followUpQuestions searchResult))))
                (nodeId sq)) ;;
  if shouldRecurse (p_currentDepth p + 1) (p_maxDepth p) searchResult then
    act CapInc ;;
    tryFinally (rec (deeperParams p sq searchResult)) (Act CapDec)
  else
    mret (mkResult (allLearningsOf p searchResult)).

(** What reading [e.message] throws when [e] is [null] or [undefined]. *)
Definition typeError (v : nullish) : thrown :=
  mkThrown (Some (typeErrorMessage E v)).

(** The inner [catch]. It reads [e.message] without a guard, which throws
    when [e] is [null] or [undefined]: the error escapes the branch. *)
Definition branchHandler (sq : NodeQuery) (e : thrown) : Run ResearchResult :=
  match e with
  | Nullish v => throw (typeError v)
  | mkThrown m =>
      onProgress (error m (nodeId sq)) ;;
      mret (mkResult [])
  end.

(** One element of [searchQueries.map(...)]: the unit of work handed to
    the limiter. *)
Definition researchBranch (rec : Params -> Run ResearchResult) (p : Params)
  (sq : NodeQuery) : Run ResearchResult :=
  globalLimit (nodeId sq)
    match truthy (query sq) with
    | None => mret (mkResult [])
    | Some q =>
        onProgress (searching q (nodeId sq)) ;;
        tryCatch (branchBody rec p q sq) (branchHandler sq)
    end.

(** The outer [try] block. *)
Definition nodeBody (rec : Params -> Run ResearchResult) (p : Params)
  : Run ResearchResult :=
  searchQueries ← querySource p;
  results ← promiseAll (map (researchBranch rec p) searchQueries);
  let finalLearnings := dedupe results in
  (if decide (effectiveNodeId p = "0")
   then onProgress (complete finalLearnings)
   else mret tt) ;;
  mret (mkResult finalLearnings).

(** The outer [catch]; it reads [error?.message]. *)
Definition nodeHandler (p : Params) (e : thrown) : Run ResearchResult :=
  onProgress (error (Some (default "Something went wrong" (message e)))
                    (effectiveNodeId p)) ;;
  mret (mkResult []).

(** One call of [deepResearch], its recursive calls going to [rec]. *)
Definition deepResearchBody (rec : Params -> Run ResearchResult) (p : Params)
  : Run ResearchResult :=
  tryCatch (nodeBody rec p) (nodeHandler p).

Fixpoint deepResearchFuel (fuel : nat) (p : Params) : Run ResearchResult :=
  match fuel with
  | O => (Done, OutOfFuel)
  | S fuel' => deepResearchBody (deepResearchFuel fuel') p
  end.

(** The depth still allowed below [p]; each recursive call lowers it. *)
Definition levelsLeft (p : Params) : nat :=
  Z.to_nat (p_maxDepth p - p_currentDepth p).

Definition deepResearch (p : Params) : Run ResearchResult :=
  deepResearchFuel (S (levelsLeft p)) p.

End Orchestrator.

(** ** Executions of a trace *)

(** Nothing is left to do. *)
Fixpoint finished (t : trace) : bool :=
  match t with
  | Done => true
  | Act _ => false
  | Then t1 t2 => finished t1 && finished t2
  | Both t1 t2 => finished t1 && finished t2
  | Rejects t => finished t
  end.

(** [settled t]: the promise of [t] has settled, so that what awaits it
    can go on. A [Promise.all] has settled when all its sides have, or as
    soon as one of them has rejected.
    [rejected t]: one of the sides of the [Promise.all] [t] has rejected. *)
Fixpoint settled (t : trace) : bool :=
  match t with
  | Done => true
  | Act _ => false
  | Then t1 t2 => settled t1 && settled t2
  | Both t1 t2 => settled t1 && settled t2 || rejected t1 || rejected t2
  | Rejects t => settled t
  end
with rejected (t : trace) : bool :=
  match t with
  | Both t1 t2 => rejected t1 || rejected t2
  | Rejects t => settled t
  | _ => false
  end.

(** The actions that can happen next, each with what is left after it.
    What follows [t1] in [Then t1 t2] can start once [t1] has settled;
    what is left of [t1] then, the sides of a rejected [Promise.all] that
    are still running, goes on beside it. *)
Fixpoint enabled (t : trace) : list (action * trace) :=
  match t with
  | Done => []
  | Act a => [(a, Done)]
  | Then t1 t2 =>
      map (fun at1 => (at1.1, Then at1.2 t2)) (enabled t1) ++
      (if settled t1
       then map (fun at2 => (at2.1, Then t1 at2.2)) (enabled t2)
       else [])
  | Both t1 t2 =>
      map (fun at1 => (at1.1, Both at1.2 t2)) (enabled t1) ++
      map (fun at2 => (at2.1, Both t1 at2.2)) (enabled t2)
  | Rejects t => map (fun at1 => (at1.1, Rejects at1.2)) (enabled t)
  end.

(** [execution l t]: the actions [l], in this order, are one complete
    run of [t]. *)
Fixpoint execution (l : list action) (t : trace) : bool :=
  match l with
  | [] => finished t
  | a :: l' =>
      existsb (fun bt => bool_decide (a = bt.1) && execution l' bt.2) (enabled t)
  end.

(** The run that takes the sides of every [Both] one after the other. *)
Fixpoint flat (t : trace) : list action :=
  match t with
  | Done => []
  | Act a => [a]
  | Then t1 t2 => flat t1 ++ flat t2
  | Both t1 t2 => flat t1 ++ flat t2
  | Rejects t => flat t
  end.

(** The steps handed to [onProgress] during a run. *)
Definition progressOf (l : list action) : list ResearchStep :=
  omap (fun a => match a with Progress s => Some s | _ => None end) l.

(** The learnings carried by the [complete] steps of a run. *)
Definition completions (l : list action) : list (list Learning) :=
  omap (fun a => match a with Progress (complete ls) => Some ls | _ => None end) l.

(** The steps that report query generation. *)
Definition isGenerationStep (s : ResearchStep) : bool :=
  match s with
  | generating_query _ _ _ | generating_query_reasoning _ _
  | generated_query _ _ _ => true
  | _ => false
  end.

(** ** The shared limiter *)




(** The capacity after a run: only the adjustments move it. *)
Definition capacityAfter (c : Z) (l : list action) : Z :=
  fold_left (fun c a => match a with
                        | CapInc => c + 1
                        | CapDec => c - 1
                        | _ => c
                        end) l c.

Definition countAction (a : action) (l : list action) : nat :=
  length (filter (fun b => b = a) l).

(** ** Notions used in the statements *)

(** The loop invariant of the deduplication: [urlMap] holds the urls of
    [finalLearnings]. *)
Definition urlMapOf (st : gmap string bool * list Learning) : Prop :=
  ∀ u, is_Some (st.1 !! u) ↔ u ∈ url <$> st.2.

(** An action that is neither a [complete] step nor an adjustment of the
    limiter's capacity. *)
Definition quiet (a : action) : bool :=
  match a with
  | Progress (complete _) | CapInc | CapDec => false
  | _ => true
  end.

(** What a branch does on its own for the query of node [nid]: its
    admission and release, and the steps of searching and processing, all
    reported for [nid]. *)
Definition branchAction (nid : string) (a : action) : bool :=
  match a with
  | Admit u | Release u => bool_decide (u = nid)
  | Progress (searching _ n) | Progress (search_complete _ n)
  | Progress (processing_serach_result _ _ n)
  | Progress (processing_serach_result_reasoning _ n)
  | Progress (node_complete (Some _) n) | Progress (error _ n) =>
      bool_decide (n = nid)
  | _ => false
  end.

(** A computation all of whose actions satisfy [Q] and which settles, by
    returning or by throwing. *)
Definition runs {A} (Q : action → bool) (m : Run A) : Prop :=
  Forall (fun a => Q a = true) (flat m.1) ∧ m.2 ≠ OutOfFuel.

(** The processed result on which the branch for [sq] decides to go
    deeper, if it gets that far and does. *)
Definition recursionOf (E : Env) (p : Params) (sq : NodeQuery)
  : option PartialProcessedSearchResult :=
  match truthy (query sq) with
  | None => None
  | Some q =>
      match (processed E p q sq).2 with
      | Returned sr =>
          if shouldRecurse (p_currentDepth p + 1) (p_maxDepth p) sr
          then Some sr else None
      | _ => None
      end
  end.

(** [branch] makes exactly one recursive call, with the argument [p']: in
    between actions of its own for node [nid], it raises the capacity,
    does whatever the call does, and lowers the capacity. *)
Definition makesCall (nid : string)
  (branch : (Params → Run ResearchResult) → Run ResearchResult)
  (p' : Params) : Prop :=
  ∀ rec, ∃ pre post,
    flat (branch rec).1 = pre ++ CapInc :: flat (rec p').1 ++ CapDec :: post ∧
    Forall (fun a => branchAction nid a = true) pre ∧
    Forall (fun a => branchAction nid a = true) post.

(** [branch] makes no recursive call: what it does and how it settles is
    the same whatever a recursive call would do, and all its actions are
    its own. *)
Definition makesNoCall (nid : string)
  (branch : (Params → Run ResearchResult) → Run ResearchResult) : Prop :=
  ∃ t o, (∀ rec, branch rec = (t, o)) ∧ o ≠ OutOfFuel ∧
         Forall (fun a => branchAction nid a = true) (flat t).

(** What holds of every call: it returns, it lowers the capacity as often
    as it raises it, and it reports no [complete] step unless its node is
    the root. *)
Definition wellBehaved (p : Params) (run : Run ResearchResult) : Prop :=
  (∃ r, run.2 = Returned r) ∧
  countAction CapInc (flat run.1) = countAction CapDec (flat run.1) ∧
  (effectiveNodeId p ≠ "0" → completions (flat run.1) = []).

(** A progress action that does not report query generation. *)
Definition notGeneration (a : action) : bool :=
  match a with
  | Progress s => negb (isGenerationStep s)
  | _ => true
  end.

(** The node that a step of query generation announces as a child: the
    [nodeId] of a [generating_query] or a [generated_query] step. *)
Definition announced (a : action) : option string :=
  match a with
  | Progress (generating_query _ n _) | Progress (generated_query _ _ n) => Some n
  | _ => None
  end.

(** Every node announced in [l] has an id longer than [nid]: it lies
    deeper in the tree. *)
Definition announcesDeeper (nid : string) (l : list action) : Prop :=
  Forall (fun a => ∀ n, announced a = Some n →
                        (String.length nid < String.length n)%nat) l.

(** The stream that the query generation of the call [p] reads. *)
Definition generationOf (E : Env) (p : Params) : stream QueriesValue :=
  generateSearchQueries E
    (mkQueriesRequest (p_query p) (map learning <$> p_learnings p)
       (p_breadth p) (languageOf E p) (searchLanguageOf E p)).

(** The child query of a retried node. *)
Definition retryQuery (node : DeepResearchNode) : NodeQuery :=
  mkNodeQuery (Some (rn_label node)) (rn_researchGoal node) (rn_id node).

(** ** Notions for the stream loops *)

(** The chunks on which the two [for await] loops [break]. *)
Definition breaking {V} (c : chunk V) : bool :=
  match c with
  | chunk_error _ | chunk_bad_end => true
  | _ => false
  end.

(** The chunks a loop handles before it meets a breaking one. *)
Fixpoint beforeBreak {V} (cs : list (chunk V)) : list (chunk V) :=
  match cs with
  | [] => []
  | c :: rest => if breaking c then [] else c :: beforeBreak rest
  end.

(** The values of the object chunks. *)
Definition objects {V} (cs : list (chunk V)) : list V :=
  omap (fun c => match c with chunk_object v => Some v | _ => None end) cs.

(** The query arrays of the object chunks that have one. *)
Definition snapshots (cs : list (chunk QueriesValue))
  : list (list PartialSearchQuery) :=
  omap queries (objects cs).

(** The error a loop over the stream throws: the stream's own failure,
    unless the loop breaks before reaching it. *)
Definition thrownBy {V} (cs : list (chunk V)) (fail : option thrown)
  : option thrown :=
  if existsb breaking cs then None else fail.

(** The chunks a loop reads: those before the break and the breaking
    one. *)
Fixpoint upToBreak {V} (cs : list (chunk V)) : list (chunk V) :=
  match cs with
  | [] => []
  | c :: rest => if breaking c then [c] else c :: upToBreak rest
  end.

(** What the query loop reports on reading a chunk. *)
Definition queryChunkSteps (E : Env) (nodeId0 : string)
  (c : chunk QueriesValue) : list action :=
  match c with
  | chunk_object v =>
      match queries v with
      | Some qs =>
          map (fun q => Progress (generating_query q (nodeId q) nodeId0))
            (settleQueries nodeId0 qs)
      | None => []
      end
  | chunk_reasoning delta =>
      [Progress (generating_query_reasoning delta nodeId0)]
  | chunk_error msg => [Progress (error (Some msg) nodeId0)]
  | chunk_bad_end =>
      [Progress (error (Some (t_invalidStructuredOutput E)) nodeId0)]
  end.

(** What the processing loop reports on reading a chunk. *)
Definition processedChunkStep (E : Env) (q nodeId0 : string)
  (c : chunk PartialProcessedSearchResult) : action :=
  Progress match c with
           | chunk_object v => processing_serach_result q v nodeId0
           | chunk_reasoning delta =>
               processing_serach_result_reasoning delta nodeId0
           | chunk_error msg => error (Some msg) nodeId0
           | chunk_bad_end =>
               error (Some (t_invalidStructuredOutput E)) nodeId0
           end.

(** ** Notions for the next query *)

(** [anchored s]: whatever comes before [s], the whole is not blank. *)
Definition anchored (s : string) : Prop := ∀ s0, blank (s0 +:+ s) = false.

(** ** Notions for the recursion and the results *)

(** [calls E p p']: the call with the parameters [p] makes the recursive
    call with the parameters [p'], from the branch of one of its child
    queries. *)
Definition calls (E : Env) (p p' : Params) : Prop :=
  ∃ tq sqs sq sr,
    querySource E p = (tq, Returned sqs) ∧ sq ∈ sqs ∧
    recursionOf E p sq = Some sr ∧ p' = deeperParams p sq sr.

(** The branch of the child query [sq] of the call [p] extracted the
    learning [l]: its search returned [results], the model, asked to
    process them, streamed an object with the learning [l0], and [l] is
    [l0] with the title assigned from [results]. *)
Definition extractedBy (E : Env) (p : Params) (sq : NodeQuery) (l : Learning)
  : Prop :=
  ∃ q results v ls l0,
    truthy (query sq) = Some q ∧
    useWebSearch E q (p_languageCode p) = inl results ∧
    chunk_object v
      ∈ chunks (processSearchResult E
                  (mkProcessRequest q results (nextBreadthOf (p_breadth p))
                     (languageOf E p))) ∧
    pr_learnings v = Some ls ∧ l0 ∈ ls ∧
    l = assignTitle results l0.

(** The learning [l] was found in the run of the call [p]: a branch of
    the call, or of a call made some levels below it, extracted it. *)
Definition found (E : Env) (p : Params) (l : Learning) : Prop :=
  ∃ k p' tq sqs sq,
    nsteps (calls E) k p p' ∧
    querySource E p' = (tq, Returned sqs) ∧ sq ∈ sqs ∧
    extractedBy E p' sq l.

(** ** Notions for the order and the reach of a run *)

(** A trace without [Both]: nothing in it can interleave. *)
Fixpoint sequential (t : trace) : bool :=
  match t with
  | Done | Act _ => true
  | Then t1 t2 => sequential t1 && sequential t2
  | Both _ _ | Rejects _ => false
  end.

(** A trace in which no promise rejects: every [Promise.all] waits for
    all its sides. *)
Fixpoint awaited (t : trace) : bool :=
  match t with
  | Done | Act _ => true
  | Then t1 t2 | Both t1 t2 => awaited t1 && awaited t2
  | Rejects _ => false
  end.

(** A computation that returns and in which no promise rejects. *)
Definition tidy {A} (m : Run A) : Prop :=
  awaited m.1 = true ∧ ∃ a, m.2 = Returned a.

(** The collaborators of the branches never fail with [null] or
    [undefined]: what the search or a processing stream throws has
    properties. *)
Definition noNullish (E : Env) : Prop :=
  (∀ q lang v, useWebSearch E q lang ≠ inr (Nullish v)) ∧
  (∀ req v, failure (processSearchResult E req) ≠ Some (Nullish v)).

(** The node ids an action mentions. *)
Definition mentioned (a : action) : list string :=
  match a with
  | Admit u | Release u => [u]
  | Progress (generating_query _ n parent) => [n; parent]
  | Progress (generating_query_reasoning _ n)
  | Progress (generated_query _ _ n)
  | Progress (searching _ n)
  | Progress (search_complete _ n)
  | Progress (processing_serach_result _ _ n)
  | Progress (processing_serach_result_reasoning _ n)
  | Progress (node_complete _ n)
  | Progress (error _ n) => [n]
  | Progress (complete _) | CapInc | CapDec => []
  end.

(** [m] is the id [nid] or the id of a node below it: it extends [nid]. *)
Definition within (nid m : string) : Prop := ∃ s, m = nid +:+ s.

(** All the node ids mentioned in [l] are within the subtree of [nid]. *)
Definition staysWithin (nid : string) (l : list action) : Prop :=
  Forall (fun a => Forall (within nid) (mentioned a)) l.

(** An action that is not an [error] step. *)
Definition noError (a : action) : bool :=
  match a with
  | Progress (error _ _) => false
  | _ => true
  end.

(** No collaborator fails: the streams have no [error] or [bad-end] chunk
    and do not throw, and the search returns. *)
Definition failureFree (E : Env) : Prop :=
  (∀ req, existsb breaking (chunks (generateSearchQueries E req)) = false ∧
          failure (generateSearchQueries E req) = None) ∧
  (∀ req, existsb breaking (chunks (processSearchResult E req)) = false ∧
          failure (processSearchResult E req) = None) ∧
  (∀ q lang, ∃ results, useWebSearch E q lang = inl results).

(** ** Notions for the course of the capacity *)

(** By how much an action moves the capacity. *)
Definition shift (a : action) : Z :=
  match a with
  | CapInc => 1
  | CapDec => -1
  | _ => 0
  end.

(** [lowest t]: a bound on how far below its start any execution of
    what is left in [t] can take the capacity at any moment (a number
    that is 0 or negative). [atSettle t]: such a bound for the moments at
    which [t] has settled. *)
Fixpoint lowest (t : trace) : Z :=
  match t with
  | Done => 0
  | Act a => Z.min 0 (shift a)
  | Then t1 t2 =>
      if settled t1 then atSettle t1 + lowest t2
      else Z.min (lowest t1) (atSettle t1 + lowest t2)
  | Both t1 t2 => lowest t1 + lowest t2
  | Rejects t => lowest t
  end
with atSettle (t : trace) : Z :=
  match t with
  | Done => 0
  | Act a => shift a
  | Then t1 t2 => atSettle t1 + atSettle t2
  | Both t1 t2 => Z.min (atSettle t1 + lowest t2) (lowest t1 + atSettle t2)
  | Rejects t => atSettle t
  end.

(** A computation that never takes the capacity below its start, and has
    not done so when it settles. *)
Definition steady {A} (m : Run A) : Prop := lowest m.1 = 0 ∧ atSettle m.1 = 0.

(** The parameters without the [retryNode]. *)
Definition withoutRetry (p : Params) : Params :=
  mkParams (p_query p) (p_breadth p) (p_maxDepth p) (p_languageCode p)
    (p_searchLanguageCode p) (p_learnings p) (p_currentDepth p) (p_nodeId p)
    None.

(** ** Scenarios *)

Module Scenario.

(** The messages of V8. *)
Definition v8 (v : nullish) : string :=
  match v with
  | js_null => "Cannot read properties of null (reading 'message')"
  | js_undefined => "Cannot read properties of undefined (reading 'message')"
  end.

(** A fresh root call: query ["foo"], breadth 2, depth 1. *)
Definition rootParams : Params :=
  mkParams "foo" 2 1 "en" None None 0 None None.

(** Query generation throws before it yields any chunk: the call of
    [generateSearchQueries] fails, or the iteration of its stream does
    (say, the model provider rejects the request and the [onError]
    callback rethrows). *)
Definition unauthorized : Env :=
  mkEnv (fun code => code) "Invalid structured output" v8
    (fun _ => mkStream [] (Some (mkThrown (Some "Unauthorized"))))
    (fun _ _ => inl [])
    (fun _ => mkStream [] None).

Definition page (u : string) : WebSearchResult := mkWebSearchResult u (Some "T") "text".

(** The root gets two queries ["a"] and ["b"]. Processing ["a"] yields a
    learning and a follow-up question, processing ["b"] a learning only.
    Query generation one level down ends badly without any query. *)
Definition twoQueries : Env :=
  mkEnv (fun code => code) "Invalid structured output" v8
    (fun r => if decide (qr_query r = "foo")
              then mkStream
                     [chunk_object
                        (mkQueriesValue
                           (Some [mkPartialSearchQuery (Some "a") (Some "ga");
                                  mkPartialSearchQuery (Some "b") (Some "gb")]))]
                     None
              else mkStream [chunk_bad_end] None)
    (fun q _ => inl [page ("u-" +:+ q)])
    (fun r => if decide (sr_query r = "a")
              then mkStream
                     [chunk_object
                        (mkPartialProcessed (Some [mkLearning "u-a" "la" None])
                           (Some ["why?"]))]
                     None
              else mkStream
                     [chunk_object
                        (mkPartialProcessed (Some [mkLearning "u-b" "lb" None])
                           (Some []))]
                     None).

Definition queryA : NodeQuery := mkNodeQuery (Some "a") (Some "ga") "0-0".
Definition queryB : NodeQuery := mkNodeQuery (Some "b") (Some "gb") "0-1".

(** An execution of the root call in [twoQueries] in which the search for
    ["b"] is slow: the unit of ["b"] is admitted as soon as the unit of
    ["a"] has raised the capacity, and is still waiting for its search
    when the recursive call of ["a"] has settled. *)
Definition slowSibling : list action :=
  [ Progress (generating_query queryA "0-0" "0");
    Progress (generating_query queryB "0-1" "0");
    Progress (node_complete None "0");
    Progress (generated_query (Some "a") queryA "0-0");
    Progress (generated_query (Some "b") queryB "0-1");
    Admit "0-0";
    Progress (searching "a" "0-0");
    Progress (search_complete [page "u-a"] "0-0");
    Progress (processing_serach_result "a"
                (mkPartialProcessed (Some [mkLearning "u-a" "la" None])
                   (Some ["why?"])) "0-0");
    Progress (node_complete
                (Some (mkProcessed [mkLearning "u-a" "la" (Some "T")] ["why?"]))
                "0-0");
    CapInc;
    Admit "0-1";
    Progress (searching "b" "0-1");
    Progress (error (Some "Invalid structured output") "0-0");
    Progress (node_complete None "0-0");
    CapDec;
    Release "0-0";
    Progress (search_complete [page "u-b"] "0-1");
    Progress (processing_serach_result "b"
                (mkPartialProcessed (Some [mkLearning "u-b" "lb" None])
                   (Some [])) "0-1");
    Progress (node_complete
                (Some (mkProcessed [mkLearning "u-b" "lb" (Some "T")] []))
                "0-1");
    Release "0-1";
    Progress (complete [mkLearning "u-b" "lb" (Some "T")]) ].

(** As [twoQueries], but processing yields one learning from the page
    found and no follow-up question, for every query. *)
Definition plain : Env :=
  mkEnv (fun code => code) "Invalid structured output" v8
    (generateSearchQueries twoQueries)
    (useWebSearch twoQueries)
    (fun r => mkStream
                [chunk_object
                   (mkPartialProcessed
                      (Some (map (fun page => mkLearning (wsUrl page) "l" None)
                               (sr_results r)))
                      (Some []))]
                None).

(** The search fails for every query. *)
Definition searchDown : Env :=
  mkEnv (fun code => code) "Invalid structured output" v8
    (generateSearchQueries twoQueries)
    (fun _ _ => inr (mkThrown (Some "fetch failed")))
    (processSearchResult twoQueries).

(** Query generation reports an error before any snapshot. *)
Definition noQueries : Env :=
  mkEnv (fun code => code) "Invalid structured output" v8
    (fun _ => mkStream [chunk_error "overloaded"] None)
    (fun _ _ => inl [])
    (fun _ => mkStream [] None).

(** A root call that inherits a learning. *)
Definition inheriting : Params :=
  mkParams "foo" 2 1 "en" None (Some [mkLearning "u0" "known" None]) 0 None None.

(** Retrying the node ["0-1"]. *)
Definition retried : DeepResearchNode := mkNode "0-1" "X" (Some "Y").

Definition retryParams : Params :=
  mkParams "foo" 2 1 "en" None None 0 None (Some retried).

(** The processed result of query ["a"] in [twoQueries], and the
    parameters of the recursive call its branch makes. *)
Definition processedA : PartialProcessedSearchResult :=
  mkPartialProcessed (Some [mkLearning "u-a" "la" (Some "T")]) (Some ["why?"]).

Definition deeperA : Params := deeperParams rootParams queryA processedA.

(** Nothing fails: every query generation yields the two queries, every
    search finds a page, every processing yields one learning from it and
    a follow-up question. *)
Definition smooth : Env :=
  mkEnv (fun code => code) "Invalid structured output" v8
    (fun _ => mkStream
                [chunk_reasoning "thinking";
                 chunk_object
                   (mkQueriesValue
                      (Some [mkPartialSearchQuery (Some "a") (Some "ga");
                             mkPartialSearchQuery (Some "b") (Some "gb")]))]
                None)
    (fun q _ => inl [page ("u-" +:+ q)])
    (fun r => mkStream
                [chunk_object
                   (mkPartialProcessed
                      (Some (map (fun page => mkLearning (wsUrl page) "l" None)
                               (sr_results r)))
                      (Some ["why?"]))]
                None).

(** As [twoQueries], but the search for ["a"] rejects with [undefined],
    as a promise does whose [reject] is called without a reason. *)
Definition searchRejects : Env :=
  mkEnv (fun code => code) "Invalid structured output" v8
    (generateSearchQueries twoQueries)
    (fun q lang => if decide (q = "a") then inr (Nullish js_undefined)
                   else useWebSearch twoQueries q lang)
    (processSearchResult twoQueries).

(** Retrying the root node. *)
Definition retriedRoot : DeepResearchNode := mkNode "0" "foo" None.

Definition retryRootParams : Params :=
  mkParams "foo" 2 1 "en" None None 0 None (Some retriedRoot).

End Scenario.

(** * Properties *)

(** ** Node identifiers *)

Example childNodeId_0_2 : childNodeId "0" 2 = "0-2".
Proof. reflexivity. Qed.

Example childNodeId_nested : childNodeId "0-1" 10 = "0-1-10".
Proof. reflexivity. Qed.

Example parentOf_nested : parentOf "0-1-10" = Some "0-1".
Proof. reflexivity. Qed.

Example parentOf_negative_index : parentOf (childNodeId "0" (-1)) = Some "0-".
Proof. reflexivity. Qed.

Lemma hasDash_app (s1 s2 : string) :
  hasDash (s1 +:+ s2) = hasDash s1 || hasDash s2.
Proof.
  induction s1 as [|c s1 IH]; simpl; [done|].
  rewrite IH. by destruct (Ascii.eqb c "-").
Qed.

Lemma parentOf_no_dash (s : string) : hasDash s = false → parentOf s = None.
Proof.
  induction s as [|c s IH]; simpl; [done|].
  destruct (Ascii.eqb c "-"); simpl; [done|].
  intros H. by rewrite IH.
Qed.

Lemma parentOf_app_dash (p s : string) :
  hasDash s = false → parentOf (p +:+ "-" +:+ s) = Some p.
Proof.
  intros Hs. induction p as [|c p IH]; simpl.
  - by rewrite parentOf_no_dash.
  - by rewrite IH.
Qed.

Lemma pretty_N_char_no_dash (x : N) : Ascii.eqb (pretty_N_char x) "-" = false.
Proof. unfold pretty_N_char. by repeat case_match. Qed.

Lemma pretty_N_go_hasDash (x : N) (s : string) :
  hasDash (pretty_N_go x s) = hasDash s.
Proof.
  revert s. induction (N.lt_wf_0 x) as [x _ IH]; intros s.
  destruct (decide (x = 0)%N) as [->|Hx].
  - by rewrite pretty_N_go_0.
  - rewrite pretty_N_go_step by lia.
    rewrite IH by (apply N.div_lt; lia).
    simpl. by rewrite pretty_N_char_no_dash.
Qed.

(** The decimal rendering of an index that is not negative has no [-]. *)
Lemma pretty_nonneg_no_dash (i : Z) : 0 ≤ i → hasDash (pretty i) = false.
Proof.
  intros Hi. destruct i as [|x|x]; [done| |lia].
  unfold pretty, pretty_Z, pretty, pretty_positive, pretty, pretty_N.
  case_decide; [done|]. by rewrite pretty_N_go_hasDash.
Qed.

Lemma childNodeId_hasDash (p : string) (i : Z) : hasDash (childNodeId p i) = true.
Proof.
  unfold childNodeId. rewrite !hasDash_app. simpl.
  by rewrite orb_true_r.
Qed.

Lemma childNodeId_not_root (p : string) (i : Z) : childNodeId p i ≠ "0".
Proof.
  intros H. pose proof (childNodeId_hasDash p i) as Hd.
  rewrite H in Hd. discriminate.
Qed.

(** C8. [childNodeId p i] is the string [p], a [-], and the decimal
    rendering of [i]; when that rendering has no [-], the prefix of the
    child id before its last [-] is [p]. *)
Theorem childNodeId_parentOf (p : string) (i : Z)
  (Hi : hasDash (pretty i) = false) :
  childNodeId p i = p +:+ "-" +:+ pretty i ∧
  parentOf (childNodeId p i) = Some p.
Proof.
  split; [reflexivity|].
  unfold childNodeId. by apply parentOf_app_dash.
Qed.

(** The child of index 10 of node [0-1]. *)
Lemma childNodeId_parentOf_witness :
  hasDash (pretty 10) = false ∧
  childNodeId "0-1" 10 = "0-1-10" ∧
  parentOf (childNodeId "0-1" 10) = Some "0-1".
Proof.
  split; [reflexivity|].
  apply (childNodeId_parentOf "0-1" 10). reflexivity.
Defined.

(** For an array index the parent is always recovered. *)
Corollary parentOf_child_index (p : string) (i : nat) :
  parentOf (childNodeId p (Z.of_nat i)) = Some p.
Proof.
  unfold childNodeId. apply parentOf_app_dash, pretty_nonneg_no_dash. lia.
Qed.

(** ** Query settling *)

Example settleQueries_drops_undefined :
  settleQueries "0"
    [ mkPartialSearchQuery (Some "a") (Some "ga");
      mkPartialSearchQuery (Some "undefined") (Some "gu");
      mkPartialSearchQuery None None;
      mkPartialSearchQuery (Some "b") (Some "gb") ]
  = [ mkNodeQuery (Some "a") (Some "ga") "0-0";
      mkNodeQuery None None "0-1";
      mkNodeQuery (Some "b") (Some "gb") "0-2" ].
Proof. reflexivity. Qed.

Lemma withoutNodeId_settleQueries (nodeId0 : string) (qs : list PartialSearchQuery) :
  withoutNodeId <$> settleQueries nodeId0 qs
  = filter (fun q => pq_query q ≠ Some "undefined") qs.
Proof.
  unfold settleQueries. rewrite fmap_imap.
  etrans; [apply (imap_ext _ (const id))|].
  - intros i [q g] _. reflexivity.
  - by rewrite imap_const, list_fmap_id.
Qed.

Lemma settleQueries_nodeId (nodeId0 : string) (qs : list PartialSearchQuery)
  (i : nat) (c : NodeQuery) :
  settleQueries nodeId0 qs !! i = Some c →
  nodeId c = childNodeId nodeId0 (Z.of_nat i).
Proof.
  unfold settleQueries. rewrite list_lookup_imap_Some.
  intros (q & _ & ->). reflexivity.
Qed.

(** C9. A settled snapshot [qs] of the query array becomes the child list
    [settleQueries nodeId0 qs]: apart from the node ids it is [qs] in the
    same order without the entries whose query text is ["undefined"], and
    only those are dropped; the entry at position [i] of the child list
    has the child id of index [i]. The loop replaces [searchQueries] by
    this list and reports one [generating_query] step per child. *)
Theorem settled_snapshot (E : Env) (nodeId0 : string)
  (qs : list PartialSearchQuery) :
  let children := settleQueries nodeId0 qs in
  withoutNodeId <$> children = filter (fun q => pq_query q ≠ Some "undefined") qs ∧
  sublist (withoutNodeId <$> children) qs ∧
  (∀ q, q ∈ withoutNodeId <$> children ↔ q ∈ qs ∧ pq_query q ≠ Some "undefined") ∧
  (∀ i c, children !! i = Some c → nodeId c = childNodeId nodeId0 (Z.of_nat i)) ∧
  (∀ rest fail before,
     consumeQueries E nodeId0
       (chunk_object (mkQueriesValue (Some qs)) :: rest) fail before
     = (forEach children
          (fun q => onProgress (generating_query q (nodeId q) nodeId0)) ;;
        consumeQueries E nodeId0 rest fail children)).
Proof.
  intros children. subst children.
  rewrite withoutNodeId_settleQueries.
  split_and!.
  - reflexivity.
  - apply sublist_filter.
  - intros q. rewrite list_elem_of_filter. tauto.
  - apply settleQueries_nodeId.
  - reflexivity.
Qed.

(** ** Deduplication *)

Example dedupe_overlap :
  dedupe [ mkResult [ mkLearning "u1" "a" None; mkLearning "u2" "b" None ];
           mkResult [];
           mkResult [ mkLearning "u2" "c" None; mkLearning "u3" "d" None;
                      mkLearning "u1" "e" None ] ]
  = [ mkLearning "u1" "a" None; mkLearning "u2" "b" None;
      mkLearning "u3" "d" None ].
Proof. vm_compute. reflexivity. Qed.

Lemma dedupLoop_encountered (results : list ResearchResult)
  (st : gmap string bool * list Learning) :
  dedupLoop results st = fold_left dedupStep (encountered results) st.
Proof.
  unfold dedupLoop, encountered. revert st.
  induction results as [|r results IH]; intros st; simpl; [done|].
  by rewrite fold_left_app, IH.
Qed.

Lemma dedupStep_urlMapOf st l : urlMapOf st → urlMapOf (dedupStep st l).
Proof.
  intros Hst. unfold dedupStep.
  destruct (st.1 !! url l) eqn:Hl; [done|].
  intros u. simpl. rewrite fmap_app, elem_of_app. simpl.
  rewrite list_elem_of_singleton, lookup_insert_is_Some.
  specialize (Hst u). destruct Hst as [Hst1 Hst2].
  destruct (decide (url l = u)) as [->|Hne]; [tauto|].
  split; [intros [?|[_ ?]]; [done|by left; apply Hst1]|].
  intros [?|?]; [by right; split; [|apply Hst2]|done].
Qed.

Lemma dedup_fold (ls : list Learning) (st : gmap string bool * list Learning) :
  urlMapOf st →
  (fold_left dedupStep ls st).2
  = st.2 ++ filter (fun l => url l ∉ url <$> st.2) (firstOccurrences ls).
Proof.
  revert st. induction ls as [|l ls IH]; intros st Hst; simpl.
  - by rewrite filter_nil, app_nil_r.
  - rewrite IH by by apply dedupStep_urlMapOf.
    unfold dedupStep. destruct (st.1 !! url l) eqn:Hl.
    + assert (url l ∈ url <$> st.2) as Hin by (apply Hst; eauto).
      rewrite filter_cons_False by naive_solver.
      f_equal. rewrite list_filter_filter. apply list_filter_iff.
      intros l'. split; [|tauto]. intros H. split; [done|]. congruence.
    + assert (url l ∉ url <$> st.2) as Hnin.
      { intros Hin. apply (Hst (url l)) in Hin as [? Hin]. congruence. }
      simpl. rewrite filter_cons_True by done.
      rewrite <- app_assoc. simpl. do 2 f_equal.
      rewrite list_filter_filter. apply list_filter_iff.
      intros l'. rewrite fmap_app, elem_of_app. simpl.
      rewrite list_elem_of_singleton. tauto.
Qed.

Lemma filter_all {A} (P : A → Prop) `{!∀ x, Decision (P x)} (l : list A) :
  (∀ x, x ∈ l → P x) → filter P l = l.
Proof.
  induction l as [|x l IH]; intros Hall; [done|].
  rewrite filter_cons_True by (apply Hall; left).
  f_equal. apply IH. intros y Hy. apply Hall. by right.
Qed.

(** The loops compute what the specification words. *)
Lemma dedupe_firstOccurrences (results : list ResearchResult) :
  dedupe results = firstOccurrences (encountered results).
Proof.
  unfold dedupe. rewrite dedupLoop_encountered, dedup_fold.
  - simpl. apply filter_all. intros l _. apply not_elem_of_nil.
  - intros u. simpl. rewrite lookup_empty, elem_of_nil.
    split; [by intros [? ?]|done].
Qed.

Lemma firstOccurrences_sublist (ls : list Learning) :
  sublist (firstOccurrences ls) ls.
Proof.
  induction ls as [|l ls IH]; simpl; [done|].
  apply sublist_skip. etrans; [apply sublist_filter|done].
Qed.

Lemma firstOccurrences_urls (ls : list Learning) (u : string) :
  u ∈ url <$> firstOccurrences ls ↔ u ∈ url <$> ls.
Proof.
  induction ls as [|l ls IH]; simpl; [done|].
  rewrite !elem_of_cons, <- IH, !list_elem_of_fmap.
  setoid_rewrite list_elem_of_filter.
  destruct (decide (u = url l)) as [->|Hne]; [tauto|].
  split.
  - intros [?|(l' & -> & _ & ?)]; [by left|right; by exists l'].
  - intros [?|(l' & -> & ?)]; [by left|right; by exists l'].
Qed.

Lemma firstOccurrences_NoDup (ls : list Learning) :
  NoDup (url <$> firstOccurrences ls).
Proof.
  induction ls as [|l ls IH]; simpl; [constructor|].
  constructor.
  - rewrite list_elem_of_fmap. intros (l' & Hu & Hin).
    apply list_elem_of_filter in Hin as [Hne _]. congruence.
  - eapply sublist_NoDup; [exact IH|apply fmap_sublist, sublist_filter].
Qed.

Lemma firstOccurrences_first (ls : list Learning) (l : Learning) :
  l ∈ firstOccurrences ls →
  ∃ before after, ls = before ++ l :: after ∧ url l ∉ url <$> before.
Proof.
  induction ls as [|l0 ls IH]; simpl; [by intros ?%elem_of_nil|].
  rewrite elem_of_cons, list_elem_of_filter.
  intros [->|[Hne Hin]].
  - exists [], ls. split; [done|apply not_elem_of_nil].
  - destruct (IH Hin) as (before & after & -> & Hnin).
    exists (l0 :: before), after. split; [done|].
    simpl. rewrite not_elem_of_cons. done.
Qed.

(** ** Executions *)

Lemma finished_flat (t : trace) : finished t = true ↔ flat t = [].
Proof.
  induction t as [|a|t1 IH1 t2 IH2|t1 IH1 t2 IH2|t IH]; simpl;
    rewrite ?andb_true_iff, ?IH1, ?IH2; try done.
  - split; [intros [-> ->]; done|]. by intros [? ?]%app_eq_nil.
  - split; [intros [-> ->]; done|]. by intros [? ?]%app_eq_nil.
Qed.

Lemma finished_enabled (t : trace) : finished t = true → enabled t = [].
Proof.
  induction t as [|a|t1 IH1 t2 IH2|t1 IH1 t2 IH2|t IH]; simpl; try done.
  - intros [H1 H2]%andb_true_iff. rewrite IH1, IH2 by done.
    by destruct (settled t1).
  - intros [H1 H2]%andb_true_iff. by rewrite IH1, IH2.
  - intros H. by rewrite IH.
Qed.

(** When nothing is left to do, the promise has settled. *)
Lemma finished_settled (t : trace) : finished t = true → settled t = true.
Proof.
  induction t as [|a|t1 IH1 t2 IH2|t1 IH1 t2 IH2|t IH]; simpl; try done.
  - intros [H1 H2]%andb_true_iff. by rewrite IH1, IH2.
  - intros [H1 H2]%andb_true_iff. by rewrite IH1, IH2.
Qed.

(** A [Promise.all] of which a side has rejected has settled. *)
Lemma rejected_settled (t : trace) : rejected t = true → settled t = true.
Proof.
  destruct t as [|a|t1 t2|t1 t2|t]; simpl; try done.
  intros H. rewrite <- orb_assoc, H. apply orb_true_r.
Qed.

(** In a trace without rejection, a promise has settled when nothing is
    left to do. *)
Lemma awaited_settled (t : trace) :
  awaited t = true → rejected t = false ∧ settled t = finished t.
Proof.
  induction t as [|a|t1 IH1 t2 IH2|t1 IH1 t2 IH2|t IH]; simpl; try done.
  - intros [H1 H2]%andb_true_iff.
    destruct (IH1 H1) as [_ ->], (IH2 H2) as [_ ->]. done.
  - intros [H1 H2]%andb_true_iff.
    destruct (IH1 H1) as [-> ->], (IH2 H2) as [-> ->].
    by rewrite !orb_false_r.
Qed.

Lemma awaited_enabled (t t' : trace) (a : action) :
  awaited t = true → (a, t') ∈ enabled t → awaited t' = true.
Proof.
  revert t'. induction t as [|b|t1 IH1 t2 IH2|t1 IH1 t2 IH2|t IH];
    intros t'; simpl; [| | | |done].
  - by intros _ ?%elem_of_nil.
  - by intros _ [= -> ->]%list_elem_of_singleton.
  - intros [H1 H2]%andb_true_iff. rewrite elem_of_app.
    intros [([b t1'] & [= -> ->] & Hin)%list_elem_of_fmap|Hin].
    + simpl. by rewrite (IH1 _ H1 Hin), H2.
    + destruct (settled t1); [|by apply elem_of_nil in Hin].
      apply list_elem_of_fmap in Hin as ([b t2'] & [= -> ->] & Hin).
      simpl. by rewrite H1, (IH2 _ H2 Hin).
  - intros [H1 H2]%andb_true_iff. rewrite elem_of_app.
    intros [([b t1'] & [= -> ->] & Hin)%list_elem_of_fmap
           |([b t2'] & [= -> ->] & Hin)%list_elem_of_fmap]; simpl.
    + by rewrite (IH1 _ H1 Hin), H2.
    + by rewrite H1, (IH2 _ H2 Hin).
Qed.

(** A promise that has settled stays settled. *)
Lemma settled_enabled (t t' : trace) (a : action) :
  (a, t') ∈ enabled t →
  (settled t = true → settled t' = true) ∧
  (rejected t = true → rejected t' = true).
Proof.
  revert t'. induction t as [|b|t1 IH1 t2 IH2|t1 IH1 t2 IH2|t IH];
    intros t'; simpl.
  - by intros ?%elem_of_nil.
  - by intros [= -> ->]%list_elem_of_singleton.
  - rewrite elem_of_app.
    intros [([b t1'] & [= -> ->] & Hin)%list_elem_of_fmap|Hin].
    + destruct (IH1 _ Hin) as [Hs _]. simpl. split; [|done].
      intros [H1 H2]%andb_true_iff. by rewrite Hs, H2.
    + destruct (settled t1) eqn:H1; [|by apply elem_of_nil in Hin].
      apply list_elem_of_fmap in Hin as ([b t2'] & [= -> ->] & Hin).
      destruct (IH2 _ Hin) as [Hs _]. simpl. split; [|done].
      rewrite H1. simpl. exact Hs.
  - rewrite elem_of_app.
    intros [([b t1'] & [= -> ->] & Hin)%list_elem_of_fmap
           |([b t2'] & [= -> ->] & Hin)%list_elem_of_fmap]; simpl.
    + destruct (IH1 _ Hin) as [Hs Hr]. split.
      * intros [[[H1 H2]%andb_true_iff|H1]%orb_true_iff|H2]%orb_true_iff.
        -- by rewrite Hs, H2.
        -- rewrite (Hr H1). by rewrite orb_true_r.
        -- rewrite H2. by rewrite orb_true_r.
      * intros [H1|H2]%orb_true_iff; [by rewrite Hr|].
        rewrite H2. by rewrite orb_true_r.
    + destruct (IH2 _ Hin) as [Hs Hr]. split.
      * intros [[[H1 H2]%andb_true_iff|H1]%orb_true_iff|H2]%orb_true_iff.
        -- by rewrite H1, Hs.
        -- rewrite H1. by rewrite orb_true_r.
        -- rewrite (Hr H2). by rewrite orb_true_r.
      * intros [H1|H2]%orb_true_iff; [by rewrite H1|].
        rewrite (Hr H2). by rewrite orb_true_r.
  - intros ([b t1'] & [= -> ->] & Hin)%list_elem_of_fmap.
    destruct (IH _ Hin) as [Hs _]. simpl. by split.
Qed.

(** One step takes one action out of what is left to do. *)
Lemma enabled_flat (t t' : trace) (a : action) :
  (a, t') ∈ enabled t → flat t ≡ₚ a :: flat t'.
Proof.
  revert t'. induction t as [|b|t1 IH1 t2 IH2|t1 IH1 t2 IH2|t IH];
    intros t'; simpl.
  - by intros ?%elem_of_nil.
  - intros [= -> ->]%list_elem_of_singleton. done.
  - rewrite elem_of_app.
    intros [([b t1'] & [= -> ->] & Hin)%list_elem_of_fmap|Hin].
    + simpl. by rewrite (IH1 _ Hin).
    + destruct (settled t1); [|by apply elem_of_nil in Hin].
      apply list_elem_of_fmap in Hin as ([b t2'] & [= -> ->] & Hin).
      simpl. rewrite (IH2 _ Hin). by rewrite Permutation_middle.
  - rewrite elem_of_app.
    intros [([b t1'] & [= -> ->] & Hin)%list_elem_of_fmap
           |([b t2'] & [= -> ->] & Hin)%list_elem_of_fmap]; simpl.
    + by rewrite (IH1 _ Hin).
    + rewrite (IH2 _ Hin). by rewrite Permutation_middle.
  - intros ([b t1'] & [= -> ->] & Hin)%list_elem_of_fmap.
    simpl. by apply IH.
Qed.

(** Every execution performs the actions of the trace, each once. *)
Lemma execution_flat (l : list action) (t : trace) :
  execution l t = true → l ≡ₚ flat t.
Proof.
  revert t. induction l as [|a l IH]; intros t; simpl.
  - intros Hf. apply finished_flat in Hf. by rewrite Hf.
  - intros ([b t'] & Hin & Hb)%existsb_exists.
    apply andb_true_iff in Hb as [Hab Hex]. simpl in *.
    apply bool_decide_eq_true in Hab as ->.
    apply list_elem_of_In, enabled_flat in Hin.
    by rewrite Hin, (IH _ Hex).
Qed.

Lemma flat_head_enabled (t : trace) (a : action) (l : list action) :
  flat t = a :: l → ∃ t', (a, t') ∈ enabled t ∧ flat t' = l.
Proof.
  revert l. induction t as [|b|t1 IH1 t2 IH2|t1 IH1 t2 IH2|t IH];
    intros l; simpl.
  - done.
  - intros [= -> <-]. exists Done. split; [left|done].
  - destruct (flat t1) as [|b l1] eqn:Hl1; simpl.
    + intros Hl2. destruct (IH2 _ Hl2) as (t2' & Hin & <-).
      exists (Then t1 t2'). simpl. rewrite Hl1. split; [|done].
      apply elem_of_app. right.
      rewrite finished_settled by by apply finished_flat.
      apply list_elem_of_fmap. by exists (a, t2').
    + intros [= -> <-].
      destruct (IH1 _ eq_refl) as (t1' & Hin & <-).
      exists (Then t1' t2). split; [|done].
      apply elem_of_app. left. apply list_elem_of_fmap. by exists (a, t1').
  - destruct (flat t1) as [|b l1] eqn:Hl1; simpl.
    + intros Hl2. destruct (IH2 _ Hl2) as (t2' & Hin & <-).
      exists (Both t1 t2'). simpl. rewrite Hl1. split; [|done].
      apply elem_of_app. right. apply list_elem_of_fmap. by exists (a, t2').
    + intros [= -> <-].
      destruct (IH1 _ eq_refl) as (t1' & Hin & <-).
      exists (Both t1' t2). split; [|done].
      apply elem_of_app. left. apply list_elem_of_fmap. by exists (a, t1').
  - intros Hl. destruct (IH _ Hl) as (t' & Hin & <-).
    exists (Rejects t'). split; [|done].
    apply list_elem_of_fmap. by exists (a, t').
Qed.

(** The run that takes the branches one after the other is an execution. *)
Lemma flat_execution (t : trace) : execution (flat t) t = true.
Proof.
  remember (flat t) as l eqn:Hl. revert t Hl.
  induction l as [|a l IH]; intros t Hl; simpl.
  - by apply finished_flat.
  - destruct (flat_head_enabled t a l) as (t' & Hin & Ht'); [done|].
    apply existsb_exists. exists (a, t'). split.
    + by apply list_elem_of_In.
    + simpl. rewrite bool_decide_eq_true_2 by done. simpl. by apply IH.
Qed.

Lemma completions_execution (l : list action) (t : trace) :
  execution l t = true → completions l ≡ₚ completions (flat t).
Proof. intros H. unfold completions. by rewrite (execution_flat _ _ H). Qed.

Lemma progressOf_execution (l : list action) (t : trace) :
  execution l t = true → progressOf l ≡ₚ progressOf (flat t).
Proof. intros H. unfold progressOf. by rewrite (execution_flat _ _ H). Qed.

Lemma countAction_app (a : action) (l1 l2 : list action) :
  countAction a (l1 ++ l2) = (countAction a l1 + countAction a l2)%nat.
Proof. unfold countAction. by rewrite filter_app, length_app. Qed.

Lemma countAction_cons (a b : action) (l : list action) :
  countAction a (b :: l)
  = ((if decide (b = a) then 1 else 0) + countAction a l)%nat.
Proof. unfold countAction. rewrite filter_cons. by case_decide. Qed.




(** ** The recursion of [deepResearch] *)

Lemma shouldRecurse_depth (nextDepth maxDepth : Z) sr :
  shouldRecurse nextDepth maxDepth sr = true →
  nextDepth ≤ maxDepth ∧ ∃ f fs, pr_followUpQuestions sr = Some (f :: fs).
Proof.
  unfold shouldRecurse. intros [Hd Hf]%andb_true_iff.
  apply Z.leb_le in Hd. split; [done|].
  destruct (pr_followUpQuestions sr) as [[|f fs]|]; try done. eauto.
Qed.

Lemma levelsLeft_deeper (p : Params) (sq : NodeQuery) sr :
  shouldRecurse (p_currentDepth p + 1) (p_maxDepth p) sr = true →
  levelsLeft p = S (levelsLeft (deeperParams p sq sr)).
Proof.
  intros [Hd _]%shouldRecurse_depth. unfold levelsLeft. simpl. lia.
Qed.

Section Recursion.

Context (E : Env).

(** The recursive call is the only use a branch makes of [rec], and only
    when [shouldRecurse] holds. *)
Lemma branchBody_ext (rec1 rec2 : Params → Run ResearchResult)
  (p : Params) (q : string) (sq : NodeQuery) :
  (∀ sr, shouldRecurse (p_currentDepth p + 1) (p_maxDepth p) sr = true →
         rec1 (deeperParams p sq sr) = rec2 (deeperParams p sq sr)) →
  branchBody E rec1 p q sq = branchBody E rec2 p q sq.
Proof.
  intros Hrec. unfold branchBody.
  destruct (processed E p q sq) as [t [sr| |]]; [|done|done].
  unfold mbind, Run_bind. simpl.
  destruct (shouldRecurse _ _ sr) eqn:Hsr; [|done].
  by rewrite (Hrec sr Hsr).
Qed.

Lemma researchBranch_ext (rec1 rec2 : Params → Run ResearchResult)
  (p : Params) (sq : NodeQuery) :
  (∀ sr, shouldRecurse (p_currentDepth p + 1) (p_maxDepth p) sr = true →
         rec1 (deeperParams p sq sr) = rec2 (deeperParams p sq sr)) →
  researchBranch E rec1 p sq = researchBranch E rec2 p sq.
Proof.
  intros Hrec. unfold researchBranch.
  destruct (truthy (query sq)) as [q|]; [|done].
  by rewrite (branchBody_ext rec1 rec2 p q sq Hrec).
Qed.

Lemma deepResearchBody_ext (rec1 rec2 : Params → Run ResearchResult)
  (p : Params) :
  (∀ sq sr, shouldRecurse (p_currentDepth p + 1) (p_maxDepth p) sr = true →
            rec1 (deeperParams p sq sr) = rec2 (deeperParams p sq sr)) →
  deepResearchBody E rec1 p = deepResearchBody E rec2 p.
Proof.
  intros Hrec. unfold deepResearchBody, nodeBody.
  destruct (querySource E p) as [tq [sqs| |]]; [|done|done].
  unfold mbind at 1 3, Run_bind. simpl.
  assert (map (researchBranch E rec1 p) sqs = map (researchBranch E rec2 p) sqs)
    as ->; [|done].
  apply map_ext. intros sq. apply researchBranch_ext. auto.
Qed.

(** With enough fuel the result does not depend on the fuel. *)
Lemma deepResearchFuel_enough (n : nat) (p : Params) :
  (levelsLeft p < n)%nat → deepResearchFuel E n p = deepResearch E p.
Proof.
  unfold deepResearch. revert p.
  induction n as [|n IH]; intros p Hn; [lia|].
  simpl. apply deepResearchBody_ext. intros sq sr Hsr.
  pose proof (levelsLeft_deeper p sq sr Hsr) as Hl.
  rewrite IH by lia. by rewrite Hl.
Qed.

(** The equation of the source: a call is its body, with the recursive
    calls being calls of [deepResearch] itself. *)
Lemma deepResearch_unfold (p : Params) :
  deepResearch E p = deepResearchBody E (deepResearch E) p.
Proof.
  unfold deepResearch at 1. simpl. apply deepResearchBody_ext.
  intros sq sr Hsr. apply deepResearchFuel_enough.
  rewrite (levelsLeft_deeper p sq sr Hsr). lia.
Qed.

(** Induction along the recursive calls. *)
Lemma deepResearch_ind (P : Params → Run ResearchResult → Prop) :
  (∀ rec p,
     (∀ sq sr, shouldRecurse (p_currentDepth p + 1) (p_maxDepth p) sr = true →
               P (deeperParams p sq sr) (rec (deeperParams p sq sr))) →
     P p (deepResearchBody E rec p)) →
  ∀ p, P p (deepResearch E p).
Proof.
  intros Hbody.
  assert (∀ n p, (levelsLeft p < n)%nat → P p (deepResearchFuel E n p)) as H.
  { induction n as [|n IH]; intros p Hn; [lia|].
    simpl. apply Hbody. intros sq sr Hsr. apply IH.
    rewrite (levelsLeft_deeper p sq sr Hsr) in Hn. lia. }
  intros p. apply H. lia.
Qed.

End Recursion.

(** ** Computations and their traces *)

Lemma flat_bind {A B} (m : Run A) (k : A → Run B) :
  flat (m ≫= k).1
  = flat m.1 ++ match m.2 with Returned a => flat (k a).1 | _ => [] end.
Proof.
  destruct m as [t [a| |]]; unfold mbind, Run_bind; simpl;
    by rewrite ?app_nil_r.
Qed.

Lemma outcome_bind {A B} (m : Run A) (k : A → Run B) :
  (m ≫= k).2
  = match m.2 with
    | Returned a => (k a).2
    | Threw e => Threw e
    | OutOfFuel => OutOfFuel
    end.
Proof. by destruct m as [t [a| |]]. Qed.

Lemma bind_Returned {A B} (m : Run A) (k : A → Run B) (t : trace) (b : B) :
  m ≫= k = (t, Returned b) →
  ∃ t1 a t2, m = (t1, Returned a) ∧ k a = (t2, Returned b) ∧ t = Then t1 t2.
Proof.
  destruct m as [t1 [a| |]]; unfold mbind, Run_bind; [|done|done].
  destruct (k a) as [t2 o] eqn:Hk. simpl. intros [= <- ->].
  by exists t1, a, t2.
Qed.

Lemma flat_forEach {A} (xs : list A) (f : A → ResearchStep) :
  flat (forEach xs (fun x => onProgress (f x))).1
  = map (fun x => Progress (f x)) xs.
Proof.
  induction xs as [|x xs IH]; cbn [forEach]; [done|].
  rewrite flat_bind. simpl. by rewrite IH.
Qed.

Lemma runs_ret {A} Q (a : A) : runs Q (mret a).
Proof. split; [constructor|done]. Qed.

Lemma runs_throw {A} Q (e : thrown) : runs Q (@throw A e).
Proof. split; [constructor|done]. Qed.

Lemma runs_onProgress (Q : action → bool) (s : ResearchStep) :
  Q (Progress s) = true → runs Q (onProgress s).
Proof. intros H. split; [by repeat constructor|done]. Qed.

Lemma runs_bind {A B} Q (m : Run A) (k : A → Run B) :
  runs Q m → (∀ a, runs Q (k a)) → runs Q (m ≫= k).
Proof.
  intros [Hm1 Hm2] Hk. split.
  - rewrite flat_bind. apply Forall_app. split; [done|].
    destruct m.2; [apply Hk|constructor|constructor].
  - rewrite outcome_bind. destruct m.2; [apply Hk|done|done].
Qed.

Lemma runs_forEach {A} Q (xs : list A) (f : A → Run unit) :
  (∀ x, runs Q (f x)) → runs Q (forEach xs f).
Proof.
  intros Hf. induction xs as [|x xs IH]; cbn [forEach].
  - apply runs_ret.
  - apply runs_bind; [apply Hf|done].
Qed.

Lemma runs_weaken {A} (Q1 Q2 : action → bool) (m : Run A) :
  (∀ a, Q1 a = true → Q2 a = true) → runs Q1 m → runs Q2 m.
Proof.
  intros HQ [H1 H2]. split; [|done].
  eapply Forall_impl; [exact H1|]. auto.
Qed.

Lemma branchAction_quiet (nid : string) (a : action) :
  branchAction nid a = true → quiet a = true.
Proof. by destruct a as [[]| | | |]. Qed.

Lemma quiet_completions (l : list action) :
  Forall (fun a => quiet a = true) l → completions l = [].
Proof.
  unfold completions. induction 1 as [|a l Ha _ IH]; [done|].
  by destruct a as [[]| | | |].
Qed.

Lemma quiet_count (l : list action) :
  Forall (fun a => quiet a = true) l →
  countAction CapInc l = 0%nat ∧ countAction CapDec l = 0%nat.
Proof.
  unfold countAction. induction 1 as [|a l Ha _ [IH1 IH2]]; [done|].
  destruct a as [[]| | | |]; try done;
    by rewrite !filter_cons_False by done.
Qed.

Lemma completions_app (l1 l2 : list action) :
  completions (l1 ++ l2) = completions l1 ++ completions l2.
Proof. apply omap_app. Qed.

Lemma completions_cons (a : action) (l : list action) :
  completions (a :: l)
  = match a with
    | Progress (complete ls) => ls :: completions l
    | _ => completions l
    end.
Proof. by destruct a as [[]| | | |]. Qed.

Lemma flat_unitTrace {A} (u : Run A) : flat (unitTrace u) = flat u.1.
Proof. unfold unitTrace. by destruct u.2. Qed.

Lemma flat_promiseAll {A} (units : list (Run A)) :
  flat (promiseAll units).1 = concat (map (fun u => flat u.1) units).
Proof.
  unfold promiseAll. simpl.
  induction units as [|u units IH]; simpl; [done|].
  by rewrite IH, flat_unitTrace.
Qed.

(** When no unit is out of fuel, all return or one throws. *)
Lemma allReturned_settles {A} (os : list (outcome A)) :
  Forall (fun o => o ≠ OutOfFuel) os →
  (∃ l, map Returned l = os ∧ allReturned os = Returned l) ∨
  (∃ e, Threw e ∈ os ∧ allReturned os = Threw e).
Proof.
  induction 1 as [|o os Ho _ [(l & Hl & IH)|(e & He & IH)]]; simpl.
  - left. by exists [].
  - destruct o as [a|e|]; [|right|done].
    + left. exists (a :: l). simpl. by rewrite Hl, IH.
    + exists e. split; [left|done].
  - destruct o as [a|e'|]; [|right|done].
    + right. exists e. rewrite IH. split; [by right|done].
    + exists e'. split; [left|done].
Qed.

Lemma allReturned_Returned {A} (os : list (outcome A)) :
  Forall (fun o => ∃ a, o = Returned a) os →
  ∃ l, allReturned os = Returned l ∧ map Returned l = os.
Proof.
  induction 1 as [|o os [a ->] _ (l & IH & Hl)]; simpl.
  - by exists [].
  - rewrite IH. exists (a :: l). simpl. by rewrite Hl.
Qed.

Section Steps.

Context (E : Env).

Lemma consumeQueries_runs (nodeId0 : string) cs fail sqs :
  runs quiet (consumeQueries E nodeId0 cs fail sqs).
Proof.
  revert sqs. induction cs as [|[v|delta|msg|] cs IH]; intros sqs;
    cbn [consumeQueries].
  - destruct fail; [apply runs_throw|apply runs_ret].
  - destruct (queries v); [|done].
    apply runs_bind; [|done].
    apply runs_forEach. intros q. by apply runs_onProgress.
  - apply runs_bind; [by apply runs_onProgress|done].
  - apply runs_bind; [by apply runs_onProgress|intros; apply runs_ret].
  - apply runs_bind; [by apply runs_onProgress|intros; apply runs_ret].
Qed.

Lemma querySource_runs (p : Params) : runs quiet (querySource E p).
Proof.
  unfold querySource. destruct (nonRootRetry p); [apply runs_ret|].
  apply runs_bind; [apply consumeQueries_runs|]. intros sqs.
  apply runs_bind; [by apply runs_onProgress|]. intros _.
  apply runs_bind; [|intros; apply runs_ret].
  apply runs_forEach. intros q. by apply runs_onProgress.
Qed.

(** No child query carries the root id. *)
Lemma settleQueries_not_root (nodeId0 : string) qs :
  Forall (fun sq => nodeId sq ≠ "0") (settleQueries nodeId0 qs).
Proof.
  apply Forall_lookup. intros i c Hc.
  rewrite (settleQueries_nodeId _ _ _ _ Hc). apply childNodeId_not_root.
Qed.

Lemma consumeQueries_not_root (nodeId0 : string) cs fail sqs t sqs' :
  Forall (fun sq => nodeId sq ≠ "0") sqs →
  consumeQueries E nodeId0 cs fail sqs = (t, Returned sqs') →
  Forall (fun sq => nodeId sq ≠ "0") sqs'.
Proof.
  revert sqs t. induction cs as [|[v|delta|msg|] cs IH]; intros sqs t Hsqs;
    cbn [consumeQueries].
  - destruct fail; [done|]. by intros [= _ <-].
  - destruct (queries v) as [qs|]; [|by apply IH].
    intros (t1 & [] & t2 & _ & Hrest & _)%bind_Returned.
    eapply IH; [|exact Hrest]. apply settleQueries_not_root.
  - intros (t1 & [] & t2 & _ & Hrest & _)%bind_Returned. by eapply IH.
  - intros (t1 & [] & t2 & _ & [= _ <-] & _)%bind_Returned. done.
  - intros (t1 & [] & t2 & _ & [= _ <-] & _)%bind_Returned. done.
Qed.

Lemma forEach_outcome {A} (xs : list A) (f : A → ResearchStep) :
  (forEach xs (fun x => onProgress (f x))).2 = Returned tt.
Proof.
  induction xs as [|x xs IH]; cbn [forEach]; [done|]. by rewrite outcome_bind.
Qed.

Lemma querySource_not_root (p : Params) t sqs :
  querySource E p = (t, Returned sqs) →
  Forall (fun sq => nodeId sq ≠ "0") sqs.
Proof.
  unfold querySource, nonRootRetry.
  assert (∀ st nodeId0,
    (searchQueries ← consumeQueries E nodeId0 (chunks st) (failure st) [];
     onProgress (node_complete None nodeId0) ;;
     forEach searchQueries
       (fun q => onProgress (generated_query (query q) q (nodeId q))) ;;
     mret searchQueries) = (t, Returned sqs) →
    Forall (fun sq => nodeId sq ≠ "0") sqs) as Hgen.
  { intros st nodeId0 (t1 & sqs' & t2 & Hc & Hk & _)%bind_Returned.
    apply bind_Returned in Hk as (? & [] & ? & _ & Hk & _).
    apply bind_Returned in Hk as (? & [] & ? & _ & [= _ <-] & _).
    eapply consumeQueries_not_root; [|exact Hc]. done. }
  destruct (p_retryNode p) as [r|]; [|apply Hgen].
  case_decide as Hr; [|apply Hgen].
  intros [= _ <-]. by repeat constructor.
Qed.

Lemma consumeProcessed_runs (q nodeId0 : string) cs fail sr :
  runs (branchAction nodeId0) (consumeProcessed E q nodeId0 cs fail sr).
Proof.
  revert sr. induction cs as [|[v|delta|msg|] cs IH]; intros sr;
    cbn [consumeProcessed].
  - destruct fail; [apply runs_throw|apply runs_ret].
  - apply runs_bind; [|done]. apply runs_onProgress. simpl.
    by apply bool_decide_eq_true.
  - apply runs_bind; [|done]. apply runs_onProgress. simpl.
    by apply bool_decide_eq_true.
  - apply runs_bind; [|intros; apply runs_ret]. apply runs_onProgress. simpl.
    by apply bool_decide_eq_true.
  - apply runs_bind; [|intros; apply runs_ret]. apply runs_onProgress. simpl.
    by apply bool_decide_eq_true.
Qed.

Lemma processed_runs (p : Params) (q : string) (sq : NodeQuery) :
  runs (branchAction (nodeId sq)) (processed E p q sq).
Proof.
  unfold processed. apply runs_bind.
  { unfold search. destruct (useWebSearch E q _); [apply runs_ret|apply runs_throw]. }
  intros results. apply runs_bind.
  { apply runs_onProgress. simpl. by apply bool_decide_eq_true. }
  intros _. apply runs_bind; [apply consumeProcessed_runs|].
  intros sr. apply runs_ret.
Qed.

End Steps.

(** ** Branches *)

(** Closes goals stating that listed actions are a branch's own. *)
Ltac forall_actions :=
  repeat match goal with
    | |- Forall _ [] => constructor
    | |- Forall _ (_ :: _) => constructor
    | |- Forall _ (_ ++ _) => apply Forall_app; split
    | |- Forall _ (flat _) => assumption
    | |- branchAction _ _ = true => simpl; by rewrite ?bool_decide_eq_true_2
    end.

Section Branches.

Context (E : Env).

Lemma recursionOf_Some (p : Params) (sq : NodeQuery) sr :
  recursionOf E p sq = Some sr ↔
  ∃ q t, truthy (query sq) = Some q ∧ processed E p q sq = (t, Returned sr) ∧
         shouldRecurse (p_currentDepth p + 1) (p_maxDepth p) sr = true.
Proof.
  unfold recursionOf. split.
  - destruct (truthy (query sq)) as [q|]; [|done].
    destruct (processed E p q sq) as [t [sr'| |]] eqn:Hp; simpl; [|done|done].
    destruct (shouldRecurse _ _ sr') eqn:Hsr; [|done].
    intros [= <-]. by exists q, t.
  - intros (q & t & -> & -> & Hsr). simpl. by rewrite Hsr.
Qed.

(** The inner [catch] acts for its own node only, and settles. *)
Lemma branchHandler_runs (sq : NodeQuery) (e : thrown) :
  runs (branchAction (nodeId sq)) (branchHandler E sq e).
Proof.
  destruct e as [v|m]; [apply runs_throw|].
  apply runs_bind; [|intros; apply runs_ret].
  apply runs_onProgress. simpl. by apply bool_decide_eq_true.
Qed.

(** A branch that does not decide to go deeper makes no recursive call. *)
Lemma researchBranch_leaf (p : Params) (sq : NodeQuery) :
  recursionOf E p sq = None →
  makesNoCall (nodeId sq) (fun rec => researchBranch E rec p sq).
Proof.
  unfold recursionOf, makesNoCall, researchBranch, branchBody.
  destruct (truthy (query sq)) as [q|].
  - pose proof (processed_runs E p q sq) as [Hall Hfuel].
    destruct (processed E p q sq) as [tp [sr|e|]]; simpl in *; [| |done].
    + destruct (shouldRecurse _ _ sr) eqn:Hsr; [done|]. intros _.
      eexists _, _. split; [intros rec; reflexivity|]. split; [done|].
      simpl. forall_actions.
    + intros _. pose proof (branchHandler_runs sq e) as [Hh Hfuel'].
      destruct (branchHandler E sq e) as [th oh]. simpl in *.
      eexists _, _. split; [intros rec; reflexivity|]. split; [done|].
      simpl. forall_actions.
  - intros _. eexists _, _. split; [intros rec; reflexivity|]. split; [done|].
    simpl. forall_actions.
Qed.

(** A branch that decides to go deeper on [sr] makes the recursive call
    between the two adjustments of the capacity, and yields what the call
    returns; what the call throws goes to the inner [catch]. *)
Lemma researchBranch_deeper (p : Params) (sq : NodeQuery) sr :
  recursionOf E p sq = Some sr →
  makesCall (nodeId sq) (fun rec => researchBranch E rec p sq)
            (deeperParams p sq sr) ∧
  ∀ rec, (researchBranch E rec p sq).2
         = match (rec (deeperParams p sq sr)).2 with
           | Returned r => Returned r
           | Threw e => (branchHandler E sq e).2
           | OutOfFuel => OutOfFuel
           end.
Proof.
  intros (q & tp & Hq & Hp & Hsr)%recursionOf_Some.
  pose proof (processed_runs E p q sq) as [Hall _]. rewrite Hp in Hall.
  unfold makesCall, researchBranch, branchBody. rewrite Hq, Hp.
  unfold mbind, Run_bind. simpl. rewrite Hsr. simpl.
  split; intros rec; destruct (rec (deeperParams p sq sr)) as [tr [r|e|]];
    simpl; try done.
  all: try (pose proof (branchHandler_runs sq e) as [Hh _];
            destruct (branchHandler E sq e) as [th oh]; simpl in * ).
  all: eexists (Admit (nodeId sq) :: Progress (searching q (nodeId sq)) ::
                flat tp ++ [Progress (node_complete _ (nodeId sq))]), _.
  all: split; [rewrite <- ?app_assoc; simpl; rewrite <- ?app_assoc; simpl;
               reflexivity|].
  all: split; forall_actions.
Qed.

(** A branch settles when its recursive call does. *)
Lemma researchBranch_settles (rec : Params → Run ResearchResult)
  (p : Params) (sq : NodeQuery) :
  (∀ sr, shouldRecurse (p_currentDepth p + 1) (p_maxDepth p) sr = true →
         (rec (deeperParams p sq sr)).2 ≠ OutOfFuel) →
  (researchBranch E rec p sq).2 ≠ OutOfFuel.
Proof.
  intros Hrec. destruct (recursionOf E p sq) as [sr|] eqn:Hsr.
  - destruct (researchBranch_deeper p sq sr Hsr) as [_ Ho]. rewrite Ho.
    apply recursionOf_Some in Hsr as (q & t & _ & _ & Hsr).
    specialize (Hrec sr Hsr).
    destruct (rec (deeperParams p sq sr)).2 as [r|e|]; [done| |done].
    apply branchHandler_runs.
  - destruct (researchBranch_leaf p sq Hsr) as (t & o & Hb & Ho & _).
    by rewrite Hb.
Qed.

(** How a branch settles: as the inner [try] block does when that
    returns, and as the inner [catch] does when it throws. *)
Lemma researchBranch_outcome (rec : Params → Run ResearchResult)
  (p : Params) (sq : NodeQuery) (q : string) :
  truthy (query sq) = Some q →
  (researchBranch E rec p sq).2
  = match (branchBody E rec p q sq).2 with
    | Threw e => (branchHandler E sq e).2
    | settled => settled
    end.
Proof.
  intros Hq. unfold researchBranch. rewrite Hq.
  destruct (branchBody E rec p q sq) as [t [r|e|]]; try done.
Qed.

(** A branch only rejects with the [TypeError] of its [catch] block, when
    what it caught was [null] or [undefined]. *)
Lemma researchBranch_threw (rec : Params → Run ResearchResult)
  (p : Params) (sq : NodeQuery) (e : thrown) :
  (researchBranch E rec p sq).2 = Threw e ↔
  ∃ q v, truthy (query sq) = Some q ∧
         (branchBody E rec p q sq).2 = Threw (Nullish v) ∧
         e = typeError E v.
Proof.
  split.
  - destruct (truthy (query sq)) as [q|] eqn:Hq.
    + rewrite (researchBranch_outcome rec p sq q Hq).
      destruct (branchBody E rec p q sq).2 as [r|[v|m]|] eqn:Hb; try done.
      intros [= <-]. by exists q, v.
    + unfold researchBranch. by rewrite Hq.
  - intros (q & v & Hq & Hb & ->).
    by rewrite (researchBranch_outcome rec p sq q Hq), Hb.
Qed.

End Branches.

(** ** One call *)

Lemma allReturned_map {A} (l : list A) : allReturned (map Returned l) = Returned l.
Proof. induction l as [|a l IH]; simpl; [done|]. by rewrite IH. Qed.

Lemma map_Returned_exists {A B} (f : A → outcome B) (l : list A) :
  (∀ x, x ∈ l → ∃ b, f x = Returned b) → ∃ bs, map f l = map Returned bs.
Proof.
  induction l as [|x l IH]; intros H.
  - by exists [].
  - destruct (H x) as [b Hb]; [left|].
    destruct IH as [bs Hbs]; [intros y Hy; apply H; by right|].
    exists (b :: bs). simpl. by rewrite Hb, Hbs.
Qed.


Lemma completions_concat_nil {A} (f : A → list action) (l : list A) :
  (∀ x, x ∈ l → completions (f x) = []) → completions (concat (map f l)) = [].
Proof.
  induction l as [|x l IH]; intros H; simpl; [done|].
  rewrite completions_app, H, IH; [done| |left].
  intros y Hy. apply H. by right.
Qed.

Lemma countAction_concat {A} (f : A → list action) (l : list A) :
  (∀ x, x ∈ l → countAction CapInc (f x) = countAction CapDec (f x)) →
  countAction CapInc (concat (map f l)) = countAction CapDec (concat (map f l)).
Proof.
  induction l as [|x l IH]; intros H; simpl; [done|].
  rewrite !countAction_app, H, IH; [done| |left].
  intros y Hy. apply H. by right.
Qed.

Section Node.

Context (E : Env).

(** The outer [catch]: query generation threw. *)
Lemma deepResearchBody_threw (rec : Params → Run ResearchResult) (p : Params)
  (tq : trace) (e : thrown) :
  querySource E p = (tq, Threw e) →
  deepResearchBody E rec p
  = (Then tq (Then (Act (Progress
                           (error (Some (default "Something went wrong" (message e)))
                                  (effectiveNodeId p)))) Done),
     Returned (mkResult [])).
Proof.
  intros Hq. unfold deepResearchBody, nodeBody. by rewrite Hq.
Qed.

(** The normal path: the child queries [sqs] were obtained and the
    branches returned [rs]. *)
Lemma nodeBody_returned (rec : Params → Run ResearchResult)
  (p : Params) (tq : trace) (sqs : list NodeQuery) (rs : list ResearchResult) :
  querySource E p = (tq, Returned sqs) →
  map (fun sq => (researchBranch E rec p sq).2) sqs = map Returned rs →
  nodeBody E rec p
  = (Then tq
       (Then (promiseAll (map (researchBranch E rec p) sqs)).1
          (Then (if decide (effectiveNodeId p = "0")
                 then Act (Progress (complete (dedupe rs))) else Done)
             Done)),
     Returned (mkResult (dedupe rs))).
Proof.
  intros Hq Hrs.
  destruct (promiseAll (map (researchBranch E rec p) sqs)) as [tb ob] eqn:Hall.
  assert (ob = Returned rs) as ->.
  { apply (f_equal snd) in Hall. simpl in Hall.
    rewrite map_map, Hrs, allReturned_map in Hall. done. }
  unfold nodeBody. rewrite Hq.
  unfold mbind at 1, Run_bind at 1. cbn beta iota. rewrite Hall.
  by case_decide.
Qed.

Lemma deepResearchBody_returned (rec : Params → Run ResearchResult)
  (p : Params) (tq : trace) (sqs : list NodeQuery) (rs : list ResearchResult) :
  querySource E p = (tq, Returned sqs) →
  map (fun sq => (researchBranch E rec p sq).2) sqs = map Returned rs →
  (deepResearchBody E rec p).2 = Returned (mkResult (dedupe rs)) ∧
  flat (deepResearchBody E rec p).1
  = flat tq ++ concat (map (fun sq => flat (researchBranch E rec p sq).1) sqs)
    ++ (if decide (effectiveNodeId p = "0")
        then [Progress (complete (dedupe rs))] else []).
Proof.
  intros Hq Hrs. unfold deepResearchBody.
  rewrite (nodeBody_returned rec p tq sqs rs Hq Hrs).
  split; [done|]. cbn [tryCatch fst flat].
  rewrite flat_promiseAll, map_map.
  case_decide; simpl; by rewrite ?app_nil_r.
Qed.

Lemma effectiveNodeId_deeper (p : Params) (sq : NodeQuery) sr :
  effectiveNodeId (deeperParams p sq sr) = nodeId sq.
Proof. reflexivity. Qed.

(** A branch rejected: [Promise.all] rejects with [e] and the outer
    [catch] answers. *)
Lemma deepResearchBody_rejected (rec : Params → Run ResearchResult)
  (p : Params) (tq : trace) (sqs : list NodeQuery) (e : thrown) :
  querySource E p = (tq, Returned sqs) →
  allReturned (map (fun sq => (researchBranch E rec p sq).2) sqs) = Threw e →
  deepResearchBody E rec p
  = (Then (Then tq (promiseAll (map (researchBranch E rec p) sqs)).1)
       (Then (Act (Progress
                     (error (Some (default "Something went wrong" (message e)))
                            (effectiveNodeId p)))) Done),
     Returned (mkResult [])).
Proof.
  intros Hq He.
  destruct (promiseAll (map (researchBranch E rec p) sqs)) as [tb ob] eqn:Hall.
  assert (ob = Threw e) as ->.
  { apply (f_equal snd) in Hall. simpl in Hall.
    by rewrite map_map, He in Hall. }
  unfold deepResearchBody, nodeBody. rewrite Hq.
  unfold mbind at 1, Run_bind at 1. cbn beta iota. by rewrite Hall.
Qed.

Lemma researchBranch_wellBehaved (rec : Params → Run ResearchResult)
  (p : Params) (sq : NodeQuery) :
  nodeId sq ≠ "0" →
  (∀ sr, shouldRecurse (p_currentDepth p + 1) (p_maxDepth p) sr = true →
         wellBehaved (deeperParams p sq sr) (rec (deeperParams p sq sr))) →
  (researchBranch E rec p sq).2 ≠ OutOfFuel ∧
  countAction CapInc (flat (researchBranch E rec p sq).1)
  = countAction CapDec (flat (researchBranch E rec p sq).1) ∧
  completions (flat (researchBranch E rec p sq).1) = [].
Proof.
  intros Hnid Hrec. split.
  { apply researchBranch_settles. intros sr Hsr.
    destruct (Hrec sr Hsr) as ([r ->] & _). done. }
  destruct (recursionOf E p sq) as [sr|] eqn:Hsr.
  - destruct (researchBranch_deeper E p sq sr Hsr) as [Hcall Ho].
    destruct (Hcall rec) as (pre & post & Hflat & Hpre & Hpost).
    apply recursionOf_Some in Hsr as (q & t & _ & _ & Hsr).
    destruct (Hrec sr Hsr) as ([r Hr] & Hcount & Hcompl).
    rewrite effectiveNodeId_deeper in Hcompl. specialize (Hcompl Hnid).
    assert (Forall (fun a => quiet a = true) pre) as Hqpre
      by (eapply Forall_impl; [exact Hpre|apply branchAction_quiet]).
    assert (Forall (fun a => quiet a = true) post) as Hqpost
      by (eapply Forall_impl; [exact Hpost|apply branchAction_quiet]).
    split.
    + rewrite Hflat.
      rewrite !countAction_app, !countAction_cons, !countAction_app,
        !countAction_cons.
      destruct (quiet_count _ Hqpre) as [-> ->].
      destruct (quiet_count _ Hqpost) as [-> ->].
      rewrite Hcount. repeat case_decide; try done. lia.
    + rewrite Hflat.
      rewrite completions_app, completions_cons, completions_app,
        completions_cons.
      by rewrite Hcompl, !quiet_completions.
  - destruct (researchBranch_leaf E p sq Hsr) as (t & o & Hb & _ & Hown).
    rewrite Hb. simpl.
    assert (Forall (fun a => quiet a = true) (flat t)) as Hq
      by (eapply Forall_impl; [exact Hown|apply branchAction_quiet]).
    destruct (quiet_count _ Hq) as [-> ->].
    split; [done|by apply quiet_completions].
Qed.

(** The two ways the branches of a call settle: all return, or
    [Promise.all] rejects. *)
Lemma branches_settle (rec : Params → Run ResearchResult) (p : Params)
  (sqs : list NodeQuery) :
  (∀ sq, sq ∈ sqs → (researchBranch E rec p sq).2 ≠ OutOfFuel) →
  (∃ rs, map (fun sq => (researchBranch E rec p sq).2) sqs = map Returned rs) ∨
  (∃ e, allReturned (map (fun sq => (researchBranch E rec p sq).2) sqs)
        = Threw e).
Proof.
  intros Hsettle.
  destruct (allReturned_settles
              (map (fun sq => (researchBranch E rec p sq).2) sqs))
    as [(rs & Hrs & _)|(e & _ & He)].
  - apply Forall_fmap, Forall_forall. intros sq Hsq. by apply Hsettle.
  - left. by exists rs.
  - right. by exists e.
Qed.

Lemma deepResearchBody_wellBehaved (rec : Params → Run ResearchResult)
  (p : Params) :
  (∀ sq sr, shouldRecurse (p_currentDepth p + 1) (p_maxDepth p) sr = true →
            wellBehaved (deeperParams p sq sr) (rec (deeperParams p sq sr))) →
  wellBehaved p (deepResearchBody E rec p).
Proof.
  intros Hrec. pose proof (querySource_runs E p) as [Hquiet Hfuel].
  destruct (querySource E p) as [tq [sqs|e|]] eqn:Hq; simpl in *; [| |done].
  - pose proof (querySource_not_root E p tq sqs Hq) as Hnids.
    rewrite Forall_forall in Hnids.
    assert (∀ sq, sq ∈ sqs →
      (researchBranch E rec p sq).2 ≠ OutOfFuel ∧
      countAction CapInc (flat (researchBranch E rec p sq).1)
      = countAction CapDec (flat (researchBranch E rec p sq).1) ∧
      completions (flat (researchBranch E rec p sq).1) = []) as Hbranch.
    { intros sq Hsq. apply researchBranch_wellBehaved; [by apply Hnids|].
      intros sr. apply Hrec. }
    assert (countAction CapInc
              (concat (map (fun sq => flat (researchBranch E rec p sq).1) sqs))
            = countAction CapDec
                (concat (map (fun sq => flat (researchBranch E rec p sq).1) sqs)))
      as Hcount by (apply countAction_concat; intros sq Hsq; by apply Hbranch).
    assert (completions
              (concat (map (fun sq => flat (researchBranch E rec p sq).1) sqs))
            = []) as Hcompl
      by (apply completions_concat_nil; intros sq Hsq; by apply Hbranch).
    destruct (branches_settle rec p sqs) as [[rs Hrs]|[e He]];
      [intros sq Hsq; by apply Hbranch| |].
    + destruct (deepResearchBody_returned rec p tq sqs rs Hq Hrs) as [Ho Hflat].
      split_and!.
      * eauto.
      * rewrite Hflat, !countAction_app.
        destruct (quiet_count _ Hquiet) as [-> ->].
        rewrite Hcount. by case_decide.
      * intros Hnid. rewrite Hflat, !completions_app.
        rewrite (quiet_completions _ Hquiet), Hcompl.
        by case_decide.
    + rewrite (deepResearchBody_rejected rec p tq sqs e Hq He).
      unfold wellBehaved. cbn [fst snd flat].
      rewrite flat_promiseAll, map_map.
      split_and!.
      * eauto.
      * rewrite !countAction_app.
        destruct (quiet_count _ Hquiet) as [-> ->].
        by rewrite Hcount.
      * intros _.
        by rewrite !completions_app, (quiet_completions _ Hquiet), Hcompl.
  - rewrite (deepResearchBody_threw rec p tq e Hq).
    unfold wellBehaved. cbn [fst snd flat].
    split_and!.
    + eauto.
    + rewrite !countAction_app.
      by destruct (quiet_count _ Hquiet) as [-> ->].
    + intros _. by rewrite !completions_app, (quiet_completions _ Hquiet).
Qed.

(** Every call of [deepResearch] is well behaved. *)
Lemma deepResearch_wellBehaved (p : Params) : wellBehaved p (deepResearch E p).
Proof.
  revert p. apply deepResearch_ind. apply deepResearchBody_wellBehaved.
Qed.

(** A call always returns: what its branches throw ends in the outer
    [catch]. *)
Lemma deepResearch_returns (p : Params) :
  ∃ t r, deepResearch E p = (t, Returned r).
Proof.
  destruct (deepResearch_wellBehaved p) as ([r Hr] & _).
  exists (deepResearch E p).1, r. rewrite <- Hr. apply surjective_pairing.
Qed.

(** In a call of [deepResearch], every branch settles. *)
Lemma deepResearch_branches (p : Params) (sq : NodeQuery) :
  (researchBranch E (deepResearch E) p sq).2 ≠ OutOfFuel.
Proof.
  apply researchBranch_settles. intros sr _.
  destruct (deepResearch_returns (deeperParams p sq sr)) as (t & r & ->). done.
Qed.

End Node.

(** ** Calls of [deepResearch] *)

Section Calls.

Context (E : Env).

(** The three ways a call ends: query generation threw and the outer
    [catch] answered; the branches ran and their results were aggregated;
    or a branch rejected and the outer [catch] answered. *)
Lemma deepResearch_cases (p : Params) :
  (∃ tq e,
     querySource E p = (tq, Threw e) ∧
     deepResearch E p
     = (Then tq (Then (Act (Progress
                              (error (Some (default "Something went wrong"
                                              (message e)))
                                     (effectiveNodeId p)))) Done),
        Returned (mkResult []))) ∨
  (∃ tq sqs rs,
     querySource E p = (tq, Returned sqs) ∧
     map (fun sq => (researchBranch E (deepResearch E) p sq).2) sqs
     = map Returned rs ∧
     (deepResearch E p).2 = Returned (mkResult (dedupe rs)) ∧
     flat (deepResearch E p).1
     = flat tq
       ++ concat (map (fun sq => flat (researchBranch E (deepResearch E) p sq).1) sqs)
       ++ (if decide (effectiveNodeId p = "0")
           then [Progress (complete (dedupe rs))] else [])) ∨
  (∃ tq sqs e,
     querySource E p = (tq, Returned sqs) ∧
     allReturned (map (fun sq => (researchBranch E (deepResearch E) p sq).2) sqs)
     = Threw e ∧
     (deepResearch E p).2 = Returned (mkResult []) ∧
     flat (deepResearch E p).1
     = flat tq
       ++ concat (map (fun sq => flat (researchBranch E (deepResearch E) p sq).1) sqs)
       ++ [Progress (error (Some (default "Something went wrong" (message e)))
                      (effectiveNodeId p))]).
Proof.
  pose proof (querySource_runs E p) as [_ Hfuel].
  rewrite deepResearch_unfold.
  destruct (querySource E p) as [tq [sqs|e|]] eqn:Hq; [| |done].
  - right.
    destruct (branches_settle E (deepResearch E) p sqs) as [[rs Hrs]|[e He]];
      [intros sq _; apply deepResearch_branches|left|right].
    + exists tq, sqs, rs. split; [done|]. split; [done|].
      by apply deepResearchBody_returned.
    + exists tq, sqs, e. split; [done|]. split; [done|].
      rewrite (deepResearchBody_rejected E (deepResearch E) p tq sqs e Hq He).
      split; [done|]. cbn [fst flat].
      by rewrite flat_promiseAll, map_map, <- app_assoc.
  - left. exists tq, e. split; [done|]. by apply deepResearchBody_threw.
Qed.

(** Whether all the branches of a call returned. *)
Lemma allReturned_map_Returned {A} (os : list (outcome A)) (l : list A) :
  os = map Returned l → ∀ e, allReturned os ≠ Threw e.
Proof. intros -> e. by rewrite allReturned_map. Qed.

(** The [complete] steps of the run that takes the branches in turn: one
    at the root when the outer [try] block gets to its end. *)
Lemma deepResearch_completions (p : Params) :
  completions (flat (deepResearch E p).1)
  = match (nodeBody E (deepResearch E) p).2 with
    | Returned r =>
        if decide (effectiveNodeId p = "0") then [resultLearnings r] else []
    | _ => []
    end.
Proof.
  pose proof (querySource_runs E p) as [Hquiet _].
  assert (∀ sqs tq, querySource E p = (tq, Returned sqs) →
    completions
      (concat (map (fun sq => flat (researchBranch E (deepResearch E) p sq).1)
                 sqs)) = []) as Hbranches.
  { intros sqs tq Hq. apply completions_concat_nil. intros sq Hsq.
    apply researchBranch_wellBehaved.
    - pose proof (querySource_not_root E p tq sqs Hq) as Hn.
      rewrite Forall_forall in Hn. by apply Hn.
    - intros sr _. apply deepResearch_wellBehaved. }
  destruct (deepResearch_cases p)
    as [(tq & e & Hq & Hd)|[(tq & sqs & rs & Hq & Hrs & Ho & Hflat)
                           |(tq & sqs & e & Hq & He & Ho & Hflat)]].
  - rewrite Hd. unfold nodeBody. rewrite Hq. cbn [fst snd flat mbind Run_bind].
    rewrite Hq in Hquiet. cbn [fst] in Hquiet.
    by rewrite !completions_app, (quiet_completions _ Hquiet).
  - rewrite Hflat, (nodeBody_returned E (deepResearch E) p tq sqs rs Hq Hrs).
    rewrite Hq in Hquiet. cbn [fst snd] in *.
    rewrite !completions_app, (quiet_completions _ Hquiet).
    rewrite (Hbranches sqs tq Hq). by case_decide.
  - rewrite Hflat. rewrite Hq in Hquiet. cbn [fst snd] in *.
    rewrite !completions_app, (quiet_completions _ Hquiet).
    rewrite (Hbranches sqs tq Hq).
    unfold nodeBody. rewrite Hq. unfold mbind at 1, Run_bind at 1.
    cbn beta iota. rewrite outcome_bind. unfold promiseAll. cbn [snd].
    by rewrite map_map, He.
Qed.

End Calls.

(** ** Announced nodes *)

Lemma length_append (s1 s2 : string) :
  String.length (s1 +:+ s2) = (String.length s1 + String.length s2)%nat.
Proof. induction s1 as [|c s1 IH]; simpl; [done|]. by rewrite IH. Qed.

Lemma childNodeId_longer (p : string) (i : Z) :
  (String.length p < String.length (childNodeId p i))%nat.
Proof. unfold childNodeId. rewrite !length_append. simpl. lia. Qed.

Lemma announcesDeeper_app (nid : string) (l1 l2 : list action) :
  announcesDeeper nid (l1 ++ l2) ↔ announcesDeeper nid l1 ∧ announcesDeeper nid l2.
Proof. apply Forall_app. Qed.

Lemma announcesDeeper_own (nid nid' : string) (l : list action) :
  Forall (fun a => branchAction nid' a = true) l → announcesDeeper nid l.
Proof.
  intros Hl. eapply Forall_impl; [exact Hl|].
  intros a Ha n Hn. by destruct a as [[]| | | |].
Qed.

Lemma announcesDeeper_le (nid nid' : string) (l : list action) :
  (String.length nid ≤ String.length nid')%nat →
  announcesDeeper nid' l → announcesDeeper nid l.
Proof.
  intros Hle Hl. eapply Forall_impl; [exact Hl|].
  intros a Ha n Hn. specialize (Ha n Hn). lia.
Qed.

Lemma announcesDeeper_concat {A} (nid : string) (f : A → list action)
  (l : list A) :
  (∀ x, x ∈ l → announcesDeeper nid (f x)) →
  announcesDeeper nid (concat (map f l)).
Proof.
  induction l as [|x l IH]; intros H; simpl; [constructor|].
  apply announcesDeeper_app. split; [apply H; left|].
  apply IH. intros y Hy. apply H. by right.
Qed.

Section Announced.

Context (E : Env).

Lemma settleQueries_longer (nodeId0 : string) qs :
  Forall (fun sq => (String.length nodeId0 < String.length (nodeId sq))%nat)
         (settleQueries nodeId0 qs).
Proof.
  apply Forall_lookup. intros i c Hc.
  rewrite (settleQueries_nodeId _ _ _ _ Hc). apply childNodeId_longer.
Qed.

Lemma forEach_announces {A} (nid : string) (xs : list A) (f : A → ResearchStep) :
  (∀ x, x ∈ xs → ∀ n, announced (Progress (f x)) = Some n →
                      (String.length nid < String.length n)%nat) →
  announcesDeeper nid (flat (forEach xs (fun x => onProgress (f x))).1).
Proof.
  induction xs as [|x xs IH]; intros H; cbn [forEach]; [constructor|].
  rewrite flat_bind. apply announcesDeeper_app. split.
  - constructor; [apply H; left|constructor].
  - simpl. apply IH. intros y Hy. apply H. by right.
Qed.

Lemma consumeQueries_announces (nodeId0 : string) cs fail sqs :
  Forall (fun sq => (String.length nodeId0 < String.length (nodeId sq))%nat) sqs →
  announcesDeeper nodeId0 (flat (consumeQueries E nodeId0 cs fail sqs).1) ∧
  ∀ sqs', (consumeQueries E nodeId0 cs fail sqs).2 = Returned sqs' →
    Forall (fun sq => (String.length nodeId0 < String.length (nodeId sq))%nat) sqs'.
Proof.
  revert sqs. induction cs as [|[v|delta|msg|] cs IH]; intros sqs Hsqs;
    cbn [consumeQueries].
  - destruct fail; (split; [constructor|]); [done|]. by intros sqs' [= <-].
  - destruct (queries v) as [qs|]; [|by apply IH].
    pose proof (settleQueries_longer nodeId0 qs) as Hqs.
    destruct (IH _ Hqs) as [IH1 IH2].
    rewrite flat_bind, outcome_bind, forEach_outcome. split; [|done].
    apply announcesDeeper_app. split; [|done].
    apply forEach_announces. intros q Hq n [= <-].
    rewrite Forall_forall in Hqs. by apply Hqs.
  - destruct (IH _ Hsqs) as [IH1 IH2].
    rewrite flat_bind, outcome_bind. simpl. split; [|done].
    constructor; [done|exact IH1].
  - rewrite flat_bind, outcome_bind. simpl. split.
    + constructor; [done|constructor].
    + by intros sqs' [= <-].
  - rewrite flat_bind, outcome_bind. simpl. split.
    + constructor; [done|constructor].
    + by intros sqs' [= <-].
Qed.

(** Query generation announces only nodes below the node of the call, and
    the child queries are those nodes, or the node itself in a retry. *)
Lemma querySource_announces (p : Params) :
  announcesDeeper (effectiveNodeId p) (flat (querySource E p).1) ∧
  ∀ sqs, (querySource E p).2 = Returned sqs →
    Forall (fun sq => (String.length (effectiveNodeId p)
                       ≤ String.length (nodeId sq))%nat) sqs.
Proof.
  unfold querySource, effectiveNodeId.
  destruct (nonRootRetry p) as [node|].
  - split; [constructor|]. intros sqs [= <-]. by repeat constructor.
  - set (nodeId0 := default "0" (p_nodeId p)).
    set (st := generateSearchQueries E _).
    destruct (consumeQueries_announces nodeId0 (chunks st) (failure st) [])
      as [Hc1 Hc2]; [constructor|].
    rewrite flat_bind, outcome_bind.
    destruct (consumeQueries E nodeId0 (chunks st) (failure st) []).2
      as [sqs'| |] eqn:Hc.
    + specialize (Hc2 sqs' eq_refl).
      rewrite flat_bind, outcome_bind. cbn [onProgress act fst snd flat].
      rewrite flat_bind, outcome_bind, forEach_outcome. simpl. split.
      * apply announcesDeeper_app. split; [done|].
        constructor; [done|]. rewrite app_nil_r.
        apply forEach_announces. intros q Hq n [= <-].
        rewrite Forall_forall in Hc2. by apply Hc2.
      * intros sqs [= <-]. eapply Forall_impl; [exact Hc2|].
        intros sq Hsq. simpl in Hsq. lia.
    + rewrite app_nil_r. by split.
    + rewrite app_nil_r. by split.
Qed.

(** Induction on the parameters along the recursive calls. *)
Lemma deeper_ind (P : Params → Prop) :
  (∀ p, (∀ sq sr, recursionOf E p sq = Some sr → P (deeperParams p sq sr)) →
        P p) →
  ∀ p, P p.
Proof.
  intros Hstep.
  assert (∀ n p, (levelsLeft p < n)%nat → P p) as H.
  { induction n as [|n IH]; intros p Hn; [lia|].
    apply Hstep. intros sq sr (q & t & _ & _ & Hsr)%recursionOf_Some.
    apply IH. rewrite (levelsLeft_deeper p sq sr Hsr) in Hn. lia. }
  intros p. apply (H (S (levelsLeft p))). lia.
Qed.

(** A call only announces nodes below its own. *)
Lemma deepResearch_announces (p : Params) :
  announcesDeeper (effectiveNodeId p) (flat (deepResearch E p).1).
Proof.
  induction p as [p IH] using deeper_ind.
  destruct (querySource_announces p) as [Hq1 Hq2].
  assert (∀ tq sqs, querySource E p = (tq, Returned sqs) →
    announcesDeeper (effectiveNodeId p)
      (concat (map (fun sq => flat (researchBranch E (deepResearch E) p sq).1)
                 sqs))) as Hbranches.
  { intros tq sqs Hq. rewrite Hq in Hq2. specialize (Hq2 sqs eq_refl).
    rewrite Forall_forall in Hq2.
    apply announcesDeeper_concat. intros sq Hsq.
    destruct (recursionOf E p sq) as [sr|] eqn:Hsr.
    + destruct (researchBranch_deeper E p sq sr Hsr) as [Hcall _].
      destruct (Hcall (deepResearch E)) as (pre & post & Hf & Hpre & Hpost).
      rewrite Hf. apply announcesDeeper_app. split.
      { by eapply announcesDeeper_own. }
      constructor; [done|]. apply announcesDeeper_app. split.
      * eapply announcesDeeper_le; [|exact (IH sq sr Hsr)].
        rewrite effectiveNodeId_deeper. by apply Hq2.
      * constructor; [done|]. by eapply announcesDeeper_own.
    + destruct (researchBranch_leaf E p sq Hsr) as (t & r & Hb & _ & Hown).
      rewrite Hb. by eapply announcesDeeper_own. }
  destruct (deepResearch_cases E p)
    as [(tq & e & Hq & Hd)|[(tq & sqs & rs & Hq & Hrs & Ho & Hflat)
                           |(tq & sqs & e & Hq & He & Ho & Hflat)]];
    rewrite Hq in Hq1; cbn [fst snd] in *.
  - rewrite Hd. cbn [fst flat]. apply announcesDeeper_app. split; [done|].
    constructor; [done|constructor].
  - rewrite Hflat. apply announcesDeeper_app. split; [done|].
    apply announcesDeeper_app. split; [|case_decide; by repeat constructor].
    by eapply Hbranches.
  - rewrite Hflat. apply announcesDeeper_app. split; [done|].
    apply announcesDeeper_app. split; [|by repeat constructor].
    by eapply Hbranches.
Qed.

End Announced.

(** ** Completion *)

(** C1, as the code has it. A call whose node is the root reports at most
    one [complete] step, in whatever order its branches run. It reports
    exactly one, carrying the learnings the call resolves to, when query
    generation returns and every branch returns. When query generation
    throws it reports none: it reports an [error] step for node [0] and
    resolves to no learnings. A call whose node is not the root, such as
    every recursive call, reports none. *)
Theorem root_completion (E : Env) (p : Params)
  (Hroot : effectiveNodeId p = "0") :
  ∃ t r,
    deepResearch E p = (t, Returned r) ∧
    (∀ l, execution l t = true → (length (completions l) ≤ 1)%nat) ∧
    (∀ tq sqs rs,
       querySource E p = (tq, Returned sqs) →
       map (fun sq => (researchBranch E (deepResearch E) p sq).2) sqs
       = map Returned rs →
       ∀ l, execution l t = true → completions l = [resultLearnings r]) ∧
    (∀ tq e,
       querySource E p = (tq, Threw e) →
       resultLearnings r = [] ∧
       ∀ l, execution l t = true →
            completions l = [] ∧
            Progress (error (Some (default "Something went wrong" (message e)))
                        "0") ∈ l) ∧
    (∀ p' l, effectiveNodeId p' ≠ "0" →
             execution l (deepResearch E p').1 = true → completions l = []).
Proof.
  destruct (deepResearch_returns E p) as (t & r & Hd).
  exists t, r. split; [done|].
  pose proof (deepResearch_completions E p) as Hc.
  rewrite Hd in Hc. cbn [fst] in Hc. split_and!.
  - intros l Hl. apply completions_execution in Hl.
    rewrite (Permutation_length Hl), Hc.
    destruct (nodeBody E (deepResearch E) p).2; [case_decide|..]; simpl; lia.
  - intros tq sqs rs Hq Hrs l Hl. apply completions_execution in Hl.
    rewrite Hc in Hl.
    rewrite (nodeBody_returned E (deepResearch E) p tq sqs rs Hq Hrs) in Hl.
    cbn [snd] in Hl. rewrite decide_True in Hl by done.
    destruct (deepResearchBody_returned E (deepResearch E) p tq sqs rs Hq Hrs)
      as [Ho _].
    rewrite <- deepResearch_unfold, Hd in Ho. injection Ho as ->.
    by apply Permutation_singleton_r in Hl.
  - intros tq e Hq.
    pose proof (deepResearchBody_threw E (deepResearch E) p tq e Hq) as Hd'.
    rewrite <- deepResearch_unfold, Hd, Hroot in Hd'.
    injection Hd' as -> ->. split; [done|]. intros l Hl. split.
    + apply completions_execution in Hl. rewrite Hc in Hl.
      unfold nodeBody in Hl. rewrite Hq in Hl.
      by apply Permutation_nil_r in Hl.
    + apply execution_flat in Hl. rewrite Hl. cbn [flat].
      apply elem_of_app. right. left.
  - intros p' l Hp' Hl. apply completions_execution in Hl.
    destruct (deepResearch_wellBehaved E p') as (_ & _ & Hc').
    rewrite (Hc' Hp') in Hl. by apply Permutation_nil_r in Hl.
Qed.

(** The root call of [Scenario.twoQueries]: in the execution
    [Scenario.slowSibling] it reports [complete] once. *)
Lemma root_completion_witness :
  effectiveNodeId Scenario.rootParams = "0" ∧
  (length (completions Scenario.slowSibling) ≤ 1)%nat.
Proof.
  split; [reflexivity|].
  destruct (root_completion Scenario.twoQueries Scenario.rootParams eq_refl)
    as (t & r & Hd & Hmost & _).
  apply Hmost. injection Hd as <- _.
  vm_compute. reflexivity.
Defined.

(** The end-to-end scenario of the specification: two queries, one
    learning each with distinct urls, no follow-up question. *)
Example end_to_end :
  (deepResearch Scenario.plain Scenario.rootParams).2
  = Returned (mkResult [mkLearning "u-a" "l" (Some "T");
                        mkLearning "u-b" "l" (Some "T")]) ∧
  countAction CapInc (flat (deepResearch Scenario.plain Scenario.rootParams).1)
  = 0%nat ∧
  completions (flat (deepResearch Scenario.plain Scenario.rootParams).1)
  = [[mkLearning "u-a" "l" (Some "T"); mkLearning "u-b" "l" (Some "T")]].
Proof. vm_compute. auto. Qed.

(** C1 fails as stated: when query generation throws, the root call
    reports an [error] step for node ["0"] and no [complete] step at all. *)
Lemma root_without_complete :
  effectiveNodeId Scenario.rootParams = "0" ∧
  (deepResearch Scenario.unauthorized Scenario.rootParams).2
  = Returned (mkResult []) ∧
  execution [Progress (error (Some "Unauthorized") "0")]
            (deepResearch Scenario.unauthorized Scenario.rootParams).1 = true ∧
  (∀ l, execution l (deepResearch Scenario.unauthorized Scenario.rootParams).1
        = true → length (completions l) ≠ 1%nat).
Proof.
  split; [reflexivity|]. split; [reflexivity|]. split; [reflexivity|].
  intros l Hl. apply completions_execution in Hl.
  change (completions l ≡ₚ []) in Hl.
  apply Permutation_nil_r in Hl. by rewrite Hl.
Qed.

(** ** Retrying a node *)

Lemma nonRootRetry_Some (p : Params) (node : DeepResearchNode) :
  p_retryNode p = Some node → rn_id node ≠ "0" → nonRootRetry p = Some node.
Proof. intros Hp Hid. unfold nonRootRetry. rewrite Hp. by rewrite decide_True. Qed.

Lemma querySource_retry (E : Env) (p : Params) (node : DeepResearchNode) :
  nonRootRetry p = Some node →
  querySource E p = (Done, Returned [retryQuery node]).
Proof. intros Hp. unfold querySource. by rewrite Hp. Qed.

Lemma branchAction_notGeneration (nid : string) (a : action) :
  branchAction nid a = true → notGeneration a = true.
Proof. by destruct a as [[]| | | |]. Qed.

(** What a retry of a node that is not the root does is what the one
    branch of its query does, followed by the outer [catch] when that
    branch rejects. *)
Lemma deepResearch_retry (E : Env) (p : Params) (node : DeepResearchNode) :
  p_retryNode p = Some node → rn_id node ≠ "0" →
  effectiveNodeId p = rn_id node ∧
  match (researchBranch E (deepResearch E) p (retryQuery node)).2 with
  | Returned rb =>
      (deepResearch E p).2 = Returned (mkResult (dedupe [rb])) ∧
      flat (deepResearch E p).1
      = flat (researchBranch E (deepResearch E) p (retryQuery node)).1
  | Threw e =>
      (deepResearch E p).2 = Returned (mkResult []) ∧
      flat (deepResearch E p).1
      = flat (researchBranch E (deepResearch E) p (retryQuery node)).1
        ++ [Progress (error (Some (default "Something went wrong" (message e)))
                        (rn_id node))]
  | OutOfFuel => False
  end.
Proof.
  intros Hp Hid. pose proof (nonRootRetry_Some p node Hp Hid) as Hretry.
  assert (effectiveNodeId p = rn_id node) as Heff
    by (unfold effectiveNodeId; by rewrite Hretry).
  split; [done|].
  destruct (deepResearch_cases E p)
    as [(tq & e & Hq & _)|[(tq & sqs & rs & Hq & Hrs & Ho & Hflat)
                          |(tq & sqs & e & Hq & He & Ho & Hflat)]];
    rewrite (querySource_retry E p node Hretry) in Hq; [done| |].
  - injection Hq as <- <-.
    destruct rs as [|rb [|? ?]]; [done| |done].
    assert ((researchBranch E (deepResearch E) p (retryQuery node)).2
            = Returned rb) as -> by (by injection Hrs).
    split; [done|].
    rewrite Hflat, Heff. rewrite decide_False by done.
    simpl. by rewrite !app_nil_r.
  - injection Hq as <- <-.
    change (allReturned
              [(researchBranch E (deepResearch E) p (retryQuery node)).2]
            = Threw e) in He.
    destruct (researchBranch E (deepResearch E) p (retryQuery node)).2
      as [rb|e'|]; [done| |done].
    injection He as ->. split; [done|].
    rewrite Hflat, Heff. simpl. by rewrite !app_nil_r.
Qed.

(** What the query loop reports: the steps of the chunks it reads, each
    for the node the call works for. *)
Lemma consumeQueries_flat (E : Env) (nodeId0 : string)
  (cs : list (chunk QueriesValue)) (fail : option thrown) (sqs : list NodeQuery) :
  flat (consumeQueries E nodeId0 cs fail sqs).1
  = concat (map (queryChunkSteps E nodeId0) (upToBreak cs)).
Proof.
  revert sqs. induction cs as [|[v|delta|msg|] cs IH]; intros sqs;
    cbn [consumeQueries upToBreak breaking map concat queryChunkSteps].
  - by destruct fail.
  - destruct (queries v) as [qs|]; [|apply IH].
    by rewrite flat_bind, forEach_outcome, flat_forEach, IH.
  - rewrite flat_bind. cbn [onProgress act fst snd flat]. by rewrite IH.
  - done.
  - done.
Qed.

(** A call that is not a retry of a node below the root starts with the
    steps of its query loop, reported for its own node. *)
Lemma deepResearch_generation (E : Env) (p : Params) :
  nonRootRetry p = None →
  ∃ rest,
    flat (deepResearch E p).1
    = concat (map (queryChunkSteps E (default "0" (p_nodeId p)))
                (upToBreak (chunks (generationOf E p)))) ++ rest.
Proof.
  intros Hnr.
  assert (∃ rest0,
    flat (querySource E p).1
    = concat (map (queryChunkSteps E (default "0" (p_nodeId p)))
                (upToBreak (chunks (generationOf E p)))) ++ rest0)
    as (rest0 & Hgen).
  { unfold querySource. rewrite Hnr. cbv zeta.
    rewrite flat_bind, consumeQueries_flat. by eexists. }
  destruct (deepResearch_cases E p)
    as [(tq & e & Hq & Hd)|[(tq & sqs & rs & Hq & _ & _ & Hflat)
                           |(tq & sqs & e & Hq & _ & _ & Hflat)]];
    rewrite Hq in Hgen; simpl in Hgen.
  - rewrite Hd. simpl. rewrite Hgen, <- app_assoc. by eexists.
  - rewrite Hflat, Hgen, <- !app_assoc. by eexists.
  - rewrite Hflat, Hgen, <- !app_assoc. by eexists.
Qed.

(** C6, as the code has it. Called with a [retryNode] whose id is not the
    root id, the call does not consult query generation at all: its only
    child query is the retried node's own, with the node's id, its label
    as query text and its research goal. In no execution is the retried
    node announced by a [generating_query] or a [generated_query] step.
    What the call does on its own, outside the recursive call that its
    branch may make, reports no query generation; when the branch makes
    no recursive call, no execution reports any. The recursive call, when
    there is one, runs under the id of the retried node and starts with
    the steps of its own query loop, which are reported for that node:
    [generating_query_reasoning] steps with the retried id as node id and
    [generating_query] steps with it as parent. *)
Theorem retry_bypasses_generation (E : Env) (p : Params)
  (node : DeepResearchNode)
  (Hretry : p_retryNode p = Some node) (Hid : rn_id node ≠ "0") :
  let sq := retryQuery node in
  query sq = Some (rn_label node) ∧
  researchGoal sq = rn_researchGoal node ∧
  nodeId sq = rn_id node ∧
  querySource E p = (Done, Returned [sq]) ∧
  (∀ E', querySource E' p = querySource E p) ∧
  (∀ l, execution l (deepResearch E p).1 = true →
        Forall (fun a => announced a ≠ Some (rn_id node)) l) ∧
  (recursionOf E p sq = None →
   ∀ l, execution l (deepResearch E p).1 = true →
        Forall (fun a => notGeneration a = true) l) ∧
  ∃ pre deeper post,
    flat (deepResearch E p).1 = pre ++ deeper ++ post ∧
    Forall (fun a => branchAction (rn_id node) a = true ∧
                     notGeneration a = true) (pre ++ post) ∧
    match recursionOf E p sq with
    | None => deeper = []
    | Some sr =>
        let p' := deeperParams p sq sr in
        effectiveNodeId p' = rn_id node ∧
        deeper = CapInc :: flat (deepResearch E p').1 ++ [CapDec] ∧
        ∃ rest,
          flat (deepResearch E p').1
          = concat (map (queryChunkSteps E (rn_id node))
                      (upToBreak (chunks (generationOf E p')))) ++ rest
    end.
Proof.
  intros sq. pose proof (nonRootRetry_Some p node Hretry Hid) as Hnr.
  destruct (deepResearch_retry E p node Hretry Hid) as (Heff & Hrun).
  fold sq in Hrun.
  assert (∃ tail,
    flat (deepResearch E p).1
    = flat (researchBranch E (deepResearch E) p sq).1 ++ tail ∧
    Forall (fun a => branchAction (rn_id node) a = true) tail)
    as (tail & Hflat & Htail).
  { destruct (researchBranch E (deepResearch E) p sq).2 as [rb|e|];
      [destruct Hrun as [_ Hf]|destruct Hrun as [_ Hf]|done].
    - exists []. rewrite app_nil_r. by split.
    - eexists. split; [exact Hf|]. constructor; [|constructor].
      simpl. by apply bool_decide_eq_true. }
  assert (∀ l, Forall (fun a => branchAction (rn_id node) a = true) l →
               Forall (fun a => branchAction (rn_id node) a = true ∧
                                notGeneration a = true) l) as Hown.
  { intros l Hl. eapply Forall_impl; [exact Hl|]. intros a Ha.
    simpl in Ha. split; [exact Ha|].
    exact (branchAction_notGeneration _ _ Ha). }
  assert (∃ pre deeper post,
    flat (deepResearch E p).1 = pre ++ deeper ++ post ∧
    Forall (fun a => branchAction (rn_id node) a = true ∧
                     notGeneration a = true) (pre ++ post) ∧
    match recursionOf E p sq with
    | None => deeper = []
    | Some sr =>
        let p' := deeperParams p sq sr in
        effectiveNodeId p' = rn_id node ∧
        deeper = CapInc :: flat (deepResearch E p').1 ++ [CapDec] ∧
        ∃ rest,
          flat (deepResearch E p').1
          = concat (map (queryChunkSteps E (rn_id node))
                      (upToBreak (chunks (generationOf E p')))) ++ rest
    end) as Hparts.
  { rewrite Hflat.
    destruct (recursionOf E p sq) as [sr|] eqn:Hsr.
    + destruct (researchBranch_deeper E p sq sr Hsr) as [Hcall _].
      destruct (Hcall (deepResearch E)) as (pre & post & Hf & Hpre & Hpost).
      exists pre, (CapInc :: flat (deepResearch E (deeperParams p sq sr)).1
                   ++ [CapDec]), (post ++ tail).
      split; [|split].
      * rewrite Hf. rewrite <- !app_assoc. simpl.
        by rewrite <- !app_assoc.
      * apply Hown. rewrite app_assoc. apply Forall_app. split; [|done].
        apply Forall_app. by split.
      * split; [done|]. split; [done|].
        exact (deepResearch_generation E (deeperParams p sq sr) eq_refl).
    + destruct (researchBranch_leaf E p sq Hsr) as (t & o & Hb & _ & Hall).
      exists (flat t), [], tail. rewrite Hb. simpl.
      split; [done|]. split; [|done].
      apply Hown, Forall_app. by split. }
  split_and!; try done.
  - by apply querySource_retry.
  - intros E'. by rewrite !(querySource_retry _ p node Hnr).
  - intros l Hl. apply execution_flat in Hl. rewrite Hl.
    pose proof (deepResearch_announces E p) as Hann. rewrite Heff in Hann.
    eapply Forall_impl; [exact Hann|].
    intros a Ha Hn. specialize (Ha _ Hn). lia.
  - intros Hnone l Hl. apply execution_flat in Hl. rewrite Hl.
    destruct Hparts as (pre & deeper & post & -> & Hall & Hdeeper).
    rewrite Hnone in Hdeeper. subst deeper. simpl.
    eapply Forall_impl; [exact Hall|]. by intros a [_ Ha].
Qed.

(** Retrying node [0-1] with label [X] and goal [Y]. *)
Lemma retry_bypasses_generation_witness :
  p_retryNode Scenario.retryParams = Some Scenario.retried ∧
  rn_id Scenario.retried ≠ "0" ∧
  querySource Scenario.twoQueries Scenario.retryParams
  = (Done, Returned [mkNodeQuery (Some "X") (Some "Y") "0-1"]).
Proof.
  split; [reflexivity|]. split; [done|].
  apply (retry_bypasses_generation Scenario.twoQueries Scenario.retryParams
           Scenario.retried); [reflexivity|done].
Defined.

(** C6 fails as stated: in [Scenario.smooth] the branch of the retried
    node [0-1] goes deeper, and the recursive call, which runs under the
    id [0-1], reports its query generation for that node: every execution
    has a [generating_query_reasoning] step for [0-1], and a
    [generating_query] step that names [0-1] as the parent. *)
Lemma retry_reports_generation :
  p_retryNode Scenario.retryParams = Some Scenario.retried ∧
  rn_id Scenario.retried = "0-1" ∧
  isGenerationStep (generating_query_reasoning "thinking" "0-1") = true ∧
  execution (flat (deepResearch Scenario.smooth Scenario.retryParams).1)
    (deepResearch Scenario.smooth Scenario.retryParams).1 = true ∧
  ∀ l, execution l (deepResearch Scenario.smooth Scenario.retryParams).1 = true →
       Progress (generating_query_reasoning "thinking" "0-1") ∈ l ∧
       Progress (generating_query
                   (mkNodeQuery (Some "a") (Some "ga") "0-1-0") "0-1-0" "0-1")
       ∈ l.
Proof.
  split; [reflexivity|]. split; [reflexivity|]. split; [reflexivity|].
  split; [apply flat_execution|].
  intros l Hl. apply execution_flat in Hl. rewrite Hl.
  split; apply list_elem_of_In; vm_compute; tauto.
Qed.

(** C7. Called with a [retryNode] whose id is not the root id, the call
    works under the retried node's id whatever [nodeId] was passed: no
    [complete] step is reported in any execution. The call resolves to
    the deduplicated learnings that the branch of the retried query
    returns, and to no learnings when that branch rejects. *)
Theorem retry_without_complete (E : Env) (p : Params)
  (node : DeepResearchNode)
  (Hretry : p_retryNode p = Some node) (Hid : rn_id node ≠ "0") :
  effectiveNodeId p = rn_id node ∧
  ∃ t r,
    deepResearch E p = (t, Returned r) ∧
    (researchBranch E (deepResearch E) p (retryQuery node)).2 ≠ OutOfFuel ∧
    (∀ rb, (researchBranch E (deepResearch E) p (retryQuery node)).2
           = Returned rb →
           r = mkResult (dedupe [rb]) ∧
           dedupe [rb] = firstOccurrences (resultLearnings rb)) ∧
    (∀ e, (researchBranch E (deepResearch E) p (retryQuery node)).2 = Threw e →
          r = mkResult []) ∧
    ∀ l, execution l t = true → completions l = [].
Proof.
  destruct (deepResearch_retry E p node Hretry Hid) as (Heff & Hrun).
  split; [done|].
  destruct (deepResearch_returns E p) as (t & r & Hd). exists t, r.
  rewrite Hd in Hrun. cbn [fst snd] in Hrun.
  split; [done|]. split_and!.
  - apply deepResearch_branches.
  - intros rb Hrb. rewrite Hrb in Hrun. destruct Hrun as [[= ->] _].
    split; [done|]. rewrite dedupe_firstOccurrences. unfold encountered.
    simpl. by rewrite app_nil_r.
  - intros e He. rewrite He in Hrun. by destruct Hrun as [[= ->] _].
  - intros l Hl. apply completions_execution in Hl.
    destruct (deepResearch_wellBehaved E p) as (_ & _ & Hc).
    rewrite Hd in Hc. cbn [fst] in Hc.
    rewrite Hc in Hl by (by rewrite Heff). by apply Permutation_nil_r in Hl.
Qed.

(** Retrying node [0-1] with the default [nodeId]. *)
Lemma retry_without_complete_witness :
  p_retryNode Scenario.retryParams = Some Scenario.retried ∧
  rn_id Scenario.retried ≠ "0" ∧
  p_nodeId Scenario.retryParams = None ∧
  effectiveNodeId Scenario.retryParams = "0-1".
Proof.
  split; [reflexivity|]. split; [done|]. split; [reflexivity|].
  apply (retry_without_complete Scenario.twoQueries Scenario.retryParams
           Scenario.retried); [reflexivity|done].
Defined.

(** ** A node without children *)

(** C10. When query generation ends with no child query, the call
    resolves to no learnings, whatever learnings it inherited: its whole
    run is the steps of query generation followed, at the root only, by
    one [complete] step carrying the empty list. *)
Theorem no_children_no_learnings (E : Env) (p : Params) (tq : trace)
  (Hq : querySource E p = (tq, Returned [])) :
  deepResearch E p
  = (Then tq
       (Then Done
          (Then (if decide (effectiveNodeId p = "0")
                 then Act (Progress (complete [])) else Done)
             Done)),
     Returned (mkResult [])) ∧
  (effectiveNodeId p = "0" →
   ∀ l, execution l (deepResearch E p).1 = true → completions l = [[]]).
Proof.
  assert (deepResearch E p
          = (Then tq
               (Then Done
                  (Then (if decide (effectiveNodeId p = "0")
                         then Act (Progress (complete [])) else Done)
                     Done)),
             Returned (mkResult []))) as Hd.
  { rewrite deepResearch_unfold. unfold deepResearchBody.
    by rewrite (nodeBody_returned E (deepResearch E) p tq [] [] Hq eq_refl). }
  split; [done|].
  intros Hroot l Hl. apply completions_execution in Hl.
  pose proof (querySource_runs E p) as [Hquiet _].
  rewrite Hq in Hquiet. cbn [fst] in Hquiet.
  rewrite Hd in Hl. cbn [fst flat] in Hl.
  rewrite decide_True in Hl by done.
  rewrite !completions_app, (quiet_completions _ Hquiet) in Hl.
  by apply Permutation_singleton_r in Hl.
Qed.

(** A root call that inherits a learning and gets no query. *)
Lemma no_children_no_learnings_witness :
  p_learnings Scenario.inheriting = Some [mkLearning "u0" "known" None] ∧
  (deepResearch Scenario.noQueries Scenario.inheriting).2
  = Returned (mkResult []) ∧
  completions (flat (deepResearch Scenario.noQueries Scenario.inheriting).1)
  = [[]].
Proof.
  split; [reflexivity|].
  pose proof (no_children_no_learnings Scenario.noQueries Scenario.inheriting
                _ eq_refl) as [Hd Hc].
  split.
  - by rewrite Hd.
  - apply Hc; [reflexivity|]. apply flat_execution.
Defined.

(** ** The recursion decision *)

Lemma shouldRecurse_true (nextDepth maxDepth : Z) sr :
  shouldRecurse nextDepth maxDepth sr = true ↔
  nextDepth ≤ maxDepth ∧ ∃ f fs, pr_followUpQuestions sr = Some (f :: fs).
Proof.
  split; [apply shouldRecurse_depth|].
  intros [Hd (f & fs & Hf)]. unfold shouldRecurse. rewrite Hf.
  apply andb_true_iff. split; [by apply Z.leb_le|done].
Qed.

Lemma makesCall_not_makesNoCall (nid : string) branch (p' : Params) :
  makesCall nid branch p' → ¬ makesNoCall nid branch.
Proof.
  intros Hcall (t & r & Hb & _ & Hown).
  destruct (Hcall (fun _ => (Done, OutOfFuel))) as (pre & post & Hflat & _).
  rewrite Hb in Hflat. simpl in Hflat. rewrite Hflat in Hown.
  apply Forall_app in Hown as [_ Hown].
  apply Forall_cons in Hown as [Hinc _]. done.
Qed.

(** C3. The branch of a child query makes a recursive call if and only
    if it has a processed result, the next depth does not exceed
    [maxDepth], and the processed result has a follow-up question; the
    call is then the one for [deeperParams]. Otherwise it makes none: in
    particular when the next depth exceeds [maxDepth], whatever the
    follow-up questions, and when there is no follow-up question, whatever
    the depth. *)
Theorem recursion_decision (E : Env) (p : Params) (sq : NodeQuery) :
  let branch := fun rec => researchBranch E rec p sq in
  let decides sr :=
    (∃ q t, truthy (query sq) = Some q ∧
            processed E p q sq = (t, Returned sr)) ∧
    p_currentDepth p + 1 ≤ p_maxDepth p ∧
    ∃ f fs, pr_followUpQuestions sr = Some (f :: fs) in
  ((∃ p', makesCall (nodeId sq) branch p') ↔ ∃ sr, decides sr) ∧
  (∀ sr, decides sr → makesCall (nodeId sq) branch (deeperParams p sq sr)) ∧
  (makesNoCall (nodeId sq) branch ↔ ¬ ∃ sr, decides sr) ∧
  (p_maxDepth p < p_currentDepth p + 1 → makesNoCall (nodeId sq) branch) ∧
  (∀ q t sr, truthy (query sq) = Some q →
             processed E p q sq = (t, Returned sr) →
             default [] (pr_followUpQuestions sr) = [] →
             makesNoCall (nodeId sq) branch).
Proof.
  intros branch decides.
  assert (∀ sr, decides sr ↔ recursionOf E p sq = Some sr) as Hdec.
  { intros sr. rewrite recursionOf_Some. unfold decides. split.
    - intros ((q & t & Hq & Hp) & Hd & Hf). exists q, t.
      split; [done|]. split; [done|]. by apply shouldRecurse_true.
    - intros (q & t & Hq & Hp & [Hd Hf]%shouldRecurse_true).
      split; [by exists q, t|done]. }
  assert (∀ sr, decides sr → makesCall (nodeId sq) branch (deeperParams p sq sr))
    as Hcall.
  { intros sr Hsr%Hdec. by apply researchBranch_deeper. }
  assert ((¬ ∃ sr, decides sr) → makesNoCall (nodeId sq) branch) as Hno.
  { intros Hnone. apply researchBranch_leaf.
    destruct (recursionOf E p sq) as [sr|] eqn:Hsr; [|done].
    destruct Hnone. exists sr. by apply Hdec. }
  split_and!.
  - split.
    + intros [p' Hp'].
      destruct (recursionOf E p sq) as [sr|] eqn:Hsr.
      * exists sr. by apply Hdec.
      * destruct (makesCall_not_makesNoCall _ _ _ Hp').
        by apply researchBranch_leaf.
    + intros [sr Hsr]. eauto.
  - done.
  - split; [|done].
    intros Hnocall [sr Hsr].
    by apply (makesCall_not_makesNoCall _ _ _ (Hcall sr Hsr)).
  - intros Hdepth. apply Hno. intros (sr & _ & Hle & _). lia.
  - intros q t sr Hq Hp Hnil. apply Hno.
    intros (sr' & (q' & t' & Hq' & Hp') & _ & f & fs & Hf).
    assert (q' = q) as -> by congruence.
    assert (sr' = sr) as -> by congruence.
    by rewrite Hf in Hnil.
Qed.

Example scenario_recursion :
  makesCall "0-0"
    (fun rec => researchBranch Scenario.twoQueries rec Scenario.rootParams
                  Scenario.queryA)
    (deeperParams Scenario.rootParams Scenario.queryA
       (mkPartialProcessed (Some [mkLearning "u-a" "la" (Some "T")])
          (Some ["why?"]))) ∧
  makesNoCall "0-1"
    (fun rec => researchBranch Scenario.twoQueries rec Scenario.rootParams
                  Scenario.queryB).
Proof.
  split.
  - by apply (researchBranch_deeper Scenario.twoQueries Scenario.rootParams
                Scenario.queryA).
  - by apply (researchBranch_leaf Scenario.twoQueries Scenario.rootParams
                Scenario.queryB).
Qed.

(** ** Errors inside a branch *)

Lemma elem_of_concat_map {A B} (f : A → list B) (l : list A) (x : A) (b : B) :
  x ∈ l → b ∈ f x → b ∈ concat (map f l).
Proof.
  intros Hx Hb. induction l as [|y l IH]; [by apply elem_of_nil in Hx|].
  simpl. apply elem_of_app. apply elem_of_cons in Hx as [->|Hx].
  - by left.
  - right. by apply IH.
Qed.

(** C4 fails on the code. In [Scenario.searchRejects] the search for
    ["a"] rejects with [undefined]. The inner [catch] of the branch of
    ["a"] reads [e.message], which throws a [TypeError]: the branch
    reports no [error] step for its node [0-0] and rejects. [Promise.all]
    rejects with it and the outer [catch] answers for the whole call: in
    every execution the [TypeError] is reported for node [0] and there is
    no [complete] step, and the call resolves to no learnings, although
    the branch of ["b"] returned one. *)
Theorem nullish_error_escapes_branch :
  (querySource Scenario.searchRejects Scenario.rootParams).2
  = Returned [Scenario.queryA; Scenario.queryB] ∧
  branchBody Scenario.searchRejects (deepResearch Scenario.searchRejects)
    Scenario.rootParams "a" Scenario.queryA
  = (Done, Threw (Nullish js_undefined)) ∧
  researchBranch Scenario.searchRejects (deepResearch Scenario.searchRejects)
    Scenario.rootParams Scenario.queryA
  = (Then (Act (Admit "0-0"))
       (Then (Then (Act (Progress (searching "a" "0-0"))) (Then Done Done))
          (Act (Release "0-0"))),
     Threw (mkThrown
              (Some "Cannot read properties of undefined (reading 'message')"))) ∧
  (researchBranch Scenario.searchRejects (deepResearch Scenario.searchRejects)
     Scenario.rootParams Scenario.queryB).2
  = Returned (mkResult [mkLearning "u-b" "lb" (Some "T")]) ∧
  (deepResearch Scenario.searchRejects Scenario.rootParams).2
  = Returned (mkResult []) ∧
  ∀ l, execution l (deepResearch Scenario.searchRejects Scenario.rootParams).1
       = true →
       (∀ m, Progress (error m "0-0") ∉ l) ∧
       Progress (error
                   (Some "Cannot read properties of undefined (reading 'message')")
                   "0") ∈ l ∧
       completions l = [].
Proof.
  split_and!; try reflexivity.
  intros l Hl. split_and!.
  - intros m. apply execution_flat in Hl. rewrite Hl.
    intros Hin%list_elem_of_In. vm_compute in Hin.
    repeat (destruct Hin as [Hin|Hin]; [discriminate Hin|]). done.
  - apply execution_flat in Hl. rewrite Hl.
    apply list_elem_of_In. vm_compute. tauto.
  - apply completions_execution in Hl.
    change (completions l ≡ₚ []) in Hl. by apply Permutation_nil_r in Hl.
Qed.

(** ** The capacity of the limiter *)



(** ** Aggregation *)

(** C2. Once the branches of a node have returned the results [rs], the
    node resolves to [dedupe rs]. The aggregated list of any branch
    results is the list of first occurrences of the learnings they carry,
    read in child order and list order: no url occurs twice in it, every
    url met occurs in it, it is a subsequence of the learnings met (so the
    order of insertion is kept), and each learning kept is the first one
    met with its url. *)
Theorem dedupe_first_occurrence (results : list ResearchResult) :
  let final := dedupe results in
  let met := encountered results in
  final = firstOccurrences met ∧
  NoDup (url <$> final) ∧
  (∀ u, u ∈ url <$> final ↔ u ∈ url <$> met) ∧
  sublist final met ∧
  (∀ l, l ∈ final →
        ∃ before after, met = before ++ l :: after ∧ url l ∉ url <$> before) ∧
  (∀ E p tq sqs rs,
     querySource E p = (tq, Returned sqs) →
     map (fun sq => (researchBranch E (deepResearch E) p sq).2) sqs
     = map Returned rs →
     (deepResearch E p).2 = Returned (mkResult (dedupe rs))).
Proof.
  intros final met. subst final met.
  rewrite dedupe_firstOccurrences. split_and!.
  - reflexivity.
  - apply firstOccurrences_NoDup.
  - apply firstOccurrences_urls.
  - apply firstOccurrences_sublist.
  - apply firstOccurrences_first.
  - intros E p tq sqs rs Hq Hrs. rewrite deepResearch_unfold.
    by destruct (deepResearchBody_returned E (deepResearch E) p tq sqs rs).
Qed.

(** * Further properties of the code *)

(** ** Node identifiers of siblings *)

Lemma childNodeId_inj (p p' : string) (i i' : Z) :
  0 ≤ i → 0 ≤ i' → childNodeId p i = childNodeId p' i' → p = p' ∧ i = i'.
Proof.
  intros Hi Hi' Heq.
  assert (p = p') as <-.
  { apply (f_equal parentOf) in Heq. unfold childNodeId in Heq.
    rewrite !parentOf_app_dash in Heq by by apply pretty_nonneg_no_dash.
    by injection Heq. }
  split; [done|]. unfold childNodeId in Heq.
  apply (inj (String.app p)) in Heq. apply (inj (String.app "-")) in Heq.
  by apply (inj pretty) in Heq.
Qed.

(** X1. For array indices, the id of a child determines both its parent
    and its index: two children with the same id have the same parent and
    the same position. *)
Theorem childNodeId_determines_position (p p' : string) (i i' : nat)
  (Heq : childNodeId p (Z.of_nat i) = childNodeId p' (Z.of_nat i')) :
  p = p' ∧ i = i'.
Proof.
  destruct (childNodeId_inj p p' (Z.of_nat i) (Z.of_nat i')) as [Hp Hi];
    [lia|lia|done|].
  split; [done|lia].
Qed.

(** The id [0-1-2], computed twice. *)
Lemma childNodeId_determines_position_witness :
  (childNodeId "0-1" (Z.of_nat 2) = childNodeId "0-1" (Z.of_nat 2)) ∧
  ("0-1" = "0-1" ∧ 2%nat = 2%nat).
Proof.
  split; [reflexivity|].
  apply (childNodeId_determines_position "0-1" "0-1" 2 2). reflexivity.
Defined.

(** With a negative index the id no longer determines the parent. *)
Example childNodeId_negative_index_ambiguous :
  childNodeId "0" (-1) = childNodeId "0-" 1.
Proof. reflexivity. Qed.

Lemma settleQueries_nodeIds (nodeId0 : string) (qs : list PartialSearchQuery) :
  nodeId <$> settleQueries nodeId0 qs
  = (fun i => childNodeId nodeId0 (Z.of_nat i))
      <$> seq 0 (length (filter (fun q => pq_query q ≠ Some "undefined") qs)).
Proof.
  unfold settleQueries. rewrite fmap_imap.
  rewrite <- (imap_seq_0 _ (fun i => childNodeId nodeId0 (Z.of_nat i))).
  by apply imap_ext.
Qed.

(** X2. The children settled from one snapshot have pairwise distinct
    ids, none of them the id of the node itself, and there are at most as
    many as the snapshot has entries. *)
Theorem sibling_ids_distinct (nodeId0 : string) (qs : list PartialSearchQuery) :
  NoDup (nodeId <$> settleQueries nodeId0 qs) ∧
  (nodeId0 ∉ nodeId <$> settleQueries nodeId0 qs) ∧
  (length (settleQueries nodeId0 qs) ≤ length qs)%nat.
Proof.
  split_and!.
  - rewrite settleQueries_nodeIds. apply NoDup_fmap_2_strong; [|apply NoDup_seq].
    intros i j _ _ Hij. apply childNodeId_inj in Hij as [_ Hij]; lia.
  - rewrite settleQueries_nodeIds. intros (i & Hi & _)%list_elem_of_fmap.
    pose proof (childNodeId_longer nodeId0 (Z.of_nat i)) as Hlen.
    rewrite <- Hi in Hlen. lia.
  - unfold settleQueries. rewrite length_imap. apply length_filter.
Qed.

(** ** The loops over the streams *)

Section Loops.

Context (E : Env).

(** X3. Once the query loop has read an [error] or [bad-end] chunk it
    reads nothing more: the chunks that follow and a later failure of the
    stream change neither what is reported nor the child queries. *)
Theorem query_loop_stops_at_break (nodeId0 : string)
  (cs rest rest' : list (chunk QueriesValue)) (c : chunk QueriesValue)
  (fail fail' : option thrown) (sqs : list NodeQuery)
  (Hc : breaking c = true) :
  consumeQueries E nodeId0 (cs ++ c :: rest) fail sqs
  = consumeQueries E nodeId0 (cs ++ c :: rest') fail' sqs.
Proof.
  revert sqs. induction cs as [|[v|delta|msg|] cs IH]; intros sqs.
  - by destruct c.
  - cbn [app consumeQueries]. destruct (queries v); by rewrite IH.
  - cbn [app consumeQueries]. by rewrite IH.
  - reflexivity.
  - reflexivity.
Qed.

(** What the query loop settles to. *)
Lemma consumeQueries_outcome (nodeId0 : string)
  (cs : list (chunk QueriesValue)) (fail : option thrown) (sqs : list NodeQuery) :
  (consumeQueries E nodeId0 cs fail sqs).2
  = match thrownBy cs fail with
    | Some e => Threw e
    | None =>
        Returned match last (snapshots (beforeBreak cs)) with
                 | Some qs => settleQueries nodeId0 qs
                 | None => sqs
                 end
    end.
Proof.
  unfold thrownBy, snapshots, objects.
  revert sqs. induction cs as [|[v|delta|msg|] cs IH]; intros sqs;
    cbn [consumeQueries].
  - by destruct fail.
  - destruct (queries v) as [qs|] eqn:Hv.
    + rewrite outcome_bind, forEach_outcome, IH. simpl.
      destruct (existsb breaking cs), fail; simpl; try done;
        rewrite Hv; simpl; rewrite last_cons;
        by destruct (last _).
    + rewrite IH. simpl. by rewrite Hv.
  - rewrite outcome_bind. simpl. by rewrite IH.
  - by rewrite outcome_bind.
  - by rewrite outcome_bind.
Qed.

(** X5. Once the processing loop has read an [error] or [bad-end] chunk
    it reads nothing more of the stream. *)
Theorem processing_loop_stops_at_break (q nodeId0 : string)
  (cs rest rest' : list (chunk PartialProcessedSearchResult))
  (c : chunk PartialProcessedSearchResult)
  (fail fail' : option thrown) (sr : PartialProcessedSearchResult)
  (Hc : breaking c = true) :
  consumeProcessed E q nodeId0 (cs ++ c :: rest) fail sr
  = consumeProcessed E q nodeId0 (cs ++ c :: rest') fail' sr.
Proof.
  revert sr. induction cs as [|[v|delta|msg|] cs IH]; intros sr.
  - by destruct c.
  - cbn [app consumeProcessed]. by rewrite IH.
  - cbn [app consumeProcessed]. by rewrite IH.
  - reflexivity.
  - reflexivity.
Qed.

(** What the processing loop settles to. *)
Lemma consumeProcessed_outcome (q nodeId0 : string)
  (cs : list (chunk PartialProcessedSearchResult)) (fail : option thrown)
  (sr : PartialProcessedSearchResult) :
  (consumeProcessed E q nodeId0 cs fail sr).2
  = match thrownBy cs fail with
    | Some e => Threw e
    | None => Returned (default sr (last (objects (beforeBreak cs))))
    end.
Proof.
  unfold thrownBy, objects.
  revert sr. induction cs as [|[v|delta|msg|] cs IH]; intros sr;
    cbn [consumeProcessed].
  - by destruct fail.
  - rewrite outcome_bind. simpl. rewrite IH.
    destruct (existsb breaking cs), fail; simpl; try done;
      rewrite last_cons; by destruct (last _).
  - rewrite outcome_bind. simpl. by rewrite IH.
  - by rewrite outcome_bind.
  - by rewrite outcome_bind.
Qed.

(** X4. The query loop reports, chunk by chunk and in the order of the
    stream, the steps of the chunks up to and including the first breaking
    one, and every query array re-announces all of its queries. It throws
    exactly when the stream fails without a breaking chunk before.
    Otherwise it returns the children settled from the last query array
    read before the break, or the list it started with when no object
    chunk with a query array was read: each snapshot replaces the one
    before. *)
Theorem query_loop_last_snapshot (nodeId0 : string)
  (cs : list (chunk QueriesValue)) (fail : option thrown) (sqs : list NodeQuery) :
  flat (consumeQueries E nodeId0 cs fail sqs).1
  = concat (map (queryChunkSteps E nodeId0) (upToBreak cs)) ∧
  (consumeQueries E nodeId0 cs fail sqs).2
  = match thrownBy cs fail with
    | Some e => Threw e
    | None =>
        Returned match last (snapshots (beforeBreak cs)) with
                 | Some qs => settleQueries nodeId0 qs
                 | None => sqs
                 end
    end.
Proof.
  split; [|apply consumeQueries_outcome].
  revert sqs. induction cs as [|[v|delta|msg|] cs IH]; intros sqs;
    cbn [consumeQueries upToBreak breaking map concat queryChunkSteps].
  - by destruct fail.
  - destruct (queries v) as [qs|]; [|apply IH].
    by rewrite flat_bind, forEach_outcome, flat_forEach, IH.
  - rewrite flat_bind. cbn [onProgress act fst snd flat]. by rewrite IH.
  - done.
  - done.
Qed.

(** X6. The processing loop reports one step for each chunk up to and
    including the first breaking one, in the order of the stream. It
    throws exactly when the stream fails without a breaking chunk before.
    Otherwise it returns the value of the last object chunk read before
    the break, whole, or the value it started with when there was none:
    snapshots are not merged. *)
Theorem processing_loop_last_object (q nodeId0 : string)
  (cs : list (chunk PartialProcessedSearchResult)) (fail : option thrown)
  (sr : PartialProcessedSearchResult) :
  flat (consumeProcessed E q nodeId0 cs fail sr).1
  = map (processedChunkStep E q nodeId0) (upToBreak cs) ∧
  (consumeProcessed E q nodeId0 cs fail sr).2
  = match thrownBy cs fail with
    | Some e => Threw e
    | None => Returned (default sr (last (objects (beforeBreak cs))))
    end.
Proof.
  split; [|apply consumeProcessed_outcome].
  revert sr. induction cs as [|[v|delta|msg|] cs IH]; intros sr;
    cbn [consumeProcessed upToBreak breaking map processedChunkStep].
  - by destruct fail.
  - rewrite flat_bind. cbn [onProgress act fst snd flat]. by rewrite IH.
  - rewrite flat_bind. cbn [onProgress act fst snd flat]. by rewrite IH.
  - done.
  - done.
Qed.

End Loops.

(** The loop breaks at the error; the snapshot and the failure behind it
    are not looked at. *)
Lemma query_loop_stops_at_break_witness :
  breaking (@chunk_error QueriesValue "overloaded") = true ∧
  consumeQueries Scenario.noQueries "0"
    ([chunk_reasoning "r"] ++ chunk_error "overloaded"
       :: [chunk_object (mkQueriesValue (Some [mkPartialSearchQuery (Some "a") None]))])
    (Some (mkThrown None)) []
  = consumeQueries Scenario.noQueries "0"
      ([chunk_reasoning "r"] ++ chunk_error "overloaded" :: []) None [].
Proof.
  split; [reflexivity|].
  apply (query_loop_stops_at_break Scenario.noQueries "0" [chunk_reasoning "r"]). reflexivity.
Defined.

(** The loop breaks at [bad-end]; the failure behind it is not thrown. *)
Lemma processing_loop_stops_at_break_witness :
  breaking (@chunk_bad_end PartialProcessedSearchResult) = true ∧
  consumeProcessed Scenario.noQueries "a" "0-0" ([] ++ chunk_bad_end :: [chunk_reasoning "r"])
    (Some (mkThrown None)) (mkPartialProcessed None None)
  = consumeProcessed Scenario.noQueries "a" "0-0" ([] ++ chunk_bad_end :: []) None
      (mkPartialProcessed None None).
Proof.
  split; [reflexivity|].
  apply (processing_loop_stops_at_break Scenario.noQueries "a" "0-0" []). reflexivity.
Defined.

(** ** Titles, breadth and the next query *)

Lemma find_first {A} (f : A → bool) (before after : list A) (x : A) :
  f x = true → (∀ y, y ∈ before → f y = false) →
  List.find f (before ++ x :: after) = Some x.
Proof.
  intros Hx Hb. induction before as [|y before IH]; simpl.
  - by rewrite Hx.
  - rewrite (Hb y) by left. apply IH. intros z Hz. apply Hb. by right.
Qed.

(** X7. Assigning the title keeps the url and the text of a learning and
    discards whatever title it had. The new title is that of the first
    search result with the learning's url, even when that result has no
    title and a later one has; without such a result there is no title. *)
Theorem title_from_first_match (results : list WebSearchResult) (l : Learning) :
  url (assignTitle results l) = url l ∧
  learning (assignTitle results l) = learning l ∧
  assignTitle results l
  = assignTitle results (mkLearning (url l) (learning l) None) ∧
  (∀ before r after,
     results = before ++ r :: after → wsUrl r = url l →
     (∀ r', r' ∈ before → wsUrl r' ≠ url l) →
     title (assignTitle results l) = wsTitle r) ∧
  ((∀ r, r ∈ results → wsUrl r ≠ url l) → title (assignTitle results l) = None).
Proof.
  split_and!; try reflexivity.
  - intros before r after -> Hr Hbefore. unfold assignTitle. simpl.
    rewrite (find_first _ before after r); [done|by apply String.eqb_eq|].
    intros r' Hr'. apply String.eqb_neq. by apply Hbefore.
  - intros Hnone. unfold assignTitle. simpl.
    destruct (List.find _ results) as [r|] eqn:Hfind; [|done].
    apply find_some in Hfind as [Hin Heq].
    apply String.eqb_eq in Heq. apply list_elem_of_In in Hin.
    by destruct (Hnone r Hin).
Qed.

(** The first of two results with the same url has no title. *)
Example title_first_match_without_title :
  title (assignTitle [mkWebSearchResult "u" None "c1";
                      mkWebSearchResult "u" (Some "T") "c2"]
                     (mkLearning "u" "text" (Some "from the model")))
  = None.
Proof. reflexivity. Qed.

Lemma nextBreadthOf_bounds (b : Z) :
  1 ≤ b → 1 ≤ nextBreadthOf b ≤ b ∧ (2 ≤ b → nextBreadthOf b < b).
Proof.
  intros Hb. unfold nextBreadthOf.
  pose proof (Z.div_mod (b + 1) 2) as Hdm.
  pose proof (Z.mod_pos_bound (b + 1) 2) as Hm. lia.
Qed.

(** [nextBreadthOf] applied [k] times. *)
Lemma nextBreadthOf_iter (b : Z) (k : nat) :
  Nat.iter k nextBreadthOf b = (b + 2 ^ Z.of_nat k - 1) / 2 ^ Z.of_nat k.
Proof.
  induction k as [|k IH].
  - simpl. rewrite Z.div_1_r. lia.
  - rewrite Nat.iter_succ, IH. unfold nextBreadthOf.
    assert (0 < 2 ^ Z.of_nat k) as Hpos by (apply Z.pow_pos_nonneg; lia).
    replace (2 ^ Z.of_nat (S k)) with (2 ^ Z.of_nat k * 2)
      by (rewrite Nat2Z.inj_succ, Z.pow_succ_r by lia; lia).
    rewrite <- Z.div_div by lia. f_equal.
    replace (b + 2 ^ Z.of_nat k * 2 - 1)
      with (b + 2 ^ Z.of_nat k - 1 + 1 * 2 ^ Z.of_nat k) by lia.
    by rewrite Z.div_add by lia.
Qed.

Lemma append_assoc (s1 s2 s3 : string) :
  (s1 +:+ s2) +:+ s3 = s1 +:+ (s2 +:+ s3).
Proof.
  induction s1 as [|c s1 IH]; [done|].
  change (String c ((s1 +:+ s2) +:+ s3) = String c (s1 +:+ (s2 +:+ s3))).
  by rewrite IH.
Qed.

(** A byte below 128 that is not whitespace itself is not part of the
    encoding of any whitespace. *)
Lemma isSpace2_ascii (c1 c2 : ascii) :
  (nat_of_ascii c1 < 128)%nat ∨ (nat_of_ascii c2 < 128)%nat →
  isSpace2 c1 c2 = false.
Proof.
  intros Hc. apply not_true_is_false. unfold isSpace2.
  rewrite andb_true_iff, !Nat.eqb_eq. lia.
Qed.

Lemma isSpace3_ascii (c1 c2 c3 : ascii) :
  (nat_of_ascii c1 < 128)%nat ∨ (nat_of_ascii c2 < 128)%nat
  ∨ (nat_of_ascii c3 < 128)%nat →
  isSpace3 c1 c2 c3 = false.
Proof.
  intros Hc. apply not_true_is_false. unfold isSpace3.
  rewrite !orb_true_iff, !andb_true_iff, !orb_true_iff, !andb_true_iff,
    !Nat.eqb_eq, !Nat.leb_le.
  lia.
Qed.

(** A string with such a byte is not blank. *)
Lemma trimStart_anchor (a : ascii) (s1 s2 : string) :
  isSpace a = false → (nat_of_ascii a < 128)%nat →
  trimStart (s1 +:+ String a s2) ≠ "".
Proof.
  intros Ha Hlow.
  assert (∀ n s, (String.length s < n)%nat →
                 trimStart (s +:+ String a s2) ≠ "") as Hn;
    [|apply (Hn (S (String.length s1))); lia].
  clear s1. induction n as [|n IH]; intros s1 Hlen; [lia|].
  assert (∀ s, (String.length s < String.length s1)%nat →
               trimStart (s +:+ String a s2) ≠ "") as IH'
    by (intros s Hs; apply IH; lia).
  clear IH. destruct s1 as [|c1 [|c2 [|c3 r3]]].
  - change (trimStart (String a s2) ≠ ""). cbn [trimStart]. rewrite Ha.
    destruct s2 as [|c2 [|c3 r3]]; [done|..];
      rewrite ?isSpace2_ascii, ?isSpace3_ascii by auto; done.
  - change (trimStart (String c1 (String a s2)) ≠ ""). cbn [trimStart].
    destruct (isSpace c1).
    + apply (IH' ""). simpl. lia.
    + rewrite isSpace2_ascii by auto.
      destruct s2 as [|c3 r3]; [done|].
      by rewrite isSpace3_ascii by auto.
  - change (trimStart (String c1 (String c2 (String a s2))) ≠ "").
    cbn [trimStart]. destruct (isSpace c1).
    + apply (IH' (String c2 "")). simpl. lia.
    + destruct (isSpace2 c1 c2).
      * apply (IH' ""). simpl. lia.
      * by rewrite isSpace3_ascii by auto.
  - change (trimStart (String c1 (String c2 (String c3 (r3 +:+ String a s2))))
            ≠ "").
    cbn [trimStart]. destruct (isSpace c1).
    + apply (IH' (String c2 (String c3 r3))). simpl. lia.
    + destruct (isSpace2 c1 c2).
      * apply (IH' (String c3 r3)). simpl. lia.
      * destruct (isSpace3 c1 c2 c3); [|done].
        apply (IH' r3). simpl. lia.
Qed.

Lemma anchored_colon (s : string) : anchored (String ":" s).
Proof.
  intros s0. unfold blank.
  assert (nat_of_ascii ":" < 128)%nat as Hlow by (vm_compute; lia).
  pose proof (trimStart_anchor ":" s0 s eq_refl Hlow) as H.
  by destruct (trimStart _).
Qed.

Lemma anchored_app (s1 s2 : string) : anchored s2 → anchored (s1 +:+ s2).
Proof. intros H s0. rewrite <- append_assoc. apply H. Qed.

(** Trimming the end leaves everything before an anchored part alone. *)
Lemma trimEnd_keeps (s1 s2 : string) :
  anchored s2 → trimEnd (s1 +:+ s2) = s1 +:+ trimEnd s2.
Proof.
  intros Hs2. induction s1 as [|c s1 IH]; [done|].
  change (trimEnd (String c (s1 +:+ s2)) = String c (s1 +:+ trimEnd s2)).
  cbn [trimEnd].
  change (String c (s1 +:+ s2)) with (String c s1 +:+ s2).
  by rewrite Hs2, IH.
Qed.

Lemma trimEnd_colon (s : string) :
  trimEnd (String ":" s) = String ":" (trimEnd s).
Proof.
  pose proof (anchored_colon s "") as H.
  change (blank (String ":" s) = false) in H. cbn [trimEnd]. by rewrite H.
Qed.

(** X8. The next query is the template without the blank lead and without
    the whitespace at its very end: it starts with the line of the previous
    research goal, goal untouched, followed by the line that introduces
    the follow-up directions; trimming can only touch what comes after. *)
Theorem nextQuery_header (goal : option string) (followUps : list string) :
  nextQueryOf goal followUps
  = "Previous research goal: " +:+ render goal +:+ newline
    +:+ "              Follow-up research directions:"
    +:+ trimEnd (" " +:+ String.concat "" (map (fun q => newline +:+ q) followUps)
                 +:+ newline +:+ "            ").
Proof.
  unfold nextQueryOf, trim.
  set (tail := String.concat "" _ +:+ newline +:+ "            ").
  change (trimStart (newline +:+ "              Previous research goal: "
                     +:+ render goal +:+ newline
                     +:+ "              Follow-up research directions: " +:+ tail))
    with ("Previous research goal: " +:+ render goal +:+ newline
          +:+ "              Follow-up research directions"
          +:+ String ":" (" " +:+ tail)).
  rewrite !trimEnd_keeps by (repeat apply anchored_app; apply anchored_colon).
  by rewrite trimEnd_colon.
Qed.

(** A follow-up question that ends in a no-break space (U+00A0) or an
    ideographic space (U+3000) loses it when it is the last one. *)
Example nextQuery_trims_unicode_space :
  nextQueryOf (Some "g")
    ["last" +:+ String (ascii_of_nat 194) (String (ascii_of_nat 160) "")
            +:+ String (ascii_of_nat 227)
                  (String (ascii_of_nat 128) (String (ascii_of_nat 128) ""))]
  = "Previous research goal: g" +:+ newline
    +:+ "              Follow-up research directions: " +:+ newline
    +:+ "last".
Proof. reflexivity. Qed.

(** A follow-up question that ends in blanks loses them when it is the
    last one. *)
Example nextQuery_trims_last_question :
  nextQueryOf (Some "g") ["first  "; "last  "]
  = "Previous research goal: g" +:+ newline
    +:+ "              Follow-up research directions: " +:+ newline
    +:+ "first  " +:+ newline +:+ "last".
Proof. reflexivity. Qed.

(** ** The parameters of the recursive calls *)

(** In [Scenario.twoQueries] the root call goes deeper from query ["a"]. *)
Lemma scenario_calls :
  nsteps (calls Scenario.twoQueries) 1 Scenario.rootParams Scenario.deeperA.
Proof.
  apply nsteps_once.
  exists (querySource Scenario.twoQueries Scenario.rootParams).1,
         [Scenario.queryA; Scenario.queryB], Scenario.queryA, Scenario.processedA.
  split; [reflexivity|]. split; [left|]. split; reflexivity.
Qed.

Lemma calls_shouldRecurse (E : Env) (p p' : Params) :
  calls E p p' →
  ∃ sq sr, p' = deeperParams p sq sr ∧
           shouldRecurse (p_currentDepth p + 1) (p_maxDepth p) sr = true.
Proof.
  intros (tq & sqs & sq & sr & _ & _ & (q & t & _ & _ & Hsr)%recursionOf_Some & ->).
  by exists sq, sr.
Qed.

(** X9. A call made [k] levels below a call runs with the same [maxDepth]
    and language and with [currentDepth] raised by [k]; when [k] is not 0
    its depth does not exceed [maxDepth] and it has neither a [retryNode]
    nor a search language. So there are never more levels below a call
    than [maxDepth - currentDepth]. *)
Theorem nested_call_depth (E : Env) (k : nat) (p p' : Params)
  (Hcalls : nsteps (calls E) k p p') :
  p_maxDepth p' = p_maxDepth p ∧
  p_languageCode p' = p_languageCode p ∧
  p_currentDepth p' = p_currentDepth p + Z.of_nat k ∧
  (k ≠ 0%nat → p_currentDepth p' ≤ p_maxDepth p ∧
               p_retryNode p' = None ∧ p_searchLanguageCode p' = None) ∧
  (k ≤ levelsLeft p)%nat.
Proof.
  induction Hcalls as [p|k p p1 p' Hstep Hrest IH].
  - split_and!; try done; lia.
  - destruct IH as (Hmd & Hlang & Hcd & Hpos & Hk).
    apply calls_shouldRecurse in Hstep as (sq & sr & -> & Hsr).
    pose proof (levelsLeft_deeper p sq sr Hsr) as Hl.
    apply shouldRecurse_depth in Hsr as [Hd _].
    simpl in *. split_and!; try done; try lia.
    intros _. destruct k as [|k].
    + inversion Hrest; subst. simpl. split_and!; [lia|done|done].
    + destruct Hpos as (? & ? & ?); [done|]. split_and!; [lia|done|done].
Qed.

(** One level below the root call of [Scenario.twoQueries]. *)
Lemma nested_call_depth_witness :
  nsteps (calls Scenario.twoQueries) 1 Scenario.rootParams Scenario.deeperA ∧
  p_currentDepth Scenario.deeperA = 0 + Z.of_nat 1.
Proof.
  split; [exact scenario_calls|].
  apply (nested_call_depth Scenario.twoQueries 1 Scenario.rootParams
           Scenario.deeperA scenario_calls).
Defined.

(** X10. A call made [k] levels below a call with breadth [b] asks for
    [ceil (b / 2^k)] queries; when [b] is at least 1 this is at least 1
    and at most [b], so the breadth never reaches 0 on the way down. *)
Theorem nested_call_breadth (E : Env) (k : nat) (p p' : Params)
  (Hcalls : nsteps (calls E) k p p') :
  p_breadth p' = (p_breadth p + 2 ^ Z.of_nat k - 1) / 2 ^ Z.of_nat k ∧
  (1 ≤ p_breadth p → 1 ≤ p_breadth p' ≤ p_breadth p).
Proof.
  assert (p_breadth p' = Nat.iter k nextBreadthOf (p_breadth p)) as Hiter.
  { induction Hcalls as [p|k p p1 p' Hstep Hrest IH]; [done|].
    apply calls_shouldRecurse in Hstep as (sq & sr & -> & _).
    rewrite IH, Nat.iter_succ_r. reflexivity. }
  split; [by rewrite Hiter, nextBreadthOf_iter|].
  rewrite Hiter. clear. intros Hb.
  induction k as [|k IH]; [simpl; lia|].
  rewrite Nat.iter_succ.
  pose proof (nextBreadthOf_bounds (Nat.iter k nextBreadthOf (p_breadth p))).
  lia.
Qed.

(** Breadth 2 becomes breadth 1 one level down. *)
Lemma nested_call_breadth_witness :
  nsteps (calls Scenario.twoQueries) 1 Scenario.rootParams Scenario.deeperA ∧
  p_breadth Scenario.deeperA = (2 + 2 ^ Z.of_nat 1 - 1) / 2 ^ Z.of_nat 1.
Proof.
  split; [exact scenario_calls|].
  apply (nested_call_breadth Scenario.twoQueries 1 Scenario.rootParams
           Scenario.deeperA scenario_calls).
Defined.

(** X11. The learnings a call inherits are handed down unchanged and in
    front: the list inherited by a call made any number of levels below
    starts with the list inherited by the call itself. *)
Theorem nested_call_learnings (E : Env) (k : nat) (p p' : Params)
  (Hcalls : nsteps (calls E) k p p') :
  default [] (p_learnings p) `prefix_of` default [] (p_learnings p').
Proof.
  induction Hcalls as [p|k p p1 p' Hstep Hrest IH]; [done|].
  apply calls_shouldRecurse in Hstep as (sq & sr & -> & _).
  etrans; [|exact IH]. simpl. unfold allLearningsOf.
  by apply prefix_app_r.
Qed.

(** The learning found for ["a"] is inherited one level down. *)
Lemma nested_call_learnings_witness :
  nsteps (calls Scenario.twoQueries) 1 Scenario.rootParams Scenario.deeperA ∧
  default [] (p_learnings Scenario.rootParams)
    `prefix_of` default [] (p_learnings Scenario.deeperA).
Proof.
  split; [exact scenario_calls|].
  apply (nested_call_learnings Scenario.twoQueries 1 Scenario.rootParams
           Scenario.deeperA scenario_calls).
Defined.

(** ** Results *)

Lemma firstOccurrences_filter (P : string → Prop) `{!∀ u, Decision (P u)}
  (ls : list Learning) :
  firstOccurrences (filter (fun l => P (url l)) ls)
  = filter (fun l => P (url l)) (firstOccurrences ls).
Proof.
  induction ls as [|l ls IH]; [done|].
  cbn [firstOccurrences]. rewrite !filter_cons.
  destruct (decide (P (url l))) as [HP|HP]; cbn [firstOccurrences].
  - f_equal. rewrite IH, !list_filter_filter. apply list_filter_iff.
    intros l'. tauto.
  - rewrite IH, list_filter_filter. apply list_filter_iff.
    intros l'. split; [|tauto]. intros HP'. split; [done|]. congruence.
Qed.

Lemma firstOccurrences_app (a b : list Learning) :
  firstOccurrences (a ++ b)
  = firstOccurrences a
    ++ filter (fun l => url l ∉ url <$> a) (firstOccurrences b).
Proof.
  induction a as [|x a IH]; simpl.
  - symmetry. apply filter_all. intros l _. apply not_elem_of_nil.
  - f_equal. rewrite IH, filter_app. f_equal.
    rewrite list_filter_filter. apply list_filter_iff.
    intros l. rewrite not_elem_of_cons. tauto.
Qed.

Lemma firstOccurrences_idem (ls : list Learning) :
  firstOccurrences (firstOccurrences ls) = firstOccurrences ls.
Proof.
  induction ls as [|l ls IH]; [done|].
  cbn [firstOccurrences]. f_equal.
  pose proof (firstOccurrences_filter (fun u => u ≠ url l) (firstOccurrences ls))
    as Hf.
  cbn beta in Hf. rewrite Hf, IH.
  rewrite list_filter_filter. apply list_filter_iff. tauto.
Qed.

Lemma firstOccurrences_absorb (a b : list Learning) :
  firstOccurrences (firstOccurrences a ++ b) = firstOccurrences (a ++ b).
Proof.
  rewrite !firstOccurrences_app, firstOccurrences_idem. f_equal.
  apply list_filter_iff. intros l. by rewrite firstOccurrences_urls.
Qed.

(** X12. Deduplication composes: deduplicating each branch result on its
    own first, as a recursive call has done for the result it hands up,
    and then deduplicating across the branches gives the same list as
    deduplicating across the branches at once; and deduplicating a list
    that is already deduplicated changes nothing. *)
Theorem dedupe_composes (results : list ResearchResult) :
  dedupe (map (fun r => mkResult (dedupe [r])) results) = dedupe results ∧
  dedupe [mkResult (dedupe results)] = dedupe results.
Proof.
  rewrite !dedupe_firstOccurrences. split.
  - unfold encountered. induction results as [|r results IH]; [done|].
    cbn [map concat resultLearnings].
    rewrite dedupe_firstOccurrences. unfold encountered at 1.
    cbn [map concat]. rewrite app_nil_r, firstOccurrences_absorb.
    rewrite !firstOccurrences_app. f_equal. f_equal. exact IH.
  - unfold encountered at 1. cbn [map concat resultLearnings].
    by rewrite app_nil_r, firstOccurrences_idem.
Qed.

(** X13. Whatever the parameters and the collaborators, the learnings a
    call resolves to have pairwise distinct urls. *)
Theorem result_urls_distinct (E : Env) (p : Params) :
  ∃ t r, deepResearch E p = (t, Returned r) ∧
         NoDup (url <$> resultLearnings r).
Proof.
  destruct (deepResearch_returns E p) as (t & r & Hd).
  exists t, r. split; [done|].
  destruct (deepResearch_cases E p)
    as [(tq & e & _ & Hd')|[(tq & sqs & rs & _ & _ & Ho & _)
                           |(tq & sqs & e & _ & _ & Ho & _)]].
  - rewrite Hd in Hd'. injection Hd' as _ ->. constructor.
  - rewrite Hd in Ho. injection Ho as ->. simpl.
    rewrite dedupe_firstOccurrences. apply firstOccurrences_NoDup.
  - rewrite Hd in Ho. injection Ho as ->. constructor.
Qed.

Section Provenance.

Context (E : Env).

Lemma last_objects_elem {V} (cs : list (chunk V)) (v : V) :
  last (objects (beforeBreak cs)) = Some v → chunk_object v ∈ cs.
Proof.
  unfold objects. induction cs as [|[v'|delta|msg|] cs IH]; simpl; try done.
  - rewrite last_cons. destruct (last _) as [v''|] eqn:Hlast.
    + intros [= ->]. right. by apply IH.
    + intros [= ->]. left.
  - intros H. right. by apply IH.
Qed.

(** What the processing of a branch returns, the branch extracted. *)
Lemma processed_found (p : Params) (q : string) (sq : NodeQuery) t sr :
  truthy (query sq) = Some q →
  processed E p q sq = (t, Returned sr) →
  ∀ l, l ∈ default [] (pr_learnings sr) → extractedBy E p sq l.
Proof.
  intros Hq. unfold processed, search.
  destruct (useWebSearch E q (p_languageCode p)) as [results|e] eqn:Hsearch;
    [|done].
  intros (t1 & results' & t2 & [= _ <-] & Hk & _)%bind_Returned.
  apply bind_Returned in Hk as (t3 & [] & t4 & _ & Hk & _).
  apply bind_Returned in Hk as (t5 & sr0 & t6 & Hloop & [= _ <-] & _).
  set (req := mkProcessRequest q results (nextBreadthOf (p_breadth p))
                (languageOf E p)) in *.
  apply (f_equal snd) in Hloop. simpl in Hloop.
  rewrite consumeProcessed_outcome in Hloop.
  destruct (thrownBy _ _); [done|]. injection Hloop as <-.
  destruct (last (objects (beforeBreak (chunks (processSearchResult E req)))))
    as [v|] eqn:Hlast; simpl; [|by intros l ?%elem_of_nil].
  apply last_objects_elem in Hlast.
  destruct (pr_learnings v) as [ls|] eqn:Hls; simpl;
    [|by intros l ?%elem_of_nil].
  intros l (l0 & -> & Hl0)%list_elem_of_fmap.
  by exists q, results, v, ls, l0.
Qed.

(** What the inner [catch] returns, when it returns. *)
Lemma branchHandler_Returned (sq : NodeQuery) (e : thrown) (r : ResearchResult) :
  (branchHandler E sq e).2 = Returned r → r = mkResult [].
Proof. destruct e as [v|m]; [done|]. by intros [= <-]. Qed.

(** How a branch that returns got its result. *)
Lemma researchBranch_result (rec : Params → Run ResearchResult)
  (p : Params) (sq : NodeQuery) (r : ResearchResult) :
  (researchBranch E rec p sq).2 = Returned r →
  r = mkResult [] ∨
  (∃ q t sr, truthy (query sq) = Some q ∧
             processed E p q sq = (t, Returned sr) ∧
             shouldRecurse (p_currentDepth p + 1) (p_maxDepth p) sr = false ∧
             r = mkResult (allLearningsOf p sr)) ∨
  (∃ sr, recursionOf E p sq = Some sr ∧
         (rec (deeperParams p sq sr)).2 = Returned r).
Proof.
  destruct (recursionOf E p sq) as [sr|] eqn:Hrec.
  - destruct (researchBranch_deeper E p sq sr Hrec) as [_ Ho]. rewrite Ho.
    destruct (rec (deeperParams p sq sr)).2 as [r'|e|] eqn:Hr; [| |done].
    + intros [= <-]. right. right. by exists sr.
    + intros ->%branchHandler_Returned. by left.
  - revert Hrec. unfold recursionOf, researchBranch, branchBody.
    destruct (truthy (query sq)) as [q|]; [|intros _ [= <-]; by left].
    destruct (processed E p q sq) as [tp [sr|e|]] eqn:Hp; simpl.
    + destruct (shouldRecurse _ _ sr) eqn:Hsr; [done|].
      intros _ [= <-]. right. left. by exists q, tp, sr.
    + intros _ ->%branchHandler_Returned. by left.
    + done.
Qed.

Lemma elem_of_dedupe (rs : list ResearchResult) (l : Learning) :
  l ∈ dedupe rs → ∃ r, r ∈ rs ∧ l ∈ resultLearnings r.
Proof.
  rewrite dedupe_firstOccurrences. intros Hl.
  apply (elem_of_sublist _ (encountered rs)) in Hl;
    [|apply firstOccurrences_sublist].
  unfold encountered in Hl.
  induction rs as [|r rs IH]; simpl in Hl; [by apply elem_of_nil in Hl|].
  apply elem_of_app in Hl as [Hl|Hl].
  - exists r. split; [left|done].
  - destruct (IH Hl) as (r' & Hr' & Hl').
    exists r'. split; [by right|done].
Qed.

Lemma map_Returned_elem {A} (f : A → outcome ResearchResult) (xs : list A)
  (rs : list ResearchResult) (r : ResearchResult) :
  map f xs = map Returned rs → r ∈ rs → ∃ x, x ∈ xs ∧ f x = Returned r.
Proof.
  revert rs. induction xs as [|x xs IH]; intros [|r' rs]; simpl; try done.
  - by intros _ ?%elem_of_nil.
  - intros [= Hx Hrest] [->|Hr]%elem_of_cons.
    + exists x. split; [left|done].
    + destruct (IH rs Hrest Hr) as (y & Hy & Hfy).
      exists y. split; [by right|done].
Qed.

Lemma map_Returned_at {A} (f : A → outcome ResearchResult) (xs : list A)
  (rs : list ResearchResult) (x : A) (r : ResearchResult) :
  map f xs = map Returned rs → x ∈ xs → f x = Returned r → r ∈ rs.
Proof.
  intros Hmap Hx Hfx. revert rs Hmap.
  induction xs as [|y xs IH]; intros [|r' rs]; cbn [map]; try done.
  - by apply elem_of_nil in Hx.
  - intros [= Hy Hrest]. apply elem_of_cons in Hx as [->|Hx].
    + rewrite Hfx in Hy. injection Hy as ->. left.
    + right. by apply IH.
Qed.

(** Every learning of a result was inherited or found in the run. *)
Lemma deepResearch_provenance (p : Params) (l : Learning) :
  (∃ r, (deepResearch E p).2 = Returned r ∧ l ∈ resultLearnings r) →
  l ∈ default [] (p_learnings p) ∨ found E p l.
Proof.
  induction p as [p IH] using (deeper_ind E).
  intros (r & Hr & Hl).
  destruct (deepResearch_cases E p)
    as [(tq & e & _ & Hd)|[(tq & sqs & rs & Hq & Hrs & Ho & _)
                          |(tq & sqs & e & _ & _ & Ho & _)]].
  - rewrite Hd in Hr. injection Hr as <-. by apply elem_of_nil in Hl.
  - rewrite Ho in Hr. injection Hr as <-. simpl in Hl.
    apply elem_of_dedupe in Hl as (rb & Hrb & Hl).
    destruct (map_Returned_elem _ _ _ _ Hrs Hrb) as (sq & Hsq & Hb).
    assert (∀ q t sr, truthy (query sq) = Some q →
                      processed E p q sq = (t, Returned sr) →
                      l ∈ default [] (pr_learnings sr) → found E p l) as Hhere.
    { intros q t sr Hqs Hp Hin. exists 0%nat, p, tq, sqs, sq.
      split; [constructor|]. split; [done|]. split; [done|].
      by eapply processed_found. }
    apply researchBranch_result in Hb
      as [->|[(q & t & sr & Hqs & Hp & _ & ->)|(sr & Hrec & Hdeep)]].
    + by apply elem_of_nil in Hl.
    + simpl in Hl. unfold allLearningsOf in Hl.
      apply elem_of_app in Hl as [Hl|Hl]; [by left|right].
      by eapply Hhere.
    + destruct (IH sq sr Hrec) as [Hin|Hfound]; [by exists rb| |right].
      * simpl in Hin. unfold allLearningsOf in Hin.
        apply elem_of_app in Hin as [Hin|Hin]; [by left|right].
        apply recursionOf_Some in Hrec as (q & t & Hqs & Hp & _).
        by eapply Hhere.
      * destruct Hfound as (k & p' & tq' & sqs' & sq' & Hcalls & Hfound).
        exists (S k), p', tq', sqs', sq'. split; [|done].
        eapply nsteps_l; [|exact Hcalls].
        by exists tq, sqs, sq, sr.
  - rewrite Ho in Hr. injection Hr as <-. by apply elem_of_nil in Hl.
Qed.

End Provenance.

(** X14. A call invents no learning: every learning it resolves to was
    either passed in as inherited, or extracted by a branch of the call
    or of a call made below it, from the results of that branch's own
    search and with the title taken from those results. *)
Theorem result_provenance (E : Env) (p : Params) :
  ∃ t r, deepResearch E p = (t, Returned r) ∧
         ∀ l, l ∈ resultLearnings r →
              l ∈ default [] (p_learnings p) ∨ found E p l.
Proof.
  destruct (deepResearch_returns E p) as (t & r & Hd).
  exists t, r. split; [done|]. intros l Hl.
  apply deepResearch_provenance. exists r. by rewrite Hd.
Qed.

(** In [Scenario.twoQueries] the learning of the result was extracted by
    the branch of ["b"], whose search found the page titled [T]. *)
Example result_provenance_scenario :
  (deepResearch Scenario.twoQueries Scenario.rootParams).2
  = Returned (mkResult [mkLearning "u-b" "lb" (Some "T")]) ∧
  extractedBy Scenario.twoQueries Scenario.rootParams Scenario.queryB
    (mkLearning "u-b" "lb" (Some "T")).
Proof.
  split; [reflexivity|].
  exists "b", [Scenario.page "u-b"],
    (mkPartialProcessed (Some [mkLearning "u-b" "lb" None]) (Some [])),
    [mkLearning "u-b" "lb" None], (mkLearning "u-b" "lb" None).
  split_and!; try reflexivity; left.
Qed.

(** X15. When the branches of a call all return, and one of them gets
    its processed result and does not go deeper, the call's result has a
    learning for every url that was inherited and for every url of that
    processed result: the inherited learnings survive. *)
Theorem leaf_keeps_inherited (E : Env) (p : Params) (tq t : trace)
  (sqs : list NodeQuery) (sq : NodeQuery) (q : string)
  (sr : PartialProcessedSearchResult)
  (Hsource : querySource E p = (tq, Returned sqs))
  (Hall : ∀ sq', sq' ∈ sqs →
                 ∃ r', (researchBranch E (deepResearch E) p sq').2 = Returned r')
  (Hsq : sq ∈ sqs)
  (Hq : truthy (query sq) = Some q)
  (Hprocessed : processed E p q sq = (t, Returned sr))
  (Hleaf : shouldRecurse (p_currentDepth p + 1) (p_maxDepth p) sr = false) :
  ∃ t' r, deepResearch E p = (t', Returned r) ∧
          ∀ l, l ∈ default [] (p_learnings p) ++ default [] (pr_learnings sr) →
               url l ∈ url <$> resultLearnings r.
Proof.
  destruct (deepResearch_returns E p) as (t' & r & Hd).
  exists t', r. split; [done|]. intros l Hl.
  destruct (map_Returned_exists
              (fun sq => (researchBranch E (deepResearch E) p sq).2) sqs Hall)
    as [rs Hrs].
  destruct (deepResearchBody_returned E (deepResearch E) p tq sqs rs Hsource Hrs)
    as [Ho _].
  rewrite <- deepResearch_unfold, Hd in Ho. injection Ho as ->. simpl.
  rewrite dedupe_firstOccurrences, firstOccurrences_urls.
  assert ((researchBranch E (deepResearch E) p sq).2
          = Returned (mkResult (allLearningsOf p sr))) as Hb.
  { unfold researchBranch, branchBody. rewrite Hq, Hprocessed.
    unfold mbind, Run_bind. simpl. by rewrite Hleaf. }
  pose proof (map_Returned_at _ _ _ _ _ Hrs Hsq Hb) as Hin.
  apply list_elem_of_fmap. exists l. split; [done|].
  unfold encountered. eapply elem_of_concat_map; [exact Hin|done].
Qed.

(** The root call of [Scenario.plain] with an inherited learning. *)
Lemma leaf_keeps_inherited_witness :
  "u0" ∈ url <$> match (deepResearch Scenario.plain Scenario.inheriting).2 with
                 | Returned r => resultLearnings r
                 | _ => []
                 end.
Proof.
  destruct (leaf_keeps_inherited Scenario.plain Scenario.inheriting
              (querySource Scenario.plain Scenario.inheriting).1
              (processed Scenario.plain Scenario.inheriting "a" Scenario.queryA).1
              [Scenario.queryA; Scenario.queryB] Scenario.queryA "a"
              (mkPartialProcessed (Some [mkLearning "u-a" "l" (Some "T")])
                 (Some [])))
    as (t' & r & Hd & Hall);
    [reflexivity| |left|reflexivity|reflexivity|reflexivity|].
  - intros sq' [->|[->|[]%elem_of_nil]%elem_of_cons]%elem_of_cons;
      eexists; reflexivity.
  - rewrite Hd. simpl.
    apply (Hall (mkLearning "u0" "known" None)). left.
Defined.

(** ** The order of a run *)

Lemma execution_finished (l : list action) (t : trace) :
  finished t = true → execution l t = true → l = [].
Proof.
  intros Hf. destruct l as [|a l]; [done|].
  cbn [execution]. by rewrite (finished_enabled _ Hf).
Qed.

(** When no promise of [t1] rejects, what follows [t1] starts after all
    of it. *)
Lemma execution_Then (l : list action) (t1 t2 : trace) :
  awaited t1 = true →
  execution l (Then t1 t2) = true →
  ∃ l1 l2, l = l1 ++ l2 ∧ execution l1 t1 = true ∧ execution l2 t2 = true.
Proof.
  revert t1 t2. induction l as [|a l IH]; intros t1 t2 Haw.
  - cbn [execution finished]. intros [H1 H2]%andb_true_iff. by exists [], [].
  - cbn [execution enabled].
    intros ([b t'] & Hin & Hb)%existsb_exists.
    apply andb_true_iff in Hb as [Hab Hex]. cbn [fst snd] in *.
    apply bool_decide_eq_true in Hab as ->.
    apply list_elem_of_In, elem_of_app in Hin as [Hin|Hin].
    + apply list_elem_of_fmap in Hin as ([b' t1'] & [= -> ->] & Hin).
      destruct (IH _ _ (awaited_enabled _ _ _ Haw Hin) Hex)
        as (l1 & l2 & -> & H1 & H2).
      exists (b' :: l1), l2. split_and!; [done| |done].
      cbn [execution]. apply existsb_exists. exists (b', t1').
      split; [by apply list_elem_of_In|].
      cbn [fst snd]. by rewrite bool_decide_eq_true_2, H1.
    + destruct (settled t1) eqn:Hs; [|by apply elem_of_nil in Hin].
      destruct (awaited_settled _ Haw) as [_ Hf]. rewrite Hs in Hf.
      apply list_elem_of_fmap in Hin as ([b' t2'] & [= -> ->] & Hin).
      destruct (IH _ _ Haw Hex) as (l1 & l2 & -> & H1 & H2).
      rewrite (execution_finished l1 t1) by done.
      exists [], (b' :: l2). split_and!; [done|by symmetry|].
      cbn [execution]. apply existsb_exists. exists (b', t2').
      split; [by apply list_elem_of_In|].
      cbn [fst snd]. by rewrite bool_decide_eq_true_2, H2.
Qed.

Lemma sequential_awaited (t : trace) : sequential t = true → awaited t = true.
Proof.
  induction t as [|a|t1 IH1 t2 IH2|t1 IH1 t2 IH2|t IH]; simpl; try done.
  intros [H1 H2]%andb_true_iff. by rewrite IH1, IH2.
Qed.

(** A trace without [Both] has one execution. *)
Lemma execution_sequential (l : list action) (t : trace) :
  sequential t = true → execution l t = true → l = flat t.
Proof.
  revert l. induction t as [|a|t1 IH1 t2 IH2|t1 _ t2 _|t _]; intros l; simpl.
  - intros _. by destruct l.
  - intros _. destruct l as [|b [|c l]]; simpl; try done.
    + rewrite orb_false_r, andb_true_r. by intros ->%bool_decide_eq_true.
    + by rewrite orb_false_r, andb_false_r.
  - intros [H1 H2]%andb_true_iff Hex.
    apply execution_Then in Hex as (l1 & l2 & -> & Hl1 & Hl2);
      [|by apply sequential_awaited].
    by rewrite (IH1 _ H1 Hl1), (IH2 _ H2 Hl2).
  - done.
  - done.
Qed.

Lemma sequential_bind {A B} (m : Run A) (k : A → Run B) :
  sequential m.1 = true → (∀ a, sequential (k a).1 = true) →
  sequential (m ≫= k).1 = true.
Proof.
  intros Hm Hk. destruct m as [t [a| |]]; unfold mbind, Run_bind; simpl in *;
    [|done|done].
  by rewrite Hm, Hk.
Qed.

Lemma sequential_forEach {A} (xs : list A) (f : A → ResearchStep) :
  sequential (forEach xs (fun x => onProgress (f x))).1 = true.
Proof.
  induction xs as [|x xs IH]; cbn [forEach]; [done|].
  by apply sequential_bind.
Qed.

Lemma sequential_consumeQueries (E : Env) (nodeId0 : string) cs fail sqs :
  sequential (consumeQueries E nodeId0 cs fail sqs).1 = true.
Proof.
  revert sqs. induction cs as [|[v|delta|msg|] cs IH]; intros sqs;
    cbn [consumeQueries].
  - by destruct fail.
  - destruct (queries v); [|done].
    apply sequential_bind; [apply sequential_forEach|done].
  - by apply sequential_bind.
  - by apply sequential_bind.
  - by apply sequential_bind.
Qed.

Lemma sequential_querySource (E : Env) (p : Params) :
  sequential (querySource E p).1 = true.
Proof.
  unfold querySource. destruct (nonRootRetry p); [done|].
  apply sequential_bind; [apply sequential_consumeQueries|]. intros sqs.
  apply sequential_bind; [done|]. intros _.
  apply sequential_bind; [apply sequential_forEach|done].
Qed.

Lemma sequential_consumeProcessed (E : Env) (q nodeId0 : string) cs fail sr :
  sequential (consumeProcessed E q nodeId0 cs fail sr).1 = true.
Proof.
  revert sr. induction cs as [|[v|delta|msg|] cs IH]; intros sr;
    cbn [consumeProcessed].
  - by destruct fail.
  - by apply sequential_bind.
  - by apply sequential_bind.
  - by apply sequential_bind.
  - by apply sequential_bind.
Qed.

Lemma sequential_processed (E : Env) (p : Params) (q : string) (sq : NodeQuery) :
  sequential (processed E p q sq).1 = true.
Proof.
  unfold processed. apply sequential_bind.
  { unfold search. by destruct (useWebSearch E q _). }
  intros results. apply sequential_bind; [done|]. intros _.
  apply sequential_bind; [apply sequential_consumeProcessed|done].
Qed.

Lemma tidy_promiseAll {A} (units : list (Run A)) :
  Forall tidy units → tidy (promiseAll units).
Proof.
  unfold tidy, promiseAll. cbn [fst snd].
  induction 1 as [|u units [Hu [a Ha]] _ [IH1 [l IH2]]];
    cbn [map foldr awaited allReturned].
  - split; [done|by exists []].
  - unfold unitTrace at 1. rewrite Ha, Hu, IH1, IH2. split; [done|by eexists].
Qed.

Section Readable.

Context (E : Env) (Hread : noNullish E).

(** What the processing of a branch throws is not [null] or [undefined]. *)
Lemma processed_readable (p : Params) (q : string) (sq : NodeQuery) (e : thrown) :
  (processed E p q sq).2 = Threw e → ∃ m, e = mkThrown m.
Proof.
  destruct Hread as [Hsearch Hstream].
  unfold processed, search.
  destruct (useWebSearch E q (p_languageCode p)) as [results|e'] eqn:Hs.
  - rewrite outcome_bind. cbn [mret Run_ret snd].
    rewrite outcome_bind. cbn [onProgress act snd].
    rewrite outcome_bind, consumeProcessed_outcome. unfold thrownBy.
    destruct (existsb breaking _); [done|].
    destruct (failure _) as [[v|m]|] eqn:Hf; [|intros [= <-]; by exists m|done].
    by destruct (Hstream _ _ Hf).
  - cbn [throw mbind Run_bind snd]. intros [= <-].
    destruct e' as [v|m]; [|by exists m]. by destruct (Hsearch _ _ _ Hs).
Qed.

Lemma researchBranch_tidy (rec : Params → Run ResearchResult)
  (p : Params) (sq : NodeQuery) :
  (∀ sr, shouldRecurse (p_currentDepth p + 1) (p_maxDepth p) sr = true →
         tidy (rec (deeperParams p sq sr))) →
  tidy (researchBranch E rec p sq).
Proof.
  intros Hrec. unfold researchBranch, branchBody.
  destruct (truthy (query sq)) as [q|]; [|split; [done|by eexists]].
  pose proof (sequential_awaited _ (sequential_processed E p q sq)) as Hseq.
  pose proof (processed_runs E p q sq) as [_ Hfuel].
  pose proof (processed_readable p q sq) as Hthrew.
  destruct (processed E p q sq) as [tp [sr|e|]]; cbn [fst snd] in *; [| |done].
  - unfold mbind, Run_bind. cbn [onProgress act fst snd].
    destruct (shouldRecurse _ _ sr) eqn:Hsr.
    + destruct (Hrec sr Hsr) as [Hr [r Ho]].
      destruct (rec (deeperParams p sq sr)) as [tr or]. cbn [fst snd] in *.
      subst or. unfold tidy. simpl. rewrite Hseq, Hr. split; [done|by eexists].
    + unfold tidy. simpl. rewrite Hseq. split; [done|by eexists].
  - destruct (Hthrew e eq_refl) as [m ->].
    unfold tidy. simpl. rewrite Hseq. split; [done|by eexists].
Qed.

Lemma deepResearchBody_tidy (rec : Params → Run ResearchResult) (p : Params) :
  (∀ sq sr, shouldRecurse (p_currentDepth p + 1) (p_maxDepth p) sr = true →
            tidy (rec (deeperParams p sq sr))) →
  tidy (deepResearchBody E rec p).
Proof.
  intros Hrec.
  pose proof (sequential_awaited _ (sequential_querySource E p)) as Hseq.
  pose proof (querySource_runs E p) as [_ Hfuel].
  destruct (querySource E p) as [tq [sqs|e|]] eqn:Hq; cbn [fst snd] in *;
    [| |done].
  - assert (Forall tidy (map (researchBranch E rec p) sqs)) as Hunits.
    { apply Forall_fmap, Forall_forall. intros sq _.
      apply researchBranch_tidy. intros sr. apply Hrec. }
    destruct (tidy_promiseAll _ Hunits) as [Hall _].
    destruct (map_Returned_exists (fun sq => (researchBranch E rec p sq).2) sqs)
      as [rs Hrs].
    { intros sq _. by destruct (researchBranch_tidy rec p sq (Hrec sq)). }
    unfold deepResearchBody.
    rewrite (nodeBody_returned E rec p tq sqs rs Hq Hrs).
    unfold tidy. cbn [tryCatch fst snd awaited].
    rewrite Hseq, Hall. split; [by case_decide|by eexists].
  - rewrite (deepResearchBody_threw E rec p tq e Hq).
    unfold tidy. cbn [fst snd awaited]. rewrite Hseq. split; [done|by eexists].
Qed.

(** When the collaborators never fail with [null] or [undefined], no
    promise of a call rejects. *)
Lemma deepResearch_tidy (p : Params) : tidy (deepResearch E p).
Proof.
  revert p. apply (deepResearch_ind E (fun _ run => tidy run)).
  apply deepResearchBody_tidy.
Qed.

Lemma deepResearch_branches_return (p : Params) (sqs : list NodeQuery) :
  ∃ rs, map (fun sq => (researchBranch E (deepResearch E) p sq).2) sqs
        = map Returned rs.
Proof.
  apply map_Returned_exists. intros sq _.
  apply researchBranch_tidy. intros sr _. apply deepResearch_tidy.
Qed.

End Readable.

(** X16. When the collaborators never fail with [null] or [undefined]:
    in every execution of a call whose query generation returns, the
    steps of query generation come first, in the order of the source;
    then come the actions of the branches, interleaved in some way; at
    the root the [complete] step, carrying the result, is the very last
    action, and elsewhere nothing follows the branches. *)
Theorem run_order (E : Env) (p : Params) (tq : trace) (sqs : list NodeQuery)
  (Hread : noNullish E)
  (Hq : querySource E p = (tq, Returned sqs)) :
  ∃ r, (deepResearch E p).2 = Returned r ∧
       ∀ l, execution l (deepResearch E p).1 = true →
            ∃ lb, l = flat tq ++ lb
                      ++ (if decide (effectiveNodeId p = "0")
                          then [Progress (complete (resultLearnings r))]
                          else []) ∧
                  execution lb
                    (promiseAll (map (researchBranch E (deepResearch E) p) sqs)).1
                  = true.
Proof.
  destruct (deepResearch_branches_return E Hread p sqs) as [rs Hrs].
  pose proof (nodeBody_returned E (deepResearch E) p tq sqs rs Hq Hrs) as Hbody.
  assert (deepResearch E p
          = (Then tq
               (Then (promiseAll (map (researchBranch E (deepResearch E) p) sqs)).1
                  (Then (if decide (effectiveNodeId p = "0")
                         then Act (Progress (complete (dedupe rs))) else Done)
                     Done)),
             Returned (mkResult (dedupe rs)))) as Hd.
  { rewrite deepResearch_unfold. unfold deepResearchBody. by rewrite Hbody. }
  destruct (deepResearch_tidy E Hread p) as [Haw _].
  exists (mkResult (dedupe rs)). rewrite Hd in Haw |- *. split; [done|].
  cbn [fst resultLearnings awaited] in *.
  apply andb_true_iff in Haw as [Hawq Haw].
  apply andb_true_iff in Haw as [Hawb _].
  intros l Hl.
  apply execution_Then in Hl as (lq & l' & -> & Hlq & Hl'); [|done].
  apply execution_Then in Hl' as (lb & lc & -> & Hlb & Hlc); [|done].
  exists lb. split; [|done].
  pose proof (sequential_querySource E p) as Hseq. rewrite Hq in Hseq.
  rewrite (execution_sequential _ _ Hseq Hlq). do 2 f_equal.
  case_decide; (apply execution_sequential in Hlc; [|done]); by rewrite Hlc.
Qed.

(** The execution [Scenario.slowSibling] ends with [complete]. *)
Lemma run_order_witness :
  noNullish Scenario.twoQueries ∧
  ∃ lb, Scenario.slowSibling
        = flat (querySource Scenario.twoQueries Scenario.rootParams).1 ++ lb
          ++ [Progress (complete [mkLearning "u-b" "lb" (Some "T")])].
Proof.
  assert (noNullish Scenario.twoQueries) as Hread.
  { split; [done|]. intros req v. simpl. by case_decide. }
  split; [exact Hread|].
  destruct (run_order Scenario.twoQueries Scenario.rootParams
              (querySource Scenario.twoQueries Scenario.rootParams).1
              [Scenario.queryA; Scenario.queryB] Hread eq_refl)
    as (r & Hr & Hl).
  injection Hr as <-.
  destruct (Hl Scenario.slowSibling eq_refl) as (lb & Hlb & _).
  exists lb. exact Hlb.
Defined.

(** Without that condition the order is lost. In [Scenario.searchRejects]
    the call settles as soon as the branch of ["a"] has rejected: the
    search of the branch of ["b"] is still pending, and that branch goes
    on after the outer [catch] has reported the error for the root. *)
Example sibling_runs_on_after_rejection :
  execution
    [ Progress (generating_query Scenario.queryA "0-0" "0");
      Progress (generating_query Scenario.queryB "0-1" "0");
      Progress (node_complete None "0");
      Progress (generated_query (Some "a") Scenario.queryA "0-0");
      Progress (generated_query (Some "b") Scenario.queryB "0-1");
      Admit "0-0";
      Progress (searching "a" "0-0");
      Admit "0-1";
      Progress (searching "b" "0-1");
      Release "0-0";
      Progress (error
                  (Some "Cannot read properties of undefined (reading 'message')")
                  "0");
      Progress (search_complete [Scenario.page "u-b"] "0-1");
      Progress (processing_serach_result "b"
                  (mkPartialProcessed (Some [mkLearning "u-b" "lb" None])
                     (Some [])) "0-1");
      Progress (node_complete
                  (Some (mkProcessed [mkLearning "u-b" "lb" (Some "T")] []))
                  "0-1");
      Release "0-1" ]
    (deepResearch Scenario.searchRejects Scenario.rootParams).1 = true.
Proof. vm_compute. reflexivity. Qed.

(** ** The reach of a run *)

Lemma append_nil_r (s : string) : s +:+ "" = s.
Proof.
  induction s as [|c s IH]; [done|].
  change (String c (s +:+ "") = String c s). by rewrite IH.
Qed.

Lemma within_refl (nid : string) : within nid nid.
Proof. exists "". by rewrite append_nil_r. Qed.

Lemma within_trans (a b c : string) : within a b → within b c → within a c.
Proof.
  intros [s1 ->] [s2 ->]. exists (s1 +:+ s2). apply append_assoc.
Qed.

Lemma within_child (nid : string) (i : Z) : within nid (childNodeId nid i).
Proof. by exists ("-" +:+ pretty i). Qed.

Lemma staysWithin_app (nid : string) (l1 l2 : list action) :
  staysWithin nid (l1 ++ l2) ↔ staysWithin nid l1 ∧ staysWithin nid l2.
Proof. apply Forall_app. Qed.

Lemma staysWithin_weaken (nid nid' : string) (l : list action) :
  within nid nid' → staysWithin nid' l → staysWithin nid l.
Proof.
  intros Hw Hl. eapply Forall_impl; [exact Hl|]. intros a Ha.
  eapply Forall_impl; [exact Ha|]. intros m Hm. by eapply within_trans.
Qed.

Lemma staysWithin_own (nid nid' : string) (l : list action) :
  within nid nid' →
  Forall (fun a => branchAction nid' a = true) l → staysWithin nid l.
Proof.
  intros Hw Hl. eapply Forall_impl; [exact Hl|]. intros a Ha.
  destruct a as [[? ? ?|? ?|? ? ?|? ?|? ?|? ? ?|? ?|[?|] ?|? ?|?]|?|?| |];
    simpl in *; try done;
    apply bool_decide_eq_true in Ha as ->; by repeat constructor.
Qed.

Lemma staysWithin_concat {A} (nid : string) (f : A → list action) (l : list A) :
  (∀ x, x ∈ l → staysWithin nid (f x)) → staysWithin nid (concat (map f l)).
Proof.
  induction l as [|x l IH]; intros H; simpl; [constructor|].
  apply staysWithin_app. split; [apply H; left|].
  apply IH. intros y Hy. apply H. by right.
Qed.

Section Reach.

Context (E : Env).

Lemma settleQueries_within (nodeId0 : string) qs :
  Forall (fun sq => within nodeId0 (nodeId sq)) (settleQueries nodeId0 qs).
Proof.
  apply Forall_lookup. intros i c Hc.
  rewrite (settleQueries_nodeId _ _ _ _ Hc). apply within_child.
Qed.

Lemma consumeQueries_within (nodeId0 : string) cs fail sqs :
  Forall (fun sq => within nodeId0 (nodeId sq)) sqs →
  staysWithin nodeId0 (flat (consumeQueries E nodeId0 cs fail sqs).1) ∧
  ∀ sqs', (consumeQueries E nodeId0 cs fail sqs).2 = Returned sqs' →
          Forall (fun sq => within nodeId0 (nodeId sq)) sqs'.
Proof.
  pose proof (within_refl nodeId0) as Hrefl.
  revert sqs. induction cs as [|[v|delta|msg|] cs IH]; intros sqs Hsqs;
    cbn [consumeQueries].
  - destruct fail; (split; [constructor|]); [done|]. by intros sqs' [= <-].
  - destruct (queries v) as [qs|]; [|by apply IH].
    pose proof (settleQueries_within nodeId0 qs) as Hqs.
    destruct (IH _ Hqs) as [IH1 IH2].
    rewrite flat_bind, outcome_bind, forEach_outcome, flat_forEach.
    split; [|done]. apply staysWithin_app. split; [|done].
    apply Forall_fmap. eapply Forall_impl; [exact Hqs|].
    intros q Hq. simpl. by repeat constructor.
  - destruct (IH _ Hsqs) as [IH1 IH2].
    rewrite flat_bind, outcome_bind. simpl. split; [|done].
    constructor; [by repeat constructor|exact IH1].
  - rewrite flat_bind, outcome_bind. simpl. split.
    + by repeat constructor.
    + by intros sqs' [= <-].
  - rewrite flat_bind, outcome_bind. simpl. split.
    + by repeat constructor.
    + by intros sqs' [= <-].
Qed.

Lemma querySource_within (p : Params) :
  staysWithin (effectiveNodeId p) (flat (querySource E p).1) ∧
  ∀ sqs, (querySource E p).2 = Returned sqs →
         Forall (fun sq => within (effectiveNodeId p) (nodeId sq)) sqs.
Proof.
  unfold querySource, effectiveNodeId.
  destruct (nonRootRetry p) as [node|].
  - split; [constructor|]. intros sqs [= <-].
    repeat constructor. apply within_refl.
  - set (nodeId0 := default "0" (p_nodeId p)).
    set (st := generateSearchQueries E _).
    pose proof (within_refl nodeId0) as Hrefl.
    destruct (consumeQueries_within nodeId0 (chunks st) (failure st) [])
      as [Hc1 Hc2]; [constructor|].
    rewrite flat_bind, outcome_bind.
    destruct (consumeQueries E nodeId0 (chunks st) (failure st) []).2
      as [sqs'| |] eqn:Hc.
    + specialize (Hc2 sqs' eq_refl).
      rewrite flat_bind, outcome_bind. cbn [onProgress act fst snd flat].
      rewrite flat_bind, outcome_bind, forEach_outcome, flat_forEach.
      simpl. split.
      * apply staysWithin_app. split; [done|].
        constructor; [by repeat constructor|]. rewrite app_nil_r.
        apply Forall_fmap. eapply Forall_impl; [exact Hc2|].
        intros q Hq. simpl. by repeat constructor.
      * by intros sqs [= <-].
    + rewrite app_nil_r. by split.
    + rewrite app_nil_r. by split.
Qed.

Lemma deepResearch_within (p : Params) :
  staysWithin (effectiveNodeId p) (flat (deepResearch E p).1).
Proof.
  induction p as [p IH] using (deeper_ind E).
  destruct (querySource_within p) as [Hq1 Hq2].
  assert (∀ tq sqs, querySource E p = (tq, Returned sqs) →
    staysWithin (effectiveNodeId p)
      (concat (map (fun sq => flat (researchBranch E (deepResearch E) p sq).1)
                 sqs))) as Hbranches.
  { intros tq sqs Hq. rewrite Hq in Hq2. specialize (Hq2 sqs eq_refl).
    rewrite Forall_forall in Hq2.
    apply staysWithin_concat. intros sq Hsq. specialize (Hq2 sq Hsq).
    destruct (recursionOf E p sq) as [sr|] eqn:Hsr.
    + destruct (researchBranch_deeper E p sq sr Hsr) as [Hcall _].
      destruct (Hcall (deepResearch E)) as (pre & post & Hf & Hpre & Hpost).
      rewrite Hf. apply staysWithin_app. split.
      { by eapply staysWithin_own. }
      constructor; [constructor|]. apply staysWithin_app. split.
      * eapply staysWithin_weaken; [|exact (IH sq sr Hsr)].
        by rewrite effectiveNodeId_deeper.
      * constructor; [constructor|]. by eapply staysWithin_own.
    + destruct (researchBranch_leaf E p sq Hsr) as (t & r & Hb & _ & Hown).
      rewrite Hb. by eapply staysWithin_own. }
  destruct (deepResearch_cases E p)
    as [(tq & e & Hq & Hd)|[(tq & sqs & rs & Hq & Hrs & Ho & Hflat)
                           |(tq & sqs & e & Hq & He & Ho & Hflat)]];
    rewrite Hq in Hq1; cbn [fst snd] in *.
  - rewrite Hd. cbn [fst flat]. apply staysWithin_app. split; [done|].
    repeat constructor. apply within_refl.
  - rewrite Hflat. apply staysWithin_app. split; [done|].
    apply staysWithin_app. split; [|case_decide; by repeat constructor].
    by eapply Hbranches.
  - rewrite Hflat. apply staysWithin_app. split; [done|].
    apply staysWithin_app. split; [by eapply Hbranches|].
    repeat constructor. apply within_refl.
Qed.

End Reach.

(** X17. A call stays within its subtree: in every execution, every node
    id that a progress step, an admission or a release mentions is the id
    of the call's node extended by some suffix. *)
Theorem run_stays_within_subtree (E : Env) (p : Params) (l : list action)
  (Hl : execution l (deepResearch E p).1 = true) :
  staysWithin (effectiveNodeId p) l.
Proof.
  apply execution_flat in Hl. unfold staysWithin. rewrite Hl.
  apply deepResearch_within.
Qed.

(** The execution [Scenario.slowSibling] of the root call. *)
Lemma run_stays_within_subtree_witness :
  execution Scenario.slowSibling
    (deepResearch Scenario.twoQueries Scenario.rootParams).1 = true ∧
  staysWithin "0" Scenario.slowSibling.
Proof.
  split; [reflexivity|].
  apply (run_stays_within_subtree Scenario.twoQueries Scenario.rootParams).
  reflexivity.
Defined.

(** ** Runs without failure *)

Lemma noError_flat_forEach {A} (xs : list A) (f : A → ResearchStep) :
  (∀ x, noError (Progress (f x)) = true) →
  Forall (fun a => noError a = true)
         (flat (forEach xs (fun x => onProgress (f x))).1).
Proof.
  intros Hf. rewrite flat_forEach. apply Forall_fmap.
  apply Forall_forall. intros x _. apply Hf.
Qed.

Lemma Forall_concat_map {A B} (P : B → Prop) (f : A → list B) (l : list A) :
  (∀ x, Forall P (f x)) → Forall P (concat (map f l)).
Proof.
  intros H. induction l as [|x l IH]; simpl; [constructor|].
  apply Forall_app. by split.
Qed.

Section FailureFree.

Context (E : Env) (Hfree : failureFree E).

Lemma consumeQueries_noError (nodeId0 : string) cs sqs :
  existsb breaking cs = false →
  Forall (fun a => noError a = true)
         (flat (consumeQueries E nodeId0 cs None sqs).1).
Proof.
  revert sqs. induction cs as [|[v|delta|msg|] cs IH]; intros sqs Hcs;
    cbn [consumeQueries].
  - constructor.
  - destruct (queries v); [|by apply IH].
    rewrite flat_bind, forEach_outcome. apply Forall_app.
    split; [by apply noError_flat_forEach|by apply IH].
  - rewrite flat_bind. simpl. constructor; [done|by apply IH].
  - discriminate Hcs.
  - discriminate Hcs.
Qed.

Lemma consumeProcessed_noError (q nodeId0 : string) cs sr :
  existsb breaking cs = false →
  Forall (fun a => noError a = true)
         (flat (consumeProcessed E q nodeId0 cs None sr).1).
Proof.
  revert sr. induction cs as [|[v|delta|msg|] cs IH]; intros sr Hcs;
    cbn [consumeProcessed].
  - constructor.
  - rewrite flat_bind. simpl. constructor; [done|by apply IH].
  - rewrite flat_bind. simpl. constructor; [done|by apply IH].
  - discriminate Hcs.
  - discriminate Hcs.
Qed.

Lemma querySource_noError (p : Params) :
  Forall (fun a => noError a = true) (flat (querySource E p).1) ∧
  ∃ sqs, (querySource E p).2 = Returned sqs.
Proof.
  destruct Hfree as (Hgen & _ & _).
  unfold querySource. destruct (nonRootRetry p); [split; [constructor|eauto]|].
  set (nodeId0 := default "0" (p_nodeId p)).
  set (st := generateSearchQueries E _).
  destruct (Hgen (mkQueriesRequest (p_query p) (map learning <$> p_learnings p)
                    (p_breadth p) (languageOf E p) (searchLanguageOf E p)))
    as [Hcs Hfail].
  fold st in Hcs, Hfail. rewrite Hfail.
  pose proof (consumeQueries_outcome E nodeId0 (chunks st) None []) as Ho.
  unfold thrownBy in Ho. rewrite Hcs in Ho.
  rewrite flat_bind, outcome_bind, Ho.
  rewrite flat_bind, outcome_bind. cbn [onProgress act fst snd flat].
  rewrite flat_bind, outcome_bind, forEach_outcome. simpl. split; [|eauto].
  apply Forall_app. split; [by apply consumeQueries_noError|].
  constructor; [done|]. rewrite app_nil_r. by apply noError_flat_forEach.
Qed.

Lemma processed_noError (p : Params) (q : string) (sq : NodeQuery) :
  Forall (fun a => noError a = true) (flat (processed E p q sq).1) ∧
  ∃ sr, (processed E p q sq).2 = Returned sr.
Proof.
  destruct Hfree as (_ & Hproc & Hsearch).
  unfold processed, search.
  destruct (Hsearch q (p_languageCode p)) as [results ->].
  rewrite flat_bind, outcome_bind. cbn [mret Run_ret fst snd flat].
  rewrite flat_bind, outcome_bind. cbn [onProgress act fst snd flat].
  set (req := mkProcessRequest q results _ _).
  destruct (Hproc req) as [Hcs Hfail]. rewrite Hfail.
  pose proof (consumeProcessed_outcome E q (nodeId sq)
                (chunks (processSearchResult E req)) None
                (mkPartialProcessed None None)) as Ho.
  unfold thrownBy in Ho. rewrite Hcs in Ho.
  rewrite flat_bind, outcome_bind, Ho. simpl. split; [|eauto].
  constructor; [done|]. rewrite app_nil_r.
  by apply consumeProcessed_noError.
Qed.

Lemma researchBranch_noError (rec : Params → Run ResearchResult)
  (p : Params) (sq : NodeQuery) :
  (∀ sr, recursionOf E p sq = Some sr →
         Forall (fun a => noError a = true) (flat (rec (deeperParams p sq sr)).1) ∧
         ∃ r, (rec (deeperParams p sq sr)).2 = Returned r) →
  Forall (fun a => noError a = true) (flat (researchBranch E rec p sq).1) ∧
  ∃ r, (researchBranch E rec p sq).2 = Returned r.
Proof.
  intros Hrec. revert Hrec.
  unfold recursionOf, researchBranch, branchBody.
  destruct (truthy (query sq)) as [q|];
    [|intros _; split; [by repeat constructor|by eexists]].
  destruct (processed_noError p q sq) as [Hp [sr Hsr]].
  destruct (processed E p q sq) as [tp op]. cbn [fst snd] in *. subst op.
  unfold mbind, Run_bind. simpl.
  destruct (shouldRecurse _ _ sr) eqn:Hdeep; intros Hrec.
  - destruct (Hrec sr eq_refl) as [Hr [r Hor]].
    destruct (rec (deeperParams p sq sr)) as [tr or]. cbn [fst snd] in *.
    subst or. simpl. split; [|by eexists].
    repeat (first [constructor; [done|] | apply Forall_app; split; [done|]
                  | rewrite <- app_assoc; simpl]).
    constructor.
  - simpl. split; [|by eexists].
    repeat (first [constructor; [done|] | apply Forall_app; split; [done|]
                  | rewrite <- app_assoc; simpl]).
    constructor.
Qed.

Lemma deepResearch_noError (p : Params) :
  Forall (fun a => noError a = true) (flat (deepResearch E p).1).
Proof.
  induction p as [p IH] using (deeper_ind E).
  destruct (querySource_noError p) as [Hq1 [sqs' Hq2]].
  assert (∀ sq,
    Forall (fun a => noError a = true)
           (flat (researchBranch E (deepResearch E) p sq).1) ∧
    ∃ r, (researchBranch E (deepResearch E) p sq).2 = Returned r) as Hbranch.
  { intros sq. apply researchBranch_noError. intros sr Hsr.
    split; [by apply IH|].
    destruct (deepResearch_returns E (deeperParams p sq sr)) as (t & r & ->).
    by exists r. }
  destruct (deepResearch_cases E p)
    as [(tq & e & Hq & Hd)|[(tq & sqs & rs & Hq & Hrs & Ho & Hflat)
                           |(tq & sqs & e & Hq & He & Ho & Hflat)]];
    rewrite Hq in *; cbn [fst snd] in *; [done| |].
  - rewrite Hflat. apply Forall_app. split; [done|].
    apply Forall_app. split; [|case_decide; by repeat constructor].
    apply Forall_concat_map. intros sq. apply Hbranch.
  - destruct (map_Returned_exists
                (fun sq => (researchBranch E (deepResearch E) p sq).2) sqs)
      as [rs Hrs]; [intros sq _; apply Hbranch|].
    rewrite Hrs, allReturned_map in He. done.
Qed.

End FailureFree.

(** X18. When no collaborator fails (no [error] or [bad-end] chunk, no
    stream that throws, no search that throws), no execution of any call
    reports an [error] step. *)
Theorem no_failure_no_error_step (E : Env) (p : Params) (l : list action)
  (Hfree : failureFree E)
  (Hl : execution l (deepResearch E p).1 = true) :
  Forall (fun a => noError a = true) l.
Proof.
  apply execution_flat in Hl. rewrite Hl. by apply deepResearch_noError.
Qed.

Lemma scenario_smooth : failureFree Scenario.smooth.
Proof. split_and!; [done|done|]. intros q lang. by eexists. Qed.

(** The sequential run of the root call of [Scenario.smooth], which goes
    one level deep from both queries. *)
Lemma no_failure_no_error_step_witness :
  failureFree Scenario.smooth ∧
  countAction CapInc
    (flat (deepResearch Scenario.smooth Scenario.rootParams).1) = 2%nat ∧
  Forall (fun a => noError a = true)
         (flat (deepResearch Scenario.smooth Scenario.rootParams).1).
Proof.
  split; [exact scenario_smooth|]. split; [vm_compute; reflexivity|].
  apply (no_failure_no_error_step Scenario.smooth Scenario.rootParams);
    [exact scenario_smooth|apply flat_execution].
Defined.

(** ** The course of the capacity *)

Lemma settled_Both (t1 t2 : trace) :
  settled (Both t1 t2) = true → settled t1 = true ∨ settled t2 = true.
Proof.
  simpl.
  intros [[[H1 _]%andb_true_iff|H1]%orb_true_iff|H2]%orb_true_iff.
  - by left.
  - left. by apply rejected_settled.
  - right. by apply rejected_settled.
Qed.

Lemma lowest_atSettle (t : trace) :
  lowest t ≤ atSettle t ∧ lowest t ≤ 0 ∧ (settled t = true → atSettle t ≤ 0).
Proof.
  induction t as [|a|t1 IH1 t2 IH2|t1 IH1 t2 IH2|t IH].
  - done.
  - simpl. split_and!; [lia|lia|done].
  - destruct IH1 as (H1a & H1b & H1c), IH2 as (H2a & H2b & H2c).
    cbn [lowest atSettle settled]. split_and!.
    + destruct (settled t1); lia.
    + destruct (settled t1); [specialize (H1c eq_refl)|]; lia.
    + intros [Hs1 Hs2]%andb_true_iff.
      specialize (H1c Hs1). specialize (H2c Hs2). lia.
  - destruct IH1 as (H1a & H1b & H1c), IH2 as (H2a & H2b & H2c).
    split_and!; [simpl; lia|simpl; lia|].
    intros [Hs|Hs]%settled_Both; cbn [atSettle].
    + specialize (H1c Hs). lia.
    + specialize (H2c Hs). lia.
  - exact IH.
Qed.

Lemma lowest_nonpos (t : trace) : lowest t ≤ 0.
Proof. apply lowest_atSettle. Qed.

(** A step moves the capacity by no more than the bounds allow. *)
Lemma enabled_lowest (t t' : trace) (a : action) :
  (a, t') ∈ enabled t →
  lowest t ≤ shift a + lowest t' ∧ atSettle t ≤ shift a + atSettle t'.
Proof.
  revert t'. induction t as [|b|t1 IH1 t2 IH2|t1 IH1 t2 IH2|t IH];
    intros t'; cbn [enabled].
  - by intros ?%elem_of_nil.
  - intros [= -> ->]%list_elem_of_singleton. simpl. lia.
  - rewrite elem_of_app.
    intros [([b t1'] & [= -> ->] & Hin)%list_elem_of_fmap|Hin].
    + destruct (IH1 _ Hin) as [HL HS].
      destruct (settled_enabled _ _ _ Hin) as [Hmono _].
      cbn [fst snd lowest atSettle]. split; [|lia].
      destruct (settled t1) eqn:Hs1.
      * rewrite (Hmono eq_refl). lia.
      * destruct (settled t1'); lia.
    + destruct (settled t1) eqn:Hs1; [|by apply elem_of_nil in Hin].
      apply list_elem_of_fmap in Hin as ([b t2'] & [= -> ->] & Hin).
      destruct (IH2 _ Hin) as [HL HS].
      cbn [fst snd lowest atSettle]. rewrite Hs1. lia.
  - rewrite elem_of_app.
    intros [([b t1'] & [= -> ->] & Hin)%list_elem_of_fmap
           |([b t2'] & [= -> ->] & Hin)%list_elem_of_fmap];
      cbn [fst snd lowest atSettle].
    + destruct (IH1 _ Hin). lia.
    + destruct (IH2 _ Hin). lia.
  - intros ([b t1'] & [= -> ->] & Hin)%list_elem_of_fmap.
    cbn [fst snd lowest atSettle]. by apply IH.
Qed.

Lemma capacityAfter_cons (c : Z) (a : action) (l : list action) :
  capacityAfter c (a :: l) = capacityAfter (c + shift a) l.
Proof.
  unfold capacityAfter. simpl. f_equal. destruct a; simpl; lia.
Qed.

(** At no moment of an execution is the capacity lower than [lowest]
    allows. *)
Lemma execution_lowest (l1 l2 : list action) (t : trace) (c : Z) :
  execution (l1 ++ l2) t = true → c + lowest t ≤ capacityAfter c l1.
Proof.
  revert t c. induction l1 as [|a l1 IH]; intros t c.
  - intros _. pose proof (lowest_nonpos t). unfold capacityAfter. simpl. lia.
  - cbn [app execution].
    intros ([b t'] & Hin & Hb)%existsb_exists.
    apply andb_true_iff in Hb as [Hab Hex]. cbn [fst snd] in *.
    apply bool_decide_eq_true in Hab as ->.
    apply list_elem_of_In, enabled_lowest in Hin as [Hlow _].
    rewrite capacityAfter_cons. specialize (IH _ (c + shift b) Hex). lia.
Qed.

Lemma steady_ret {A} (a : A) : steady (mret a : Run A).
Proof. done. Qed.

Lemma steady_throw {A} (e : thrown) : steady (@throw A e).
Proof. done. Qed.

Lemma steady_onProgress (s : ResearchStep) : steady (onProgress s).
Proof. done. Qed.

Lemma steady_Then (t1 t2 : trace) :
  lowest t1 = 0 → atSettle t1 = 0 → lowest t2 = 0 → atSettle t2 = 0 →
  lowest (Then t1 t2) = 0 ∧ atSettle (Then t1 t2) = 0.
Proof.
  intros H1 H2 H3 H4. cbn [lowest atSettle]. destruct (settled t1); lia.
Qed.

Lemma steady_bind {A B} (m : Run A) (k : A → Run B) :
  steady m → (∀ a, steady (k a)) → steady (m ≫= k).
Proof.
  intros [Hm1 Hm2] Hk. destruct m as [t [a| |]]; unfold mbind, Run_bind;
    [|done|done].
  destruct (Hk a) as [Hk1 Hk2]. by apply steady_Then.
Qed.

Lemma steady_forEach {A} (xs : list A) (f : A → ResearchStep) :
  steady (forEach xs (fun x => onProgress (f x))).
Proof.
  induction xs as [|x xs IH]; cbn [forEach]; [done|].
  apply steady_bind; [done|by intros _].
Qed.

Lemma steady_tryCatch {A} (body : Run A) (handler : thrown → Run A) :
  steady body → (∀ e, steady (handler e)) → steady (tryCatch body handler).
Proof.
  intros [Hb1 Hb2] Hh. destruct body as [t [a|e|]]; [done| |done].
  destruct (Hh e) as [Hh1 Hh2]. by apply steady_Then.
Qed.

Lemma steady_globalLimit {A} (unit : string) (body : Run A) :
  steady body → steady (globalLimit unit body).
Proof.
  intros [H1 H2]. unfold steady, globalLimit. cbn [fst].
  apply steady_Then; try done; by apply steady_Then.
Qed.

Lemma steady_promiseAll {A} (units : list (Run A)) :
  Forall steady units → steady (promiseAll units).
Proof.
  unfold steady, promiseAll. cbn [fst].
  induction 1 as [|u units [Hu1 Hu2] _ [IH1 IH2]];
    cbn [map foldr lowest atSettle]; [done|].
  assert (lowest (unitTrace u) = 0 ∧ atSettle (unitTrace u) = 0) as [-> ->]
    by (unfold unitTrace; by destruct u.2).
  lia.
Qed.

Section Steady.

Context (E : Env).

Lemma steady_consumeQueries (nodeId0 : string) cs fail sqs :
  steady (consumeQueries E nodeId0 cs fail sqs).
Proof.
  revert sqs. induction cs as [|[v|delta|msg|] cs IH]; intros sqs;
    cbn [consumeQueries].
  - by destruct fail.
  - destruct (queries v); [|done].
    apply steady_bind; [apply steady_forEach|done].
  - by apply steady_bind.
  - by apply steady_bind.
  - by apply steady_bind.
Qed.

Lemma steady_querySource (p : Params) : steady (querySource E p).
Proof.
  unfold querySource. destruct (nonRootRetry p); [done|].
  apply steady_bind; [apply steady_consumeQueries|]. intros sqs.
  apply steady_bind; [done|]. intros _.
  apply steady_bind; [apply steady_forEach|done].
Qed.

Lemma steady_consumeProcessed (q nodeId0 : string) cs fail sr :
  steady (consumeProcessed E q nodeId0 cs fail sr).
Proof.
  revert sr. induction cs as [|[v|delta|msg|] cs IH]; intros sr;
    cbn [consumeProcessed].
  - by destruct fail.
  - by apply steady_bind.
  - by apply steady_bind.
  - by apply steady_bind.
  - by apply steady_bind.
Qed.

Lemma steady_processed (p : Params) (q : string) (sq : NodeQuery) :
  steady (processed E p q sq).
Proof.
  unfold processed. apply steady_bind.
  { unfold search. by destruct (useWebSearch E q _). }
  intros results. apply steady_bind; [done|]. intros _.
  apply steady_bind; [apply steady_consumeProcessed|done].
Qed.

Lemma steady_researchBranch (rec : Params → Run ResearchResult)
  (p : Params) (sq : NodeQuery) :
  (∀ sr, shouldRecurse (p_currentDepth p + 1) (p_maxDepth p) sr = true →
         steady (rec (deeperParams p sq sr))) →
  steady (researchBranch E rec p sq).
Proof.
  intros Hrec. unfold researchBranch. apply steady_globalLimit.
  destruct (truthy (query sq)) as [q|]; [|done].
  apply steady_bind; [done|]. intros _.
  apply steady_tryCatch;
    [|intros [v|m]; [done|by apply steady_bind]].
  unfold branchBody. apply steady_bind; [apply steady_processed|].
  intros sr. apply steady_bind; [done|]. intros _.
  destruct (shouldRecurse _ _ sr) eqn:Hsr; [|done].
  destruct (Hrec sr Hsr) as [Hr1 Hr2].
  unfold steady, mbind, Run_bind, tryFinally.
  cbn [act fst snd lowest atSettle settled shift].
  destruct (settled (rec (deeperParams p sq sr)).1); lia.
Qed.

Lemma steady_deepResearch (p : Params) : steady (deepResearch E p).
Proof.
  revert p. apply (deepResearch_ind E (fun _ run => steady run)).
  intros rec p Hrec. unfold deepResearchBody.
  apply steady_tryCatch; [|intros e; by apply steady_bind].
  unfold nodeBody. apply steady_bind; [apply steady_querySource|].
  intros sqs. apply steady_bind.
  - apply steady_promiseAll. apply Forall_fmap, Forall_forall.
    intros sq _. apply steady_researchBranch. intros sr. apply Hrec.
  - intros results. apply steady_bind; [by case_decide|done].
Qed.

End Steady.

(** X19. At no moment of any execution of a call is the capacity of the
    limiter below the value it had when the call began: a decrement only
    ever follows the increment it undoes. *)
Theorem capacity_never_below_start (E : Env) (p : Params)
  (l1 l2 : list action) (c : Z)
  (Hl : execution (l1 ++ l2) (deepResearch E p).1 = true) :
  c ≤ capacityAfter c l1.
Proof.
  pose proof (execution_lowest l1 l2 _ c Hl) as Hlow.
  destruct (steady_deepResearch E p) as [Hzero _]. lia.
Qed.

(** The first sixteen actions of [Scenario.slowSibling], up to the
    decrement. *)
Lemma capacity_never_below_start_witness :
  execution (take 16 Scenario.slowSibling ++ drop 16 Scenario.slowSibling)
    (deepResearch Scenario.twoQueries Scenario.rootParams).1 = true ∧
  1 ≤ capacityAfter 1 (take 16 Scenario.slowSibling).
Proof.
  split; [reflexivity|].
  apply (capacity_never_below_start Scenario.twoQueries Scenario.rootParams
           (take 16 Scenario.slowSibling) (drop 16 Scenario.slowSibling)).
  reflexivity.
Defined.

(** ** Retrying the root *)

(** X20. A [retryNode] with the root id is ignored: the call does exactly
    what it does without any [retryNode], a fresh start. *)
Theorem retry_of_root_is_fresh_start (E : Env) (p : Params)
  (node : DeepResearchNode)
  (Hretry : p_retryNode p = Some node) (Hid : rn_id node = "0") :
  deepResearch E p = deepResearch E (withoutRetry p).
Proof.
  assert (nonRootRetry p = None) as Hnr.
  { unfold nonRootRetry. rewrite Hretry. by rewrite decide_False by auto. }
  rewrite !deepResearch_unfold.
  unfold deepResearchBody, nodeBody, nodeHandler, querySource, effectiveNodeId.
  rewrite Hnr. reflexivity.
Qed.

(** Retrying node [0] in [Scenario.twoQueries]. *)
Lemma retry_of_root_is_fresh_start_witness :
  p_retryNode Scenario.retryRootParams = Some Scenario.retriedRoot ∧
  rn_id Scenario.retriedRoot = "0" ∧
  deepResearch Scenario.twoQueries Scenario.retryRootParams
  = deepResearch Scenario.twoQueries Scenario.rootParams.
Proof.
  split; [reflexivity|]. split; [reflexivity|].
  apply (retry_of_root_is_fresh_start Scenario.twoQueries
           Scenario.retryRootParams Scenario.retriedRoot); reflexivity.
Defined.

(** ** What a branch catches *)

Lemma researchBranch_caught (E : Env) (rec : Params → Run ResearchResult)
  (p : Params) (sq : NodeQuery) (q : string) (t : trace) (m : option string) :
  truthy (query sq) = Some q →
  branchBody E rec p q sq = (t, Threw (mkThrown m)) →
  (researchBranch E rec p sq).2 = Returned (mkResult []) ∧
  Progress (error m (nodeId sq)) ∈ flat (researchBranch E rec p sq).1 ∧
  Release (nodeId sq) ∈ flat (researchBranch E rec p sq).1.
Proof.
  intros Hq Hbody. unfold researchBranch. rewrite Hq, Hbody.
  split; [done|]. cbn [globalLimit onProgress act mbind Run_bind tryCatch
                       branchHandler mret Run_ret fst snd flat].
  split.
  - right. right. apply elem_of_app. left. apply elem_of_app. right. left.
  - right. apply elem_of_app. right. left.
Qed.

(** X21. Errors that have properties are contained. When no branch of a
    call catches [null] or [undefined], every branch returns and the call
    resolves to the deduplication of what they return; a branch whose
    inner [try] block threw returns no learnings, and every execution has
    its [error] step, with the message of what was thrown and for the
    node of the branch, and the release of its unit. *)
Theorem readable_errors_contained (E : Env) (p : Params) (tq : trace)
  (sqs : list NodeQuery)
  (Hq : querySource E p = (tq, Returned sqs))
  (Hread : ∀ sq q v, sq ∈ sqs → truthy (query sq) = Some q →
             (branchBody E (deepResearch E) p q sq).2 ≠ Threw (Nullish v)) :
  ∃ rs,
    map (fun sq => (researchBranch E (deepResearch E) p sq).2) sqs
    = map Returned rs ∧
    (deepResearch E p).2 = Returned (mkResult (dedupe rs)) ∧
    ∀ sq q t m,
      sq ∈ sqs → truthy (query sq) = Some q →
      branchBody E (deepResearch E) p q sq = (t, Threw (mkThrown m)) →
      (researchBranch E (deepResearch E) p sq).2 = Returned (mkResult []) ∧
      ∀ l, execution l (deepResearch E p).1 = true →
           Progress (error m (nodeId sq)) ∈ l ∧ Release (nodeId sq) ∈ l.
Proof.
  destruct (map_Returned_exists
              (fun sq => (researchBranch E (deepResearch E) p sq).2) sqs)
    as [rs Hrs].
  { intros sq Hsq. pose proof (deepResearch_branches E p sq) as Hfuel.
    destruct (researchBranch E (deepResearch E) p sq).2 as [r|e|] eqn:Hb;
      [by exists r| |done].
    apply researchBranch_threw in Hb as (q & v & Hqs & Hbody & _).
    by destruct (Hread sq q v). }
  destruct (deepResearchBody_returned E (deepResearch E) p tq sqs rs Hq Hrs)
    as [Ho Hflat].
  rewrite <- deepResearch_unfold in Ho, Hflat.
  exists rs. split; [done|]. split; [done|].
  intros sq q t m Hsq Hqs Hbody.
  destruct (researchBranch_caught E (deepResearch E) p sq q t m Hqs Hbody)
    as (Hret & Herr & Hrel).
  split; [done|]. intros l Hl. apply execution_flat in Hl. rewrite Hl, Hflat.
  split; apply elem_of_app; right; apply elem_of_app; left.
  - by apply (elem_of_concat_map
                (fun sq => flat (researchBranch E (deepResearch E) p sq).1)
                sqs sq).
  - by apply (elem_of_concat_map
                (fun sq => flat (researchBranch E (deepResearch E) p sq).1)
                sqs sq).
Qed.

(** In [Scenario.searchDown] both searches fail with an [Error]: both
    branches report it, and the call resolves to no learnings with a
    [complete] step. *)
Lemma readable_errors_contained_witness :
  branchBody Scenario.searchDown (deepResearch Scenario.searchDown)
    Scenario.rootParams "a" Scenario.queryA
  = (Done, Threw (mkThrown (Some "fetch failed"))) ∧
  (deepResearch Scenario.searchDown Scenario.rootParams).2
  = Returned (mkResult []) ∧
  Progress (error (Some "fetch failed") "0-0")
  ∈ flat (deepResearch Scenario.searchDown Scenario.rootParams).1.
Proof.
  split; [reflexivity|]. split; [reflexivity|].
  destruct (readable_errors_contained Scenario.searchDown Scenario.rootParams
              (querySource Scenario.searchDown Scenario.rootParams).1
              [Scenario.queryA; Scenario.queryB] eq_refl)
    as (rs & _ & _ & Hcaught).
  - intros sq q v [->|[->|[]%elem_of_nil]%elem_of_cons]%elem_of_cons [= <-];
      discriminate.
  - apply (Hcaught Scenario.queryA "a" Done (Some "fetch failed"));
      [left|reflexivity|reflexivity|apply flat_execution].
Defined.


